(** * earc: Gmail incremental sync and attachment ingestion

    A shallow embedding of the ingestion core of the archiver:
    [GmailService] (src/gmail/gmail.service.ts), [DriveService]
    (src/drive/drive.service.ts) and the credential helper of
    [GoogleAuthService] (src/auth/google-auth.service.ts).

    Pure helpers are Rocq functions.  Every [await] of the services (a
    Prisma query, a Gmail or Drive request, a token refresh) and every
    logger call is an operation of a small free monad [Proc]; a handler
    gives the operations their meaning on a world made of the relational
    store and of an arbitrary remote state. *)

From Stdlib Require Import String Ascii List ZArith Lia Bool Arith.
Import ListNotations.
Local Open Scope string_scope.
Local Open Scope list_scope.

Set Implicit Arguments.

(** ** JavaScript values

    Strings are sequences of 8-bit code units.  An optional or nullable
    field is an [option]; [undefined] and [null] are not told apart. *)

Module Js.

  (** Truthiness of [string | null | undefined]. *)
Definition truthy (o : option string) : bool :=
    match o with
    | Some s => negb (s =? "")
    | None => false
    end.

  (** [o || d] on strings. *)
Definition or_else (o : option string) (d : string) : string :=
    match o with
    | Some s => if s =? "" then d else s
    | None => d
    end.

Definition lower_ascii (c : ascii) : ascii :=
    let n := nat_of_ascii c in
    if (65 <=? n)%nat && (n <=? 90)%nat then ascii_of_nat (n + 32) else c.

  (** [s.toLowerCase()], on the ASCII letters. *)
Fixpoint toLowerCase (s : string) : string :=
    match s with
    | EmptyString => EmptyString
    | String c r => String (lower_ascii c) (toLowerCase r)
    end.

  (** [s.includes(sub)]. *)
Fixpoint includes (s sub : string) : bool :=
    if String.prefix sub s then true
    else match s with
         | EmptyString => false
         | String _ r => includes r sub
         end.

  (** A thrown value: an [Error] with its message, or anything else. *)
Inductive error : Type :=
  | Error (message : string)
  | NonError.

  (** [error instanceof Error ? error.message : fallback]. *)
Definition message_or (e : error) (fallback : string) : string :=
    match e with
    | Error m => m
    | NonError => fallback
    end.

  (** Outcome of an awaited promise or of a block that may throw. *)
Inductive result (A : Type) : Type :=
  | Ok (a : A)
  | Throw (e : error).
Arguments Throw {A} e.

End Js.

Import Js.

(** ** Gmail message parts (gmail_v1.Schema$MessagePart) *)

Record MessagePartHeader : Type := mkHeader {
  name : option string;
  value : option string
}.

Record MessagePartBody : Type := mkBody {
  attachmentId : option string;
  size : option Z;
  data : option string
}.

#[warnings="-register-all"]
Inductive MessagePart : Type := mkPart {
  partId : option string;
  mimeType : option string;
  filename : option string;
  headers : option (list MessagePartHeader);
  body : option MessagePartBody;
  parts : option (list MessagePart)
}.

(** [part.body?.attachmentId] *)
Definition body_attachmentId (part : MessagePart) : option string :=
  match body part with
  | Some b => attachmentId b
  | None => None
  end.

(** [part.body?.size] *)
Definition body_size (part : MessagePart) : option Z :=
  match body part with
  | Some b => size b
  | None => None
  end.

(** [part.body?.data] *)
Definition body_data (part : MessagePart) : option string :=
  match body part with
  | Some b => data b
  | None => None
  end.

(** ** GmailService.extractParts

    [if (part.parts)] tests the presence of the array: an empty array is
    truthy, so a part with [parts: []] takes the loop branch. *)
Fixpoint extractParts (part : MessagePart) : list MessagePart :=
  match part with
  | mkPart _ _ _ _ _ (Some subParts) =>
      (fix loop (rest : list MessagePart) (allParts : list MessagePart)
         : list MessagePart :=
         match rest with
         | [] => allParts
         | subPart :: rest' => loop rest' (allParts ++ extractParts subPart)
         end) subParts []
  | mkPart _ _ _ _ _ None => [part]
  end.

(** ** GmailService.isAttachment *)

Definition is_content_disposition (h : MessagePartHeader) : bool :=
  match name h with
  | Some n => toLowerCase n =? "content-disposition"
  | None => false
  end.

Definition isAttachment (part : MessagePart) : bool :=
  if truthy (body_attachmentId part) then true
  else
    let fallthrough :=
      truthy (filename part) &&
      match body_size part with
      | Some sz => negb (sz =? 0)%Z && (0 <? sz)%Z
      | None => false
      end in
    match headers part with
    | Some hs =>
        match find is_content_disposition hs with
        | Some disposition =>
            match value disposition with
            | Some v => if includes v "attachment" then true else fallthrough
            | None => fallthrough
            end
        | None => fallthrough
        end
    | None => fallthrough
    end.

(** ** Gmail responses *)

Module Message.
  (** gmail_v1.Schema$Message, the fields the service reads. *)
Record t : Type := mk {
    id : option string;
    threadId : option string;
    internalDate : option string;
    payload : option MessagePart
  }.
End Message.

Module ListMessages.
  (** Response of [users.messages.list]; a message is listed by its id. *)
Record t : Type := mk {
    messages : option (list (option string));
    nextPageToken : option string
  }.
End ListMessages.

Module History.
  (** Response of [users.history.list]: one entry per history record,
      each with the ids of its messages. *)
Record t : Type := mk {
    history : option (list (option (list (option string))));
    historyId : option string
  }.
End History.

(** The body Pub/Sub posts to the webhook (src/gmail/webhook.controller.ts):
    of the message only [data] is read. *)
Module PubSubMessage.
Record message_t : Type := mkMessage {
    data : option string
  }.
Record t : Type := mk {
    message : option message_t
  }.
End PubSubMessage.

(** What a controller sends back: [res.status(...).send(...)]. *)
Module HttpStatus.
Definition OK : Z := 200.
Definition BAD_REQUEST : Z := 400.
Definition INTERNAL_SERVER_ERROR : Z := 500.
End HttpStatus.

(** Auth.OAuth2Client after [setCredentials]. *)
Record OAuth2Client : Type := mkClient {
  access_token : string;
  refresh_token : string;
  expiry_date : Z
}.

(** Auth.Credentials as returned by [refreshAccessToken]. *)
Module Credentials.
Record t : Type := mk {
    access_token : option string;
    refresh_token : option string;
    expiry_date : option Z
  }.
End Credentials.

(** ** Drive values *)

Definition Buffer : Type := list Byte.byte.

Module DriveFile.
  (** drive_v3.Schema$File with the requested [fields]. *)
Record t : Type := mk {
    id : option string;
    name : option string;
    mimeType : option string;
    size : option string;
    webViewLink : option string;
    webContentLink : option string
  }.
End DriveFile.

Module FileMetadata.
  (** [requestBody] of [drive.files.create]. *)
Record t : Type := mk {
    name : string;
    mimeType : option string;
    parents : option (list string)
  }.
End FileMetadata.

Module Media.
Record t : Type := mk {
    mimeType : string;
    body : Buffer
  }.
End Media.

Module AttachmentData.
Record t : Type := mk {
    fileName : string;
    mimeType : string;
    data : Buffer;
    size : Z
  }.
End AttachmentData.

Module DriveUploadResult.
  (** [size] is [parseInt(...)]: [None] stands for NaN. *)
Record t : Type := mk {
    fileId : string;
    fileName : string;
    mimeType : string;
    size : option Z;
    webViewLink : string;
    webContentLink : string
  }.
End DriveUploadResult.

(** ** Rows of the relational store (prisma/schema.prisma)

    The [uuid()] primary keys of Email and Attachment are drawn from a
    counter of the store; the [createdAt] columns are read by no
    operation of the ingestion core and are left out. *)

Module Token.
Record t : Type := mk {
    id : string;
    userId : option string;
    accessToken : string;
    refreshToken : string;
    expiryDate : Z;
    historyId : option string
  }.
End Token.

Module CreateEmailDto.
Record t : Type := mk {
    messageId : string;
    threadId : string;
    subject : string;
    sender : string;
    recipients : string;
    cc : string;
    bcc : string;
    date : Z;
    bodyText : string;
    bodyHtml : string
  }.
End CreateEmailDto.

Module Email.
Record t : Type := mk {
    id : nat;
    userId : option string;
    fields : CreateEmailDto.t
  }.
Definition messageId (e : t) : string := CreateEmailDto.messageId (fields e).
End Email.

Module Attachment.
Record t : Type := mk {
    id : nat;
    emailId : nat;
    fileName : string;
    mimeType : string;
    driveLink : string
  }.
End Attachment.

(** ** Operations

    One constructor per awaited call or logger call of the services.
    [Resp op] is what the caller gets back: a [result] for a promise that
    may reject, a plain value for [Date.now()] and for the logger. *)

Inductive LogLevel : Type := LLog | LDebug | LWarn | LError.

(** A logger call is kept as its message template and the interpolated
    values; the formatted text is not computed. *)
Inductive LogArg : Type :=
| LStr (s : string)
| LOpt (o : option string)
| LNum (n : Z)
| LErr (e : error).

Inductive Op : Type :=
(* PrismaService *)
| EmailFindUnique (messageId : string)
| EmailCreate (data : CreateEmailDto.t) (userId : option string)
| AttachmentCreate (emailId : nat) (fileName mimeType driveLink : string)
| TokenFindMany
| TokenUpdateHistoryId (id : string) (historyId : string)
| TokenUpdateCredentials (id : string) (accessToken : string)
    (expiryDate : Z) (refreshToken : option string)
(* OAuth2 token endpoint *)
| RefreshAccessToken (refresh_token : string)
(* Gmail API *)
| HistoryList (auth : OAuth2Client) (startHistoryId : string)
| MessagesList (auth : OAuth2Client) (maxResults : Z)
    (pageToken : option string)
| MessagesGet (auth : OAuth2Client) (id : string)
| AttachmentsGet (auth : OAuth2Client) (messageId : option string)
    (id : string)
| Watch (auth : OAuth2Client) (topicName : option string)
(* Drive API *)
| DriveFilesList (auth : OAuth2Client) (q : string)
| DriveFilesCreate (auth : OAuth2Client) (requestBody : FileMetadata.t)
    (media : option Media.t)
| DrivePermissionsCreate (auth : OAuth2Client) (fileId : string)
(* synchronous *)
| DateNow
| LogOp (level : LogLevel) (template : string) (args : list LogArg).

Definition Resp (op : Op) : Type :=
  match op with
  | EmailFindUnique _ => result (option Email.t)
  | EmailCreate _ _ => result Email.t
  | AttachmentCreate _ _ _ _ => result Attachment.t
  | TokenFindMany => result (list Token.t)
  | TokenUpdateHistoryId _ _ => result Token.t
  | TokenUpdateCredentials _ _ _ _ => result Token.t
  | RefreshAccessToken _ => result Credentials.t
  | HistoryList _ _ => result History.t
  | MessagesList _ _ _ => result ListMessages.t
  | MessagesGet _ _ => result (option Message.t)
  | AttachmentsGet _ _ _ => result (option string)
  | Watch _ _ => result (option string)
  | DriveFilesList _ _ => result (option (list DriveFile.t))
  | DriveFilesCreate _ _ _ => result DriveFile.t
  | DrivePermissionsCreate _ _ => result unit
  | DateNow => Z
  | LogOp _ _ _ => unit
  end.

(** ** The monad of service code *)

Inductive Proc (A : Type) : Type :=
| Ret (a : A)
| Vis (op : Op) (k : Resp op -> Proc A).
Arguments Ret {A} a.
Arguments Vis {A} op k.

Fixpoint pbind {A B : Type} (p : Proc A) (f : A -> Proc B) : Proc B :=
  match p with
  | Ret a => f a
  | Vis op k => Vis op (fun r => pbind (k r) f)
  end.

(** An async function body: it returns or throws. *)
Definition M (A : Type) : Type := Proc (result A).

Definition ret {A : Type} (a : A) : M A := Ret (Ok a).
Definition throw {A : Type} (e : error) : M A := Ret (Throw e).

Definition mbind {A B : Type} (p : M A) (f : A -> M B) : M B :=
  pbind p (fun r => match r with
                    | Ok a => f a
                    | Throw e => Ret (Throw e)
                    end).

(** [try { p } catch (error) { h error }] *)
Definition try_catch {A : Type} (p : M A) (h : error -> M A) : M A :=
  pbind p (fun r => match r with
                    | Ok a => Ret (Ok a)
                    | Throw e => h e
                    end).

(** An awaited call: the response of the operation as it is. *)
Definition call (op : Op) : Proc (Resp op) := Vis op Ret.

(** A synchronous, total operation inside an async body. *)
Definition perform {A : Type} (op : Op) (k : Resp op -> M A) : M A :=
  Vis op k.

Definition log (level : LogLevel) (template : string) (args : list LogArg)
  : M unit :=
  Vis (LogOp level template args) (fun _ => ret tt).

(** A pure block that may throw. *)
Definition lift {A : Type} (r : result A) : M A := Ret r.

Declare Scope proc_scope.
Delimit Scope proc_scope with proc.
Notation "x <- p ;; q" := (mbind p (fun x => q))
  (at level 61, p at next level, right associativity) : proc_scope.
Notation "p ;; q" := (mbind p (fun _ => q))
  (at level 61, right associativity) : proc_scope.
Local Open Scope proc_scope.

(** [for (const x of l) { s = await body(s, x) }] *)
Fixpoint foldM {A S : Type} (body : S -> A -> M S) (l : list A) (s : S)
  : M S :=
  match l with
  | [] => ret s
  | x :: rest => s' <- body s x ;; foldM body rest s'
  end.

Definition forM {A : Type} (l : list A) (body : A -> M unit) : M unit :=
  foldM (fun _ x => body x) l tt.

(** ** Library functions outside the repository

    Node's base64 and UTF-8 decoding, [Number(...)] and [parseInt(...)] on
    strings ([None] for NaN) and the process environment are parameters
    of the model. *)
Class Platform : Type := {
  base64_decode : string -> Buffer;
  utf8_toString : Buffer -> string;
  js_Number : string -> option Z;
  js_parseInt : string -> option Z;
  GOOGLE_PUBSUB_TOPIC : option string
}.

(** [JSON.parse] is used for one log line only: what matters is whether
    it throws, and what. *)
Class Json : Type := {
  JSON_parse_error : string -> option error
}.

(** More of the JavaScript string library, for [sanitizeFolderName]. *)
Module JsString.

  (** White space in the sense of [String.prototype.trim], among 8-bit
      code units: TAB, LF, VT, FF, CR, SP and NBSP. *)
Definition is_whitespace (c : ascii) : bool :=
    existsb (Nat.eqb (nat_of_ascii c)) [9; 10; 11; 12; 13; 32; 160]%nat.

Fixpoint trimStart (s : string) : string :=
    match s with
    | EmptyString => EmptyString
    | String c r => if is_whitespace c then trimStart r else s
    end.

Fixpoint trimEnd (s : string) : string :=
    match s with
    | EmptyString => EmptyString
    | String c r =>
        let r' := trimEnd r in
        if is_whitespace c && (r' =? "") then EmptyString else String c r'
    end.

Definition trim (s : string) : string := trimEnd (trimStart s).

  (** [s.replace(/[...]/g, '')] for a character class. *)
Fixpoint remove_all (class : ascii -> bool) (s : string) : string :=
    match s with
    | EmptyString => EmptyString
    | String c r =>
        if class c then remove_all class r else String c (remove_all class r)
    end.

End JsString.

Section Services.

Context {platform : Platform}.

(** ** DriveService (src/drive/drive.service.ts) *)

Definition folder_mimeType : string := "application/vnd.google-apps.folder".

(** The character class of the regular expression, by character code:
    less-than, greater-than, colon, double quote, slash, backslash,
    vertical bar, question mark and asterisk. *)
Definition illegal_in_folder_name (c : ascii) : bool :=
  existsb (Nat.eqb (nat_of_ascii c)) [60; 62; 58; 34; 47; 92; 124; 63; 42]%nat.

Definition sanitizeFolderName (subject : string) : string :=
  JsString.trim
    (String.substring 0 100
       (JsString.remove_all illegal_in_folder_name subject)).

(** [formatFileSize] only feeds the log line; the byte count is logged
    as a number. *)
Definition uploadFile (auth : OAuth2Client) (attachmentData : AttachmentData.t)
    (folderId : option string) : M DriveUploadResult.t :=
  try_catch
    (let fileMetadata :=
       FileMetadata.mk (AttachmentData.fileName attachmentData) None
         (match folderId with
          | Some f => if f =? "" then None else Some [f]
          | None => None
          end) in
     log LLog "Uploading file: ${fileName} (${size})"
       [LStr (AttachmentData.fileName attachmentData);
        LNum (AttachmentData.size attachmentData)] ;;
     file <- call (DriveFilesCreate auth fileMetadata
                     (Some (Media.mk (AttachmentData.mimeType attachmentData)
                              (AttachmentData.data attachmentData)))) ;;
     match DriveFile.id file with
     | Some fid =>
         if fid =? "" then throw (Error "Upload failed: No file ID returned")
         else
           call (DrivePermissionsCreate auth fid) ;;
           let result :=
             DriveUploadResult.mk fid
               (or_else (DriveFile.name file)
                  (AttachmentData.fileName attachmentData))
               (or_else (DriveFile.mimeType file)
                  (AttachmentData.mimeType attachmentData))
               (js_parseInt (or_else (DriveFile.size file) "0"))
               (or_else (DriveFile.webViewLink file) "")
               (or_else (DriveFile.webContentLink file) "") in
           log LLog "File uploaded successfully: ${fileName} (ID: ${fileId})"
             [LStr (DriveUploadResult.fileName result); LStr fid] ;;
           ret result
     | None => throw (Error "Upload failed: No file ID returned")
     end)
    (fun error =>
       let errorMessage := message_or error "Unknown error" in
       log LError "Failed to upload file ${fileName}: ${errorMessage}"
         [LStr (AttachmentData.fileName attachmentData); LStr errorMessage] ;;
       throw (Error ("Drive upload failed: " ++ errorMessage))).

Definition attachments_folder_name : string := "Email Attachments".

Definition attachments_folder_query : string :=
  "name='Email Attachments' and mimeType='application/vnd.google-apps.folder' and trashed=false".

Definition getOrCreateAttachmentsFolder (auth : OAuth2Client) : M string :=
  try_catch
    (searchResponse <- call (DriveFilesList auth attachments_folder_query) ;;
     let folders := match searchResponse with
                    | Some fs => fs
                    | None => []
                    end in
     let create :=
       createResponse <-
         call (DriveFilesCreate auth
                 (FileMetadata.mk attachments_folder_name
                    (Some folder_mimeType) None) None) ;;
       match DriveFile.id createResponse with
       | Some folderId =>
           if folderId =? ""
           then throw (Error "Failed to create folder: No folder ID returned")
           else
             log LLog "Created new attachments folder: ${folderId}"
               [LStr folderId] ;;
             ret folderId
       | None => throw (Error "Failed to create folder: No folder ID returned")
       end in
     match folders with
     | first :: _ =>
         match DriveFile.id first with
         | Some fid =>
             if fid =? "" then create
             else
               log LLog "Using existing attachments folder: ${id}" [LStr fid] ;;
               ret fid
         | None => create
         end
     | [] => create
     end)
    (fun error =>
       log LError "Failed to create/get attachments folder:" [LErr error] ;;
       throw error).

Definition createEmailFolder (auth : OAuth2Client) (parentFolderId : string)
    (emailSubject : string) : M string :=
  try_catch
    (let folderName := sanitizeFolderName emailSubject in
     response <-
       call (DriveFilesCreate auth
               (FileMetadata.mk folderName (Some folder_mimeType)
                  (Some [parentFolderId])) None) ;;
     ret (or_else (DriveFile.id response) parentFolderId))
    (fun error =>
       log LWarn "Failed to create email subfolder, using parent:"
         [LErr error] ;;
       ret parentFolderId).

(** The upload loop of [uploadAttachments]: one [uploadFile] per
    attachment, inside its own try/catch. *)
Definition upload_one (auth : OAuth2Client) (targetFolderId : string)
    (results : list DriveUploadResult.t) (attachment : AttachmentData.t)
  : M (list DriveUploadResult.t) :=
  try_catch
    (result <- uploadFile auth attachment (Some targetFolderId) ;;
     ret (results ++ [result]))
    (fun error =>
       log LError "Failed to upload attachment ${fileName}:"
         [LStr (AttachmentData.fileName attachment); LErr error] ;;
       ret results).

(** The folder organizer: the [let targetFolderId ... if ...] of
    [uploadAttachments]. *)
Definition choose_target_folder (auth : OAuth2Client)
    (attachments : list AttachmentData.t) (emailSubject : option string)
    (mainFolderId : string) : M string :=
  match emailSubject with
  | Some subject =>
      if (1 <? length attachments)%nat && negb (subject =? "")
      then createEmailFolder auth mainFolderId subject
      else ret mainFolderId
  | None => ret mainFolderId
  end.

(** The try block of [uploadAttachments] once the root folder is known. *)
Definition upload_batch (auth : OAuth2Client)
    (attachments : list AttachmentData.t) (emailSubject : option string)
    (mainFolderId : string) : M (list DriveUploadResult.t) :=
  targetFolderId <-
    choose_target_folder auth attachments emailSubject mainFolderId ;;
  results <- foldM (upload_one auth targetFolderId) attachments [] ;;
  log LLog "Uploaded ${results.length}/${attachments.length} attachments successfully"
    [LNum (Z.of_nat (length results));
     LNum (Z.of_nat (length attachments))] ;;
  ret results.

Definition uploadAttachments (auth : OAuth2Client)
    (attachments : list AttachmentData.t) (emailSubject : option string)
  : M (list DriveUploadResult.t) :=
  match attachments with
  | [] => ret []
  | _ :: _ =>
      try_catch
        (mainFolderId <- getOrCreateAttachmentsFolder auth ;;
         upload_batch auth attachments emailSubject mainFolderId)
        (fun error =>
           log LError "Failed to upload attachments batch:" [LErr error] ;;
           ret [])
  end.

(** ** GoogleAuthService (src/auth/google-auth.service.ts)

    The credential helper used by the ingestion core. *)

Definition isTokenExpired (token : Token.t) (currentTime : Z) : bool :=
  let bufferTime := (5 * 60 * 1000)%Z in
  (Token.expiryDate token <=? currentTime + bufferTime)%Z.

Definition refreshToken (token : Token.t) : M Token.t :=
  try_catch
    (log LLog "Refreshing token for user: ${userId}"
       [LStr (or_else (Token.userId token) "unknown")] ;;
     credentials <- call (RefreshAccessToken (Token.refreshToken token)) ;;
     if truthy (Credentials.access_token credentials) then
       let update expiry :=
         updatedToken <-
           call (TokenUpdateCredentials (Token.id token)
                   (or_else (Credentials.access_token credentials) "")
                   expiry
                   (if truthy (Credentials.refresh_token credentials)
                    then Credentials.refresh_token credentials else None)) ;;
         log LLog "Token refreshed successfully for user: ${userId}"
           [LStr (or_else (Token.userId token) "unknown")] ;;
         ret updatedToken in
       match Credentials.expiry_date credentials with
       | Some e =>
           if (e =? 0)%Z
           then perform DateNow (fun now => update (now + 3600000)%Z)
           else update e
       | None => perform DateNow (fun now => update (now + 3600000)%Z)
       end
     else throw (Error "Failed to get new access token"))
    (fun error =>
       let errorMessage := message_or error "Unknown error" in
       log LError "Failed to refresh token: ${errorMessage}"
         [LStr errorMessage] ;;
       (if includes errorMessage "invalid_grant"
           || includes errorMessage "invalid_request"
        then log LWarn
               "Token appears to be permanently invalid, marking for re-authentication"
               []
        else ret tt) ;;
       throw (Error ("Token refresh failed: " ++ errorMessage))).

Definition getValidToken (token : Token.t) : M Token.t :=
  perform DateNow (fun currentTime =>
    if isTokenExpired token currentTime then
      log LLog "Token expired, refreshing..." [] ;;
      refreshToken token
    else ret token).

Definition getAuthenticatedClient (token : Token.t) : M OAuth2Client :=
  validToken <- getValidToken token ;;
  ret (mkClient (Token.accessToken validToken)
         (Token.refreshToken validToken) (Token.expiryDate validToken)).

(** [tokens.filter(token => this.isTokenExpired(token))]: the clock is
    read once for each token. *)
Fixpoint expired_tokens (tokens : list Token.t) : M (list Token.t) :=
  match tokens with
  | [] => ret []
  | token :: rest =>
      perform DateNow (fun currentTime =>
        expired <- expired_tokens rest ;;
        ret (if isTokenExpired token currentTime
             then token :: expired else expired))
  end.

(** The body of the loop of [refreshAllExpiredTokens]. *)
Definition refresh_one (token : Token.t) : M unit :=
  try_catch
    (refreshToken token ;; ret tt)
    (fun error =>
       log LError "Failed to refresh token ${token.id}: ${error}"
         [LStr (Token.id token); LErr error]).

Definition refreshAllExpiredTokens : M unit :=
  try_catch
    (tokens <- call TokenFindMany ;;
     expiredTokens <- expired_tokens tokens ;;
     match expiredTokens with
     | [] => log LLog "No expired tokens found" []
     | _ :: _ =>
         log LLog "Found ${expiredTokens.length} expired tokens, refreshing..."
           [LNum (Z.of_nat (length expiredTokens))] ;;
         forM expiredTokens refresh_one ;;
         log LLog "Completed token refresh cycle" []
     end)
    (fun error =>
       log LError "Error during bulk token refresh: ${error}" [LErr error]).

Definition scheduledTokenRefresh : M unit :=
  log LLog "Running scheduled token refresh check..." [] ;;
  refreshAllExpiredTokens.

(** ** GmailService (src/gmail/gmail.service.ts) *)

(** [headers.find(h => h.name.toLowerCase() === lname)] on headers cast
    to [EmailHeader]: a header without a name makes the callback throw a
    TypeError. *)
Fixpoint find_header (hs : list MessagePartHeader) (lname : string)
  : result (option MessagePartHeader) :=
  match hs with
  | [] => Ok None
  | h :: rest =>
      match name h with
      | Some n =>
          if toLowerCase n =? lname then Ok (Some h)
          else find_header rest lname
      | None =>
          Throw (Error
            "Cannot read properties of undefined (reading 'toLowerCase')")
      end
  end.

(** [getHeader] of [processMessage]: [header?.value || ''] *)
Definition getHeader (hs : list MessagePartHeader) (n : string)
  : result string :=
  match find_header hs (toLowerCase n) with
  | Ok (Some h) => Ok (or_else (value h) "")
  | Ok None => Ok ""
  | Throw e => Throw e
  end.

(** [.filter((id): id is string => id !== undefined)] *)
Fixpoint defined_ids (l : list (option string)) : list string :=
  match l with
  | [] => []
  | Some i :: rest => i :: defined_ids rest
  | None :: rest => defined_ids rest
  end.

Definition downloadAttachment (gmail : OAuth2Client)
    (messageId : option string) (part : MessagePart)
  : M (option AttachmentData.t) :=
  try_catch
    (if negb (truthy (body_attachmentId part)) || negb (truthy (filename part))
     then ret None
     else
       attachmentResponse <-
         call (AttachmentsGet gmail messageId
                 (or_else (body_attachmentId part) "")) ;;
       if truthy attachmentResponse then
         let buffer := base64_decode (or_else attachmentResponse "") in
         ret (Some (AttachmentData.mk
                      (or_else (filename part) "")
                      (or_else (mimeType part) "application/octet-stream")
                      buffer
                      (Z.of_nat (length buffer))))
       else throw (Error "No attachment data received"))
    (fun error =>
       log LError "Failed to download attachment ${part.filename}:"
         [LOpt (filename part); LErr error] ;;
       ret None).

(** The body of the loop of [extractAttachments]. *)
Definition extract_one (gmail : OAuth2Client) (messageId : option string)
    (attachments : list AttachmentData.t) (part : MessagePart)
  : M (list AttachmentData.t) :=
  if isAttachment part then
    try_catch
      (attachmentData <- downloadAttachment gmail messageId part ;;
       match attachmentData with
       | Some d => ret (attachments ++ [d])
       | None => ret attachments
       end)
      (fun error =>
         log LError "Failed to download attachment ${part.filename}:"
           [LOpt (filename part); LErr error] ;;
         ret attachments)
  else ret attachments.

Definition extractAttachments (gmail : OAuth2Client) (message : Message.t)
  : M (list AttachmentData.t) :=
  match Message.payload message with
  | None => ret []
  | Some payload =>
      foldM (extract_one gmail (Message.id message)) (extractParts payload) []
  end.

Definition storeAttachmentMetadata (emailMessageId : string)
    (uploadResult : DriveUploadResult.t) : M unit :=
  try_catch
    (email <- call (EmailFindUnique emailMessageId) ;;
     match email with
     | None =>
         log LWarn "Email not found for attachment storage: ${emailMessageId}"
           [LStr emailMessageId]
     | Some email =>
         call (AttachmentCreate (Email.id email)
                 (DriveUploadResult.fileName uploadResult)
                 (DriveUploadResult.mimeType uploadResult)
                 (DriveUploadResult.webViewLink uploadResult)) ;;
         log LLog "Stored attachment metadata: ${fileName}"
           [LStr (DriveUploadResult.fileName uploadResult)]
     end)
    (fun error =>
       log LError "Failed to store attachment metadata:" [LErr error]).

(** [t.userId === userId] with [userId] a string. *)
Definition token_of_user (userId : string) (t : Token.t) : bool :=
  match Token.userId t with
  | Some u => u =? userId
  | None => false
  end.

Definition processAttachments (gmail : OAuth2Client) (message : Message.t)
    (messageId : string) (userId : option string) : M unit :=
  try_catch
    (match Message.payload message with
     | None => ret tt
     | Some payload =>
         attachments <- extractAttachments gmail message ;;
         match attachments with
         | [] =>
             log LDebug "No attachments found for message ${messageId}"
               [LStr messageId]
         | _ :: _ =>
             log LLog "Found ${attachments.length} attachment(s) for message ${messageId}"
               [LNum (Z.of_nat (length attachments)); LStr messageId] ;;
             tokens <- call TokenFindMany ;;
             let userToken :=
               if truthy userId
               then find (token_of_user (or_else userId "")) tokens
               else hd_error tokens in
             match userToken with
             | None => log LWarn "No valid token found for Drive upload" []
             | Some userToken =>
                 oAuth2Client <- getAuthenticatedClient userToken ;;
                 let headers := match headers payload with
                                | Some hs => hs
                                | None => []
                                end in
                 found <- lift (find_header headers "subject") ;;
                 let subject :=
                   or_else (match found with
                            | Some h => value h
                            | None => None
                            end) "No Subject" in
                 uploadResults <-
                   uploadAttachments oAuth2Client attachments (Some subject) ;;
                 forM uploadResults (storeAttachmentMetadata messageId) ;;
                 log LLog "Processed ${uploadResults.length} attachments for message ${messageId}"
                   [LNum (Z.of_nat (length uploadResults)); LStr messageId]
             end
         end
     end)
    (fun error =>
       let errorMessage := message_or error "Unknown error" in
       log LError "Failed to process attachments for message ${messageId}: ${errorMessage}"
         [LStr messageId; LStr errorMessage]).

(** The loop of [processMessage] over the flattened parts: the decoded
    body of a text/plain or text/html part overwrites the field. *)
Definition body_step (bodies : string * string) (part : MessagePart)
  : M (string * string) :=
  log LDebug "Processing MIME type: ${mimeType}" [LOpt (mimeType part)] ;;
  let bodyData := body_data part in
  if truthy bodyData then
    let decoded := utf8_toString (base64_decode (or_else bodyData "")) in
    let bodyText :=
      match mimeType part with
      | Some m => if m =? "text/plain" then decoded else fst bodies
      | None => fst bodies
      end in
    let bodyHtml :=
      match mimeType part with
      | Some m => if m =? "text/html" then decoded else snd bodies
      | None => snd bodies
      end in
    ret (bodyText, bodyHtml)
  else ret bodies.

(** The end of the try block of [processMessage]: the Message record,
    then the attachments. *)
Definition persist_message (gmail : OAuth2Client) (msg : Message.t)
    (userId : option string) (emailDto : CreateEmailDto.t) : M unit :=
  call (EmailCreate emailDto userId) ;;
  processAttachments gmail msg (CreateEmailDto.messageId emailDto) userId ;;
  log LLog "Stored message: ${emailDto.subject} from ${emailDto.sender}"
    [LStr (CreateEmailDto.subject emailDto);
     LStr (CreateEmailDto.sender emailDto)].

(** The try block of [processMessage]. *)
Definition process_message_try (gmail : OAuth2Client) (id : string)
    (userId : option string) : M unit :=
  existingEmail <- call (EmailFindUnique id) ;;
  match existingEmail with
  | Some _ =>
      log LDebug "Email ${id} already exists, skipping..." [LStr id]
  | None =>
      res <- call (MessagesGet gmail id) ;;
      match res with
      | None => log LWarn "No payload found for message ${id}" [LStr id]
      | Some msg =>
          match Message.payload msg with
          | None =>
              log LWarn "No payload found for message ${id}" [LStr id]
          | Some payload =>
              let headers := match headers payload with
                             | Some hs => hs
                             | None => []
                             end in
              subject <- lift (getHeader headers "Subject") ;;
              sender <- lift (getHeader headers "From") ;;
              recipients <- lift (getHeader headers "To") ;;
              cc <- lift (getHeader headers "Cc") ;;
              bcc <- lift (getHeader headers "Bcc") ;;
              let continue date :=
                bodies <- foldM body_step (extractParts payload) ("", "") ;;
                let emailDto :=
                  CreateEmailDto.mk
                    (or_else (Message.id msg) "")
                    (or_else (Message.threadId msg) "")
                    subject sender recipients cc bcc date
                    (fst bodies) (snd bodies) in
                persist_message gmail msg userId emailDto in
              match match Message.internalDate msg with
                    | Some s => js_Number s
                    | None => None
                    end with
              | Some n =>
                  if (n =? 0)%Z then perform DateNow continue
                  else continue n
              | None => perform DateNow continue
              end
          end
      end
  end.

(** The catch clause of [processMessage]. *)
Definition process_message_catch (id : string) (error : error) : M unit :=
  let errorMessage := message_or error "Unknown error" in
  if includes errorMessage "Unique constraint"
  then log LDebug "Duplicate email ${id}, skipping..." [LStr id]
  else log LWarn "Failed to process email ${id}: ${errorMessage}"
         [LStr id; LStr errorMessage].

Definition processMessage (gmail : OAuth2Client) (id : string)
    (userId : option string) : M unit :=
  try_catch (process_message_try gmail id userId) (process_message_catch id).

Definition batchSize : Z := 50.

(** The do-while loop of [getRecentMessages].  [fuel] bounds the number
    of pages; [None] means the bound was reached before the loop ended. *)
Fixpoint recent_pages (fuel : nat) (gmail : OAuth2Client) (maxMessages : Z)
    (allMessageIds : list string) (nextPageToken : option string)
    (totalFetched : Z) : Proc (option (result (list string))) :=
  match fuel with
  | O => Ret None
  | S fuel' =>
      Vis (MessagesList gmail
             (Z.min batchSize (maxMessages - totalFetched))
             (if truthy nextPageToken then nextPageToken else None))
        (fun response =>
           match response with
           | Throw e => Ret (Some (Throw e))
           | Ok response =>
               let messageIds :=
                 defined_ids (match ListMessages.messages response with
                              | Some ms => ms
                              | None => []
                              end) in
               let allMessageIds := allMessageIds ++ messageIds in
               let totalFetched :=
                 (totalFetched + Z.of_nat (length messageIds))%Z in
               let nextPageToken := ListMessages.nextPageToken response in
               Vis (LogOp LLog "Fetched ${messageIds.length} messages (total: ${totalFetched})"
                      [LNum (Z.of_nat (length messageIds)); LNum totalFetched])
                 (fun _ =>
                    if (maxMessages <=? totalFetched)%Z
                       || negb (truthy nextPageToken)
                       || (length messageIds =? 0)%nat
                    then Ret (Some (Ok allMessageIds))
                    else if truthy nextPageToken
                            && (totalFetched <? maxMessages)%Z
                    then recent_pages fuel' gmail maxMessages allMessageIds
                           nextPageToken totalFetched
                    else Ret (Some (Ok allMessageIds)))
           end)
  end.

Definition getRecentMessages_fuel (fuel : nat) (gmail : OAuth2Client)
    (maxMessages : Z) : Proc (option (result (list string))) :=
  Vis (LogOp LLog "Starting to fetch recent messages (max: ${maxMessages})"
         [LNum maxMessages])
    (fun _ =>
       pbind (recent_pages fuel gmail maxMessages [] None 0)
         (fun o =>
            match o with
            | None => Ret None
            | Some (Ok allMessageIds) =>
                Vis (LogOp LLog "Completed message fetch: ${allMessageIds.length} total messages"
                       [LNum (Z.of_nat (length allMessageIds))])
                  (fun _ => Ret (Some (Ok allMessageIds)))
            | Some (Throw error) =>
                Vis (LogOp LError "Failed to fetch recent messages:"
                       [LErr error])
                  (fun _ => Ret (Some (Ok [])))
            end)).

(** Every pass of the loop that goes on has fetched at least one more
    message and stays below the cap, so [maxMessages] passes and one are
    enough (theorem [getRecentMessages_fuel_enough]). *)
Definition recent_fuel (maxMessages : Z) : nat := S (Z.to_nat maxMessages).

Definition getRecentMessages (gmail : OAuth2Client) (maxMessages : Z)
  : M (list string) :=
  pbind (getRecentMessages_fuel (recent_fuel maxMessages) gmail maxMessages)
    (fun o =>
       match o with
       | Some r => Ret r
       | None => ret []
       end).

Definition setupGmailWatch (gmail : OAuth2Client) (token : Token.t)
  : M unit :=
  try_catch
    (response <- call (Watch gmail GOOGLE_PUBSUB_TOPIC) ;;
     if truthy response then
       call (TokenUpdateHistoryId (Token.id token) (or_else response "")) ;;
       log LLog "Gmail watch setup successful for token ${token.id}, history ID: ${historyId}"
         [LStr (Token.id token); LOpt response]
     else ret tt)
    (fun error =>
       log LError "Failed to setup Gmail watch for token ${token.id}:"
         [LStr (Token.id token); LErr error]).

(** The caps of the full listing. *)
Definition backfill_cap (isInitialSync : bool) : Z :=
  if isInitialSync then 2000 else 100.

Definition fallback_cap (isInitialSync : bool) : Z :=
  if isInitialSync then 1000 else 100.

(** [history.flatMap(h => h.messages || []).map(m => m.id).filter(...)] *)
Definition history_message_ids (historyRes : History.t) : list string :=
  defined_ids
    (flat_map (fun h => match h with
                        | Some ms => ms
                        | None => []
                        end)
       (match History.history historyRes with
        | Some hs => hs
        | None => []
        end)).

(** The incremental branch of [fetchEmails]. *)
Definition history_round (gmail : OAuth2Client) (token : Token.t)
    (historyId : string) (isInitialSync : bool) : M (list string) :=
  try_catch
    (historyRes <- call (HistoryList gmail historyId) ;;
     let messageIds := history_message_ids historyRes in
     log LLog "Found ${messageIds.length} new messages via history API"
       [LNum (Z.of_nat (length messageIds))] ;;
     (if truthy (History.historyId historyRes) then
        call (TokenUpdateHistoryId (Token.id token)
                (or_else (History.historyId historyRes) "")) ;;
        ret tt
      else ret tt) ;;
     ret messageIds)
    (fun historyError =>
       log LWarn "History API failed: ${message}, falling back to full message list"
         [LStr (message_or historyError "Unknown error")] ;;
       getRecentMessages gmail (fallback_cap isInitialSync)).

(** The full-listing branch of [fetchEmails]. *)
Definition backfill_round (gmail : OAuth2Client) (token : Token.t)
    (isInitialSync : bool) : M (list string) :=
  log LLog "No history ID found, performing initial sync" [] ;;
  messageIds <- getRecentMessages gmail (backfill_cap isInitialSync) ;;
  (if isInitialSync then setupGmailWatch gmail token else ret tt) ;;
  ret messageIds.

(** The choice between the two branches of [fetchEmails]. *)
Definition discover (gmail : OAuth2Client) (token : Token.t)
    (isInitialSync : bool) : M (list string) :=
  let historyId := Token.historyId token in
  if truthy historyId && negb isInitialSync
  then history_round gmail token (or_else historyId "") isInitialSync
  else backfill_round gmail token isInitialSync.

(** The loop of [fetchEmails] over the candidates. *)
Definition process_all (gmail : OAuth2Client) (token : Token.t)
    (messageIds : list string) : M unit :=
  forM messageIds
    (fun id =>
       let userId := if truthy (Token.userId token)
                     then Token.userId token else None in
       processMessage gmail id userId).

Definition fetchEmails (token : option Token.t) (isInitialSync : bool)
  : M unit :=
  match token with
  | None => log LWarn "No OAuth token found. Please authenticate first." []
  | Some token =>
      try_catch
        (gmail <- getAuthenticatedClient token ;;
         messageIds <- discover gmail token isInitialSync ;;
         process_all gmail token messageIds)
        (fun error =>
           let errorMessage := message_or error "Unknown error" in
           log LError "Failed to fetch emails for token ${token.id}: ${errorMessage}"
             [LStr (Token.id token); LStr errorMessage] ;;
           if includes errorMessage "unauthorized"
              || includes errorMessage "invalid_grant"
           then log LError
                  "Authentication failed for token ${token.id}. User may need to re-authenticate."
                  [LStr (Token.id token)]
           else ret tt)
  end.

(** The loop of [handleCron] and of [handlePushNotification]: a routine
    round for every token, one after the other. *)
Definition fetch_all (tokens : list Token.t) : M unit :=
  forM tokens (fun token => fetchEmails (Some token) false).

Definition handleCron : M unit :=
  log LLog "Running scheduled Gmail fetch for all users..." [] ;;
  refreshAllExpiredTokens ;;
  tokens <- call TokenFindMany ;;
  fetch_all tokens.

Context {json : Json}.

(** [message] is given by its [data] field.  [parsedData] is only
    logged: it is kept as the text it was parsed from, [None] for the
    initial empty object. *)
Definition handlePushNotification (data : option string) : M unit :=
  try_catch
    (log LLog "Received Gmail push notification" [] ;;
     parsedData <-
       (if truthy data then
          let data := utf8_toString (base64_decode (or_else data "")) in
          match JSON_parse_error data with
          | None => ret (Some data)
          | Some parseError =>
              log LWarn "Failed to parse push notification data:"
                [LErr parseError] ;;
              ret None
          end
        else ret None) ;;
     log LLog "Push notification data:" [LOpt parsedData] ;;
     tokens <- call TokenFindMany ;;
     fetch_all tokens)
    (fun error =>
       log LError "Error processing push notification:" [LErr error]).

(** ** WebhookController (src/gmail/webhook.controller.ts)

    The handler answers through [res] exactly once on every path; the
    answer, status and text, is its result here. *)
Definition handleGmailNotification (body : PubSubMessage.t)
  : M (Z * string) :=
  try_catch
    (log LLog "Received Gmail webhook notification" [] ;;
     match PubSubMessage.message body with
     | None =>
         log LWarn "Invalid webhook payload: missing message" [] ;;
         ret (HttpStatus.BAD_REQUEST, "Invalid payload")
     | Some message =>
         handlePushNotification (PubSubMessage.data message) ;;
         ret (HttpStatus.OK, "OK")
     end)
    (fun error =>
       log LError "Error handling Gmail webhook:" [LErr error] ;;
       ret (HttpStatus.INTERNAL_SERVER_ERROR, "Error processing webhook")).

End Services.

(** ** The relational store

    Prisma on the schema of prisma/schema.prisma: [Email.messageId] is
    unique, [Attachment.emailId] references [Email.id].  A create that
    breaks the unique constraint rejects with Prisma's message for it. *)

Module Store.

Record t : Type := mk {
    emails : list Email.t;
    attachments : list Attachment.t;
    tokens : list Token.t;
    next_id : nat
  }.

Definition unique_constraint_message : string :=
    "Unique constraint failed on the fields: (`messageId`)".

Definition email_findUnique (messageId : string) (s : t)
    : option Email.t :=
    find (fun e => Email.messageId e =? messageId) (emails s).

Definition email_create (data : CreateEmailDto.t) (userId : option string)
      (s : t) : result Email.t * t :=
    match email_findUnique (CreateEmailDto.messageId data) s with
    | Some _ => (Throw (Error unique_constraint_message), s)
    | None =>
        let row := Email.mk (next_id s) userId data in
        (Ok row,
         mk (emails s ++ [row]) (attachments s) (tokens s) (S (next_id s)))
    end.

Definition attachment_create (emailId : nat)
      (fileName mimeType driveLink : string) (s : t)
    : result Attachment.t * t :=
    if existsb (fun e => Email.id e =? emailId)%nat (emails s) then
      let row := Attachment.mk (next_id s) emailId fileName mimeType driveLink in
      (Ok row,
       mk (emails s) (attachments s ++ [row]) (tokens s) (S (next_id s)))
    else (Throw (Error "Foreign key constraint violated: `Attachment_emailId_fkey`"), s).

  (** [token.update({ where: { id }, data })] *)
Definition token_update (id : string) (change : Token.t -> Token.t)
      (s : t) : result Token.t * t :=
    match find (fun k => Token.id k =? id) (tokens s) with
    | Some k =>
        (Ok (change k),
         mk (emails s) (attachments s)
           (map (fun k' => if Token.id k' =? id then change k' else k')
              (tokens s))
           (next_id s))
    | None => (Throw (Error "Record to update not found."), s)
    end.

Definition set_historyId (h : string) (k : Token.t) : Token.t :=
    Token.mk (Token.id k) (Token.userId k) (Token.accessToken k)
      (Token.refreshToken k) (Token.expiryDate k) (Some h).

Definition set_credentials (accessToken : string) (expiryDate : Z)
      (refreshToken : option string) (k : Token.t) : Token.t :=
    Token.mk (Token.id k) (Token.userId k) accessToken
      (match refreshToken with
       | Some r => r
       | None => Token.refreshToken k
       end)
      expiryDate (Token.historyId k).

End Store.

(** ** The world and its handler

    The remote services (Gmail, Drive, the OAuth token endpoint), the
    clock and the availability of the database are arbitrary: [remote]
    answers every request from a state of its own, and [db_fault] may make
    any store query reject before it touches the store. *)

Class Environment : Type := {
  Remote : Type;
  remote : forall op : Op, Remote -> Resp op * Remote;
  db_fault : Op -> Remote -> option error * Remote
}.

Record World {env : Environment} : Type := mkWorld {
  store : Store.t;
  ext : Remote
}.
Arguments mkWorld {env} store ext.

Section Handler.

Context {env : Environment}.

Definition query {T : Type} (op : Op) (q : Store.t -> result T * Store.t)
    (w : World) : result T * World :=
  let (f, x) := db_fault op (ext w) in
  match f with
  | Some e => (Throw e, mkWorld (store w) x)
  | None => let (r, s) := q (store w) in (r, mkWorld s x)
  end.

Definition ask (op : Op) (w : World) : Resp op * World :=
  let (r, x) := remote op (ext w) in (r, mkWorld (store w) x).

Definition handle (op : Op) (w : World) : Resp op * World :=
  match op as o return Resp o * World with
  | EmailFindUnique m =>
      query (EmailFindUnique m)
        (fun s => (Ok (Store.email_findUnique m s), s)) w
  | EmailCreate d u =>
      query (EmailCreate d u) (Store.email_create d u) w
  | AttachmentCreate e f m l =>
      query (AttachmentCreate e f m l) (Store.attachment_create e f m l) w
  | TokenFindMany =>
      query TokenFindMany (fun s => (Ok (Store.tokens s), s)) w
  | TokenUpdateHistoryId i h =>
      query (TokenUpdateHistoryId i h)
        (Store.token_update i (Store.set_historyId h)) w
  | TokenUpdateCredentials i a e r =>
      query (TokenUpdateCredentials i a e r)
        (Store.token_update i (Store.set_credentials a e r)) w
  | LogOp _ _ _ => (tt, w)
  | RefreshAccessToken t => ask (RefreshAccessToken t) w
  | HistoryList a h => ask (HistoryList a h) w
  | MessagesList a n t => ask (MessagesList a n t) w
  | MessagesGet a i => ask (MessagesGet a i) w
  | AttachmentsGet a m i => ask (AttachmentsGet a m i) w
  | Watch a t => ask (Watch a t) w
  | DriveFilesList a q => ask (DriveFilesList a q) w
  | DriveFilesCreate a b m => ask (DriveFilesCreate a b m) w
  | DrivePermissionsCreate a f => ask (DrivePermissionsCreate a f) w
  | DateNow => ask DateNow w
  end.

(** What happened during a run: each operation with its response. *)
Inductive Event : Type :=
| Ev (op : Op) (r : Resp op).

Fixpoint run {A : Type} (p : Proc A) (w : World)
  : A * World * list Event :=
  match p with
  | Ret a => (a, w, [])
  | Vis op k =>
      let (r, w1) := handle op w in
      let '(a, w2, tr) := run (k r) w1 in
      (a, w2, Ev op r :: tr)
  end.

(** Two pipelines started together.  Control changes hands only at an
    operation; [sched] says whose operation comes next ([true]: the
    first), and once it is used up the first runs to its end, then the
    second.  Events are tagged with the pipeline they belong to. *)
Fixpoint interleave {A B : Type} (sched : list bool) (p : Proc A)
    (q : Proc B) (w : World) : A * B * World * list (bool * Event) :=
  match sched with
  | [] =>
      let '(a, w1, t1) := run p w in
      let '(b, w2, t2) := run q w1 in
      (a, b, w2, map (pair true) t1 ++ map (pair false) t2)
  | true :: sched' =>
      match p with
      | Ret _ => interleave sched' p q w
      | Vis op k =>
          let (r, w1) := handle op w in
          let '(a, b, w2, tr) := interleave sched' (k r) q w1 in
          (a, b, w2, (true, Ev op r) :: tr)
      end
  | false :: sched' =>
      match q with
      | Ret _ => interleave sched' p q w
      | Vis op k =>
          let (r, w1) := handle op w in
          let '(a, b, w2, tr) := interleave sched' p (k r) w1 in
          (a, b, w2, (false, Ev op r) :: tr)
      end
  end.

End Handler.

(** ** A concrete platform and environment

    Used to run the services on explicit mailboxes.  The remote state
    holds a mailbox, a counter for the ids Drive hands out, and switches
    that make a service fail. *)

Module Demo.

#[export] Instance platform : Platform := {|
    base64_decode := list_byte_of_string;
    utf8_toString := string_of_list_byte;
    js_Number := fun _ => None;
    js_parseInt := fun _ => None;
    GOOGLE_PUBSUB_TOPIC := Some "projects/demo/topics/gmail"
  |}.

Record remote_state : Type := mkRemote {
    mailbox : list Message.t;
    pages : list ListMessages.t;
    history : result History.t;
    watch : result (option string);
    bad_attachments : list string;
    bad_uploads : list string;
    subfolder : result (option string);
    db_down : list nat;
    clock : nat
  }.

Fixpoint tally (n : nat) : string :=
    match n with
    | O => EmptyString
    | S k => String "I" (tally k)
    end.

Definition tick (x : remote_state) : remote_state :=
    mkRemote (mailbox x) (pages x) (history x) (watch x) (bad_attachments x)
      (bad_uploads x) (subfolder x) (db_down x) (S (clock x)).

Definition next_page (x : remote_state) : remote_state :=
    mkRemote (mailbox x) (tl (pages x)) (history x) (watch x)
      (bad_attachments x) (bad_uploads x) (subfolder x) (db_down x)
      (S (clock x)).

Definition has_id (i : string) (m : Message.t) : bool :=
    match Message.id m with
    | Some j => j =? i
    | None => false
    end.

Definition answer (op : Op) (x : remote_state) : Resp op * remote_state :=
    match op as o return Resp o * remote_state with
    | EmailFindUnique _ => (Throw NonError, x)
    | EmailCreate _ _ => (Throw NonError, x)
    | AttachmentCreate _ _ _ _ => (Throw NonError, x)
    | TokenFindMany => (Throw NonError, x)
    | TokenUpdateHistoryId _ _ => (Throw NonError, x)
    | TokenUpdateCredentials _ _ _ _ => (Throw NonError, x)
    | RefreshAccessToken _ => (Throw (Error "invalid_grant"), tick x)
    | HistoryList _ _ => (history x, tick x)
    | MessagesList _ n _ =>
        (match pages x with
         | p :: _ => Ok p
         | [] => Ok (ListMessages.mk None None)
         end, next_page x)
    | MessagesGet _ i => (Ok (find (has_id i) (mailbox x)), tick x)
    | AttachmentsGet _ _ i =>
        (if existsb (String.eqb i) (bad_attachments x)
         then Throw (Error "socket hang up")
         else Ok (Some ("bytes of " ++ i)%string), tick x)
    | Watch _ _ => (watch x, tick x)
    | DriveFilesList _ _ => (Ok (Some []), tick x)
    | DriveFilesCreate _ b m =>
        (match m with
         | Some _ =>
             if existsb (String.eqb (FileMetadata.name b)) (bad_uploads x)
             then Throw (Error "quota exceeded")
             else Ok (DriveFile.mk (Some ("file-" ++ tally (clock x))%string)
                        (Some (FileMetadata.name b)) None None
                        (Some ("https://drive/" ++ FileMetadata.name b)%string) None)
         | None =>
             match FileMetadata.parents b with
             | None =>
                 Ok (DriveFile.mk (Some "root") None None None None None)
             | Some _ =>
                 match subfolder x with
                 | Ok i => Ok (DriveFile.mk i None None None None None)
                 | Throw e => Throw e
                 end
             end
         end, tick x)
    | DrivePermissionsCreate _ _ => (Ok tt, tick x)
    | DateNow => (0%Z, x)
    | LogOp _ _ _ => (tt, x)
    end.

  (** The store rejects the queries whose turn is listed in [db_down]. *)
Definition outage (op : Op) (x : remote_state)
    : option error * remote_state :=
    (if existsb (Nat.eqb (clock x)) (db_down x)
     then Some (Error "Can't reach database server") else None, tick x).

#[export] Instance environment : Environment := {|
    Remote := remote_state;
    remote := answer;
    db_fault := outage
  |}.

Definition quiet : remote_state :=
    mkRemote [] [] (Throw (Error "unused")) (Throw (Error "unused")) [] []
      (Ok (Some "sub")) [] 0.

Definition world (s : Store.t) (x : remote_state) : @World environment :=
    mkWorld s x.

  (** The same, with Drive refusing to create subfolders. *)
Definition no_subfolder : remote_state :=
    mkRemote [] [] (Throw (Error "unused")) (Throw (Error "unused")) [] []
      (Throw (Error "User rate limit exceeded")) [] 0.

  (** A mailbox listed in three pages. *)
Definition three_pages : remote_state :=
    mkRemote []
      [ListMessages.mk (Some [Some "m1"; Some "m2"]) (Some "page-2");
       ListMessages.mk (Some [Some "m3"]) (Some "page-3");
       ListMessages.mk (Some [Some "m4"]) None]
      (Throw (Error "unused")) (Throw (Error "unused")) [] []
      (Ok (Some "sub")) [] 0.

Definition gmail : OAuth2Client := mkClient "access" "refresh" 4102444800000.

Definition attachment (file : string) : AttachmentData.t :=
    AttachmentData.mk file "application/pdf" (list_byte_of_string file)
      (Z.of_nat (String.length file)).

Definition token (cursor : option string) : Token.t :=
    Token.mk "t1" (Some "u1") "access" "refresh" 4102444800000 cursor.

Definition empty_store (cursor : option string) : Store.t :=
    Store.mk [] [] [token cursor] 0.

Definition leaf (mime : string) (file : string) (body : MessagePartBody)
    : MessagePart :=
    mkPart None (Some mime) (Some file) None (Some body) None.

Definition file_part (file : string) : MessagePart :=
    leaf "application/pdf" file (mkBody (Some ("att-" ++ file)%string) (Some 10%Z) None).

Definition text_part : MessagePart :=
    leaf "text/plain" "" (mkBody None (Some 5%Z) (Some "hello")).

Definition multipart (children : list MessagePart) : MessagePart :=
    mkPart None (Some "multipart/mixed") (Some "")
      (Some [mkHeader (Some "Subject") (Some "Q4: plan?");
             mkHeader (Some "From") (Some "ann@example.org")])
      None (Some children).

Definition message (i : string) (files : list string) : Message.t :=
    Message.mk (Some i) (Some ("thread-" ++ i)%string) None
      (Some (multipart (text_part :: map file_part files))).

  (** One message in the mailbox, listed on one page; the watch answers
      cursor 900 and the history listing finds the cursor too old. *)
Definition first_sync : remote_state :=
    mkRemote [message "m1" ["a.pdf"]]
      [ListMessages.mk (Some [Some "m1"]) None]
      (Throw (Error "Requested entity was not found."))
      (Ok (Some "900")) [] [] (Ok (Some "sub")) [] 0.

End Demo.

(** * Specification-side definitions *)

Unset Implicit Arguments.

(** ** Part trees *)

(** The child parts of a part: none when the field is absent or empty. *)
Definition children (p : MessagePart) : list MessagePart :=
  match parts p with
  | Some subs => subs
  | None => []
  end.

(** The leaf parts (parts with no child parts) of a tree, depth-first and
    left to right, as the specification words it. *)
Fixpoint leaf_parts_dfs (p : MessagePart) : list MessagePart :=
  match p with
  | mkPart _ _ _ _ _ (Some ((_ :: _) as subs)) => flat_map leaf_parts_dfs subs
  | _ => [p]
  end.

(** No part of the tree carries an empty [parts] array. *)
Fixpoint no_empty_parts (p : MessagePart) : bool :=
  match p with
  | mkPart _ _ _ _ _ (Some []) => false
  | mkPart _ _ _ _ _ (Some subs) => forallb no_empty_parts subs
  | mkPart _ _ _ _ _ None => true
  end.

(** ** Induction on part trees *)

Section MessagePart_induction.

Variable P : MessagePart -> Prop.
Hypothesis P_leaf : forall i m f h b, P (mkPart i m f h b None).
Hypothesis P_node :
    forall i m f h b subs, Forall P subs -> P (mkPart i m f h b (Some subs)).

Fixpoint MessagePart_tree_ind (p : MessagePart) : P p :=
    match p with
    | mkPart i m f h b None => P_leaf i m f h b
    | mkPart i m f h b (Some subs) =>
        P_node i m f h b subs
          ((fix all (l : list MessagePart) : Forall P l :=
              match l with
              | [] => Forall_nil P
              | x :: r => Forall_cons x (MessagePart_tree_ind x) (all r)
              end) subs)
    end.

End MessagePart_induction.

(** ** The three signals of the attachment classifier *)

Definition has_content_reference (p : MessagePart) : bool :=
  truthy (body_attachmentId p).

(** The test of the code: the value of the first Content-Disposition
    header of the part contains the text [attachment]. *)
Definition disposition_includes_attachment (p : MessagePart) : bool :=
  match headers p with
  | Some hs =>
      match find is_content_disposition hs with
      | Some d =>
          match value d with
          | Some v => includes v "attachment"
          | None => false
          end
      | None => false
      end
  | None => false
  end.

(** The disposition type of a Content-Disposition value: the text before
    the first semicolon, without the white space around it and in lower
    case (the type is case-insensitive, RFC 2183). *)
Fixpoint before_semicolon (s : string) : string :=
  match s with
  | EmptyString => EmptyString
  | String c r =>
      if (nat_of_ascii c =? 59)%nat then EmptyString
      else String c (before_semicolon r)
  end.

Definition disposition_type (v : string) : string :=
  toLowerCase (JsString.trim (before_semicolon v)).

(** The signal as the specification words it: the disposition of the
    part explicitly marks it as an attachment, that is, the disposition
    type of its Content-Disposition header is [attachment]. *)
Definition disposition_marks_attachment (p : MessagePart) : bool :=
  match headers p with
  | Some hs =>
      match find is_content_disposition hs with
      | Some d =>
          match value d with
          | Some v => disposition_type v =? "attachment"
          | None => false
          end
      | None => false
      end
  | None => false
  end.

Definition has_filename_and_positive_size (p : MessagePart) : bool :=
  truthy (filename p) &&
  match body_size p with
  | Some sz => (0 <? sz)%Z
  | None => false
  end.

(** A decision list: the verdict of the first rule whose condition holds,
    [otherwise] when none does. *)
Fixpoint first_match {A : Type} (rules : list ((A -> bool) * bool))
    (otherwise : bool) (x : A) : bool :=
  match rules with
  | [] => otherwise
  | (condition, verdict) :: rest =>
      if condition x then verdict else first_match rest otherwise x
  end.

(** The rules of the code. *)
Definition classifier_rules : list ((MessagePart -> bool) * bool) :=
  [(has_content_reference, true);
   (disposition_includes_attachment, true);
   (has_filename_and_positive_size, true)].

(** The rules of the specification. *)
Definition specified_rules : list ((MessagePart -> bool) * bool) :=
  [(has_content_reference, true);
   (disposition_marks_attachment, true);
   (has_filename_and_positive_size, true)].

(** ** Properties of every execution

    [allpaths p Q]: whatever the operations answer, the trace and the
    outcome of [p] satisfy [Q]. *)
Fixpoint allpaths {A : Type} (p : Proc A) (Q : list Event -> A -> Prop)
  : Prop :=
  match p with
  | Ret a => Q [] a
  | Vis op k => forall r, allpaths (k r) (fun tr a => Q (Ev op r :: tr) a)
  end.

(** The same for one run in a world: [Q] holds of the outcome, the final
    world and the trace of [p] started in [w]. *)
Definition after {env : Environment} {A : Type} (p : Proc A) (w : World)
    (Q : A -> World -> list Event -> Prop) : Prop :=
  let '(a, w', tr) := run p w in Q a w' tr.

(** The events of one of two interleaved pipelines. *)
Fixpoint events_of (who : bool) (tr : list (bool * Event)) : list Event :=
  match tr with
  | [] => []
  | (b, e) :: rest =>
      if Bool.eqb b who then e :: events_of who rest else events_of who rest
  end.

(** ** Parts that can be downloaded *)

(** The part carries both an attachment id and a filename. *)
Definition carries_reference_and_filename (p : MessagePart) : bool :=
  truthy (body_attachmentId p) && truthy (filename p).

(** ** What a trace shows *)

(** The [parents] of every file upload requested from Drive. *)
Definition upload_target (e : Event) : list (option (list string)) :=
  match e with
  | Ev (DriveFilesCreate _ b (Some _)) _ => [FileMetadata.parents b]
  | _ => []
  end.

Definition upload_targets (tr : list Event) : list (option (list string)) :=
  flat_map upload_target tr.

(** The folders requested below a parent folder: name and parents. *)
Definition subfolder_request (e : Event) : list (string * list string) :=
  match e with
  | Ev (DriveFilesCreate _ b None) _ =>
      match FileMetadata.parents b with
      | Some ps => [(FileMetadata.name b, ps)]
      | None => []
      end
  | _ => []
  end.

Definition subfolder_requests (tr : list Event)
  : list (string * list string) :=
  flat_map subfolder_request tr.

(** The searches for a folder. *)
Definition folder_search (e : Event) : list string :=
  match e with
  | Ev (DriveFilesList _ q) _ => [q]
  | _ => []
  end.

Definition folder_searches (tr : list Event) : list string :=
  flat_map folder_search tr.

(** Where [createEmailFolder] ends up, given Drive's answer. *)
Definition subfolder_or_parent (resp : result DriveFile.t) (parent : string)
  : string :=
  match resp with
  | Ok file => or_else (DriveFile.id file) parent
  | Throw _ => parent
  end.

(** The request [createEmailFolder] sends for a subject. *)
Definition subfolder_create {platform : Platform} (auth : OAuth2Client)
    (root subject : string) : Op :=
  DriveFilesCreate auth
    (FileMetadata.mk (sanitizeFolderName subject) (Some folder_mimeType)
       (Some [root])) None.

(** ** Footprints

    The kind of an operation is the service method it calls. *)
Inductive Kind : Type :=
| KEmailFindUnique | KEmailCreate | KAttachmentCreate | KTokenFindMany
| KTokenUpdateHistoryId | KTokenUpdateCredentials | KRefreshAccessToken
| KHistoryList | KMessagesList | KMessagesGet | KAttachmentsGet | KWatch
| KDriveFilesList | KDriveFilesCreate | KDrivePermissionsCreate
| KDateNow | KLog.

Definition kind (op : Op) : Kind :=
  match op with
  | EmailFindUnique _ => KEmailFindUnique
  | EmailCreate _ _ => KEmailCreate
  | AttachmentCreate _ _ _ _ => KAttachmentCreate
  | TokenFindMany => KTokenFindMany
  | TokenUpdateHistoryId _ _ => KTokenUpdateHistoryId
  | TokenUpdateCredentials _ _ _ _ => KTokenUpdateCredentials
  | RefreshAccessToken _ => KRefreshAccessToken
  | HistoryList _ _ => KHistoryList
  | MessagesList _ _ _ => KMessagesList
  | MessagesGet _ _ => KMessagesGet
  | AttachmentsGet _ _ _ => KAttachmentsGet
  | Watch _ _ => KWatch
  | DriveFilesList _ _ => KDriveFilesList
  | DriveFilesCreate _ _ _ => KDriveFilesCreate
  | DrivePermissionsCreate _ _ => KDrivePermissionsCreate
  | DateNow => KDateNow
  | LogOp _ _ _ => KLog
  end.

Definition kind_code (k : Kind) : nat :=
  match k with
  | KEmailFindUnique => 0 | KEmailCreate => 1 | KAttachmentCreate => 2
  | KTokenFindMany => 3 | KTokenUpdateHistoryId => 4
  | KTokenUpdateCredentials => 5 | KRefreshAccessToken => 6
  | KHistoryList => 7 | KMessagesList => 8 | KMessagesGet => 9
  | KAttachmentsGet => 10 | KWatch => 11 | KDriveFilesList => 12
  | KDriveFilesCreate => 13 | KDrivePermissionsCreate => 14
  | KDateNow => 15 | KLog => 16
  end.

(** The operation is of one of the kinds listed. *)
Definition within (ks : list Kind) (op : Op) : bool :=
  existsb (fun k => Nat.eqb (kind_code k) (kind_code (kind op))) ks.

(** The requests to a remote service: Gmail, Drive, the token endpoint. *)
Definition remote_kinds : list Kind :=
  [KRefreshAccessToken; KHistoryList; KMessagesList; KMessagesGet;
   KAttachmentsGet; KWatch; KDriveFilesList; KDriveFilesCreate;
   KDrivePermissionsCreate].

(** [only ok p]: every operation [p] can ever perform satisfies [ok]. *)
Fixpoint only {A : Type} (ok : Op -> bool) (p : Proc A) : Prop :=
  match p with
  | Ret _ => True
  | Vis op k => ok op = true /\ forall r, only ok (k r)
  end.

Definition event_op (e : Event) : Op :=
  match e with
  | Ev op _ => op
  end.

(** The operations of a trace that are of the given kinds. *)
Definition events_within (ks : list Kind) (tr : list Event) : list Event :=
  filter (fun e => within ks (event_op e)) tr.

(** ** Records and uploads in a trace *)

(** The Attachment records asked of the store: file name, content type
    and link. *)
Definition attachment_request (e : Event) : list (string * string * string) :=
  match e with
  | Ev (AttachmentCreate _ f m l) _ => [(f, m, l)]
  | _ => []
  end.

Definition attachment_requests (tr : list Event)
  : list (string * string * string) :=
  flat_map attachment_request tr.

(** The trace holds a successful upload with this name, type and link:
    Drive accepted the file, returned an id for it, and accepted the
    public-read permission on that id. *)
Definition backed_by_upload (tr : list Event)
    (fileName mimeType driveLink : string) : Prop :=
  exists auth meta media file fid,
    In (Ev (DriveFilesCreate auth meta (Some media)) (Ok file)) tr /\
    DriveFile.id file = Some fid /\ fid <> "" /\
    In (Ev (DrivePermissionsCreate auth fid) (Ok tt)) tr /\
    fileName = or_else (DriveFile.name file) (FileMetadata.name meta) /\
    mimeType = or_else (DriveFile.mimeType file) (Media.mimeType media) /\
    driveLink = or_else (DriveFile.webViewLink file) "".

Definition result_backed (tr : list Event) (res : DriveUploadResult.t)
  : Prop :=
  backed_by_upload tr (DriveUploadResult.fileName res)
    (DriveUploadResult.mimeType res) (DriveUploadResult.webViewLink res).

Definition upload_fields (res : DriveUploadResult.t)
  : string * string * string :=
  (DriveUploadResult.fileName res, DriveUploadResult.mimeType res,
   DriveUploadResult.webViewLink res).

Definition row_fields (row : Attachment.t) : string * string * string :=
  (Attachment.fileName row, Attachment.mimeType row,
   Attachment.driveLink row).

(** The files given to Drive: the request body and the media of every
    upload. *)
Definition file_upload (e : Event) : list (FileMetadata.t * Media.t) :=
  match e with
  | Ev (DriveFilesCreate _ b (Some m)) _ => [(b, m)]
  | _ => []
  end.

Definition file_uploads (tr : list Event) : list (FileMetadata.t * Media.t) :=
  flat_map file_upload tr.

(** The files a public-read permission was asked for. *)
Definition permission_request (e : Event) : list string :=
  match e with
  | Ev (DrivePermissionsCreate _ f) _ => [f]
  | _ => []
  end.

Definition permission_requests (tr : list Event) : list string :=
  flat_map permission_request tr.

(** What [uploadFile] sends for an attachment and a folder. *)
Definition upload_request (a : AttachmentData.t) (folderId : option string)
  : FileMetadata.t * Media.t :=
  (FileMetadata.mk (AttachmentData.fileName a) None
     (if truthy folderId then Some [or_else folderId ""] else None),
   Media.mk (AttachmentData.mimeType a) (AttachmentData.data a)).

(** The files Drive answered the uploads with. *)
Definition uploaded_file (e : Event) : list DriveFile.t :=
  match e with
  | Ev (DriveFilesCreate _ _ (Some _)) (Ok file) => [file]
  | _ => []
  end.

Definition uploaded_files (tr : list Event) : list DriveFile.t :=
  flat_map uploaded_file tr.

(** The id of a file, when Drive returned one. *)
Definition file_id (file : DriveFile.t) : list string :=
  if truthy (DriveFile.id file) then [or_else (DriveFile.id file) ""] else [].

(** The files whose public-read permission Drive accepted. *)
Definition granted_permission (e : Event) : list string :=
  match e with
  | Ev (DrivePermissionsCreate _ f) (Ok _) => [f]
  | _ => []
  end.

Definition granted_permissions (tr : list Event) : list string :=
  flat_map granted_permission tr.

(** The values of the promises that resolved. *)
Fixpoint successes {A : Type} (l : list (result A)) : list A :=
  match l with
  | [] => []
  | Ok a :: rest => a :: successes rest
  | Throw _ :: rest => successes rest
  end.

(** [uploadFile] on each attachment of a batch in turn, whatever the
    outcome of the ones before. *)
Fixpoint upload_each {platform : Platform} {env : Environment}
    (auth : OAuth2Client) (target : string) (atts : list AttachmentData.t)
    (w : World) : list (result DriveUploadResult.t) * World :=
  match atts with
  | [] => ([], w)
  | a :: rest =>
      let '(r, w1, _) := run (uploadFile auth a (Some target)) w in
      let (rs, w2) := upload_each auth target rest w1 in
      (r :: rs, w2)
  end.

(** The footprint of [processAttachments]. *)
Definition processAttachments_kinds : list Kind :=
  [KLog; KAttachmentsGet; KTokenFindMany; KDateNow; KRefreshAccessToken;
   KTokenUpdateCredentials; KDriveFilesList; KDriveFilesCreate;
   KDrivePermissionsCreate; KEmailFindUnique; KAttachmentCreate].

(** The records the store accepted: Attachment rows by their fields,
    Message rows by their message identifier. *)
Definition stored_attachment (e : Event) : list (string * string * string) :=
  match e with
  | Ev (AttachmentCreate _ f m l) (Ok _) => [(f, m, l)]
  | _ => []
  end.

Definition stored_attachments (tr : list Event)
  : list (string * string * string) :=
  flat_map stored_attachment tr.

Definition stored_email (e : Event) : list string :=
  match e with
  | Ev (EmailCreate d _) (Ok _) => [CreateEmailDto.messageId d]
  | _ => []
  end.

Definition stored_emails (tr : list Event) : list string :=
  flat_map stored_email tr.

Definition request_backed (tr : list Event) (x : string * string * string)
  : Prop :=
  backed_by_upload tr (fst (fst x)) (snd (fst x)) (snd x).

(** Every Attachment record asked of the store during the trace goes
    with a successful upload of the trace. *)
Definition records_backed (tr : list Event) : Prop :=
  Forall (request_backed tr) (attachment_requests tr).

(** ** Batches *)

(** One pipeline after the other, each started in the world the one
    before left, whatever its outcome. *)
Fixpoint run_each {env : Environment} {A : Type} (body : A -> M unit)
    (l : list A) (w : World) : World * list Event :=
  match l with
  | [] => (w, [])
  | x :: rest =>
      let '(_, w1, t1) := run (body x) w in
      let (w2, t2) := run_each body rest w1 in
      (w2, t1 ++ t2)
  end.

(** ** Pages of the full listing *)

Definition page_ids (page : ListMessages.t) : list string :=
  defined_ids (match ListMessages.messages page with
               | Some ms => ms
               | None => []
               end).

(** Gmail returned no more messages than [maxResults] asked for. *)
Definition page_honours_maxResults (e : Event) : bool :=
  match e with
  | Ev (MessagesList _ n _) (Ok page) =>
      (Z.of_nat (length (page_ids page)) <=? Z.max 0 n)%Z
  | _ => true
  end.

Definition pages_honour_maxResults (tr : list Event) : bool :=
  forallb page_honours_maxResults tr.

(** The turns of a full listing: the page size asked for and the
    answer. *)
Definition page_turn (e : Event) : list (Z * result ListMessages.t) :=
  match e with
  | Ev (MessagesList _ n _) r => [(n, r)]
  | _ => []
  end.

Definition page_turns (tr : list Event) : list (Z * result ListMessages.t) :=
  flat_map page_turn tr.

(** The turns of a listing under a cap, [fetched] identifiers being
    there already: every turn asks for what is still missing, and for
    [batchSize] at most; the listing goes on after a page only when the
    total is still below the cap, the page names a next page and the
    page is not empty; and it ends at a failure. *)
Fixpoint listing_under (cap fetched : Z)
    (turns : list (Z * result ListMessages.t)) : Prop :=
  match turns with
  | [] => False
  | (n, answer) :: rest =>
      n = Z.min batchSize (cap - fetched) /\
      match answer with
      | Throw _ => rest = []
      | Ok page =>
          let fetched' := (fetched + Z.of_nat (length (page_ids page)))%Z in
          if (cap <=? fetched')%Z
             || negb (truthy (ListMessages.nextPageToken page))
             || (length (page_ids page) =? 0)%nat
          then rest = []
          else listing_under cap fetched' rest
      end
  end.

(** No turn failed. *)
Definition all_listed (turns : list (Z * result ListMessages.t)) : bool :=
  forallb (fun turn => match snd turn with
                       | Ok _ => true
                       | Throw _ => false
                       end) turns.

(** The identifiers of all the pages, whole, in order. *)
Definition all_page_ids (turns : list (Z * result ListMessages.t))
  : list string :=
  flat_map (fun turn => match snd turn with
                        | Ok page => page_ids page
                        | Throw _ => []
                        end) turns.

(** ** The sync cursor *)

(** The cursor the store holds for a token: [None] when there is no
    such token, [Some None] for a token without cursor. *)
Definition cursor_of (id : string) (s : Store.t) : option (option string) :=
  option_map Token.historyId
    (find (fun k => Token.id k =? id) (Store.tokens s)).

(** The cursor updates asked of the store: token and value. *)
Definition cursor_request (e : Event) : list (string * string) :=
  match e with
  | Ev (TokenUpdateHistoryId i h) _ => [(i, h)]
  | _ => []
  end.

Definition cursor_requests (tr : list Event) : list (string * string) :=
  flat_map cursor_request tr.

(** Those the store carried out. *)
Definition cursor_write (e : Event) : list (string * string) :=
  match e with
  | Ev (TokenUpdateHistoryId i h) (Ok _) => [(i, h)]
  | _ => []
  end.

Definition cursor_writes (tr : list Event) : list (string * string) :=
  flat_map cursor_write tr.

(** The cursor of a token after a sequence of writes. *)
Definition cursor_after (id : string) (writes : list (string * string))
    (before : option (option string)) : option (option string) :=
  fold_left (fun c x => if fst x =? id then Some (Some (snd x)) else c)
    writes before.

(** The answers to watch registrations. *)
Definition watch_answer (e : Event) : list (result (option string)) :=
  match e with
  | Ev (Watch _ _) r => [r]
  | _ => []
  end.

Definition watch_answers (tr : list Event) : list (result (option string)) :=
  flat_map watch_answer tr.

(** The answers to history listings. *)
Definition history_answer (e : Event) : list (result History.t) :=
  match e with
  | Ev (HistoryList _ _) r => [r]
  | _ => []
  end.

Definition history_answers (tr : list Event) : list (result History.t) :=
  flat_map history_answer tr.

(** The page sizes asked of the full listing. *)
Definition list_request (e : Event) : list Z :=
  match e with
  | Ev (MessagesList _ n _) _ => [n]
  | _ => []
  end.

Definition list_requests (tr : list Event) : list Z :=
  flat_map list_request tr.

(** The caps announced by the full listings of a trace: the number in
    the line [getRecentMessages] logs when it starts. *)
Definition listing_cap (e : Event) : list Z :=
  match e with
  | Ev (LogOp LLog template [LNum cap]) _ =>
      if template =? "Starting to fetch recent messages (max: ${maxMessages})"
      then [cap] else []
  | _ => []
  end.

Definition listing_caps (tr : list Event) : list Z :=
  flat_map listing_cap tr.

(** The footprint of [processMessage]. *)
Definition processMessage_kinds : list Kind :=
  KMessagesGet :: KEmailCreate :: processAttachments_kinds.

(** The cursor update [setupGmailWatch] asks for, given the answer to
    its registration. *)
Definition cursor_request_for (token : Token.t)
    (answer : result (option string)) : list (string * string) :=
  match answer with
  | Ok (Some h) => if h =? "" then [] else [(Token.id token, h)]
  | _ => []
  end.

(** The operations of the sync cursor controller. *)
Definition sync_kinds : list Kind :=
  [KHistoryList; KMessagesList; KWatch; KTokenUpdateHistoryId].

(** [tr] and [a] are the trace and the outcome of an execution of [p]. *)
Definition possible {A : Type} (p : Proc A) (tr : list Event) (a : A)
  : Prop :=
  forall Q : list Event -> A -> Prop, allpaths p Q -> Q tr a.

(** The sync operations of a round without a cursor. *)
Definition backfill_sync (token : Token.t) (isInitialSync : bool)
    (tr : list Event) : Prop :=
  history_answers tr = [] /\
  if isInitialSync
  then (watch_answers tr = [] /\ cursor_requests tr = []) \/
       (list_requests tr <> [] /\
        exists a, watch_answers tr = [a] /\
                  cursor_requests tr = cursor_request_for token a)
  else watch_answers tr = [] /\ cursor_requests tr = [].



(** ** Idempotent ingestion *)

(** The unique constraint on [Email.messageId]. *)
Definition unique_message_ids (s : Store.t) : Prop :=
  NoDup (map Email.messageId (Store.emails s)).

(** The number of Message records with a message identifier. *)
Definition email_count (messageId : string) (s : Store.t) : nat :=
  count_occ string_dec (map Email.messageId (Store.emails s)) messageId.

(** [tr] is a sequence of operations answered by the handler, leading
    from world [w] to world [w']. *)
Fixpoint replay {env : Environment} (tr : list Event) (w w' : World)
  : Prop :=
  match tr with
  | [] => w' = w
  | Ev op r :: rest =>
      fst (handle op w) = r /\ replay rest (snd (handle op w)) w'
  end.

(** The operations of attachment processing that the pipeline does not
    use before it creates the Message record. *)
Definition attachment_kinds : list Kind :=
  [KAttachmentsGet; KTokenFindMany; KRefreshAccessToken;
   KTokenUpdateCredentials; KDriveFilesList; KDriveFilesCreate;
   KDrivePermissionsCreate; KAttachmentCreate].

(** A pipeline touches attachments only once it has created its Message
    record. *)
Definition attachments_after_create (tr : list Event) : Prop :=
  stored_emails tr = [] -> events_within attachment_kinds tr = [].

(** * Further specification-side definitions *)

(** ** Strings *)

(** [s] is [t] with some characters dropped. *)
Inductive Subseq : string -> string -> Prop :=
| Subseq_nil : Subseq "" ""
| Subseq_skip (c : ascii) (s t : string) :
    Subseq s t -> Subseq s (String c t)
| Subseq_keep (c : ascii) (s t : string) :
    Subseq s t -> Subseq (String c s) (String c t).

(** Every character of the string passes the test. *)
Fixpoint all_chars (f : ascii -> bool) (s : string) : bool :=
  match s with
  | EmptyString => true
  | String c r => f c && all_chars f r
  end.

(** The string does not begin with white space. *)
Definition starts_clean (s : string) : bool :=
  match s with
  | EmptyString => true
  | String c _ => negb (JsString.is_whitespace c)
  end.

(** ** Drive requests in a trace *)

(** The folders asked of Drive: a create without media. *)
Definition folder_create (e : Event) : list FileMetadata.t :=
  match e with
  | Ev (DriveFilesCreate _ b None) _ => [b]
  | _ => []
  end.

Definition folder_creates (tr : list Event) : list FileMetadata.t :=
  flat_map folder_create tr.

(** The answers to folder searches. *)
Definition folder_search_answer (e : Event)
  : list (result (option (list DriveFile.t))) :=
  match e with
  | Ev (DriveFilesList _ _) r => [r]
  | _ => []
  end.

Definition folder_search_answers (tr : list Event)
  : list (result (option (list DriveFile.t))) :=
  flat_map folder_search_answer tr.

(** The folder a search answer offers for reuse: the first hit, when it
    has an id. *)
Definition reusable_folder (files : option (list DriveFile.t))
  : option string :=
  match files with
  | Some (first :: _) =>
      if truthy (DriveFile.id first) then DriveFile.id first else None
  | _ => None
  end.

(** The request for the root folder. *)
Definition root_folder : FileMetadata.t :=
  FileMetadata.mk attachments_folder_name (Some folder_mimeType) None.

(** ** Token operations in a trace *)

(** The refresh tokens sent to the token endpoint. *)
Definition refresh_request (e : Event) : list string :=
  match e with
  | Ev (RefreshAccessToken rt) _ => [rt]
  | _ => []
  end.

Definition refresh_requests (tr : list Event) : list string :=
  flat_map refresh_request tr.

(** The readings of the clock. *)
Definition clock_answer (e : Event) : list Z :=
  match e with
  | Ev DateNow now => [now]
  | _ => []
  end.

Definition clock_answers (tr : list Event) : list Z :=
  flat_map clock_answer tr.

(** The answers to [token.findMany()]. *)
Definition token_listing (e : Event) : list (result (list Token.t)) :=
  match e with
  | Ev TokenFindMany r => [r]
  | _ => []
  end.

Definition token_listings (tr : list Event) : list (result (list Token.t)) :=
  flat_map token_listing tr.


(** The row of the store with this token id. *)
Definition token_row (id : string) (s : Store.t) : option Token.t :=
  find (fun k => Token.id k =? id) (Store.tokens s).

(** The tokens among [tokens] that are expired, each at the reading of
    the clock taken for it. *)
Fixpoint expired_among (tokens : list Token.t) (nows : list Z)
  : list Token.t :=
  match tokens, nows with
  | token :: tokens', now :: nows' =>
      if isTokenExpired token now
      then token :: expired_among tokens' nows'
      else expired_among tokens' nows'
  | _, _ => []
  end.

(** ** Kinds of rounds *)

Definition listing_start : string :=
  "Starting to fetch recent messages (max: ${maxMessages})".

(** An operation that is none of the sync controller's: no watch
    registration, no history listing, no announcement of a full
    listing. *)
Definition plain_op (op : Op) : bool :=
  match op with
  | Watch _ _ => false
  | HistoryList _ _ => false
  | LogOp LLog template [LNum _] => negb (template =? listing_start)
  | _ => true
  end.

(** An operation a round may perform.  A routine round registers no
    watch and announces full listings of at most 100 messages; an initial
    sync asks for no history and announces full listings of at most 2000
    messages. *)
Definition round_op (initial : bool) (op : Op) : bool :=
  match op with
  | Watch _ _ => initial
  | HistoryList _ _ => negb initial
  | LogOp LLog template [LNum cap] =>
      if template =? listing_start
      then (cap =? (if initial then 2000 else 100))%Z
      else true
  | _ => true
  end.

(** The round [handleCron] and [handlePushNotification] run for a
    token. *)
Definition routine_round {platform : Platform} (token : Token.t) : M unit :=
  fetchEmails (Some token) false.

(** A trace without its log lines. *)
Definition without_logs (tr : list Event) : list Event :=
  filter (fun e => negb (within [KLog] (event_op e))) tr.

(** * Theorems *)

(** ** The part-tree flattener *)

Lemma extractParts_loop_flat_map (subs acc : list MessagePart) :
  (fix loop (rest : list MessagePart) (allParts : list MessagePart)
     : list MessagePart :=
     match rest with
     | [] => allParts
     | subPart :: rest' => loop rest' (allParts ++ extractParts subPart)
     end) subs acc = acc ++ flat_map extractParts subs.
Proof.
  revert acc. induction subs as [|x subs IH]; intros acc; simpl.
  - now rewrite app_nil_r.
  - rewrite IH. now rewrite app_assoc.
Qed.

Lemma extractParts_node i m f h b subs :
  extractParts (mkPart i m f h b (Some subs)) = flat_map extractParts subs.
Proof.
  simpl. now rewrite extractParts_loop_flat_map.
Qed.

Lemma extractParts_fieldless (p : MessagePart) :
  Forall (fun q => parts q = None) (extractParts p).
Proof.
  induction p as [i m f h b | i m f h b subs IH] using MessagePart_tree_ind.
  - simpl. constructor; [reflexivity | constructor].
  - rewrite extractParts_node.
    induction IH as [|x l Hx _ IHl]; simpl.
    + constructor.
    + apply Forall_app. split; assumption.
Qed.

Lemma extractParts_leaf_parts (p : MessagePart) :
  no_empty_parts p = true -> extractParts p = leaf_parts_dfs p.
Proof.
  induction p as [i m f h b | i m f h b subs IH] using MessagePart_tree_ind.
  - reflexivity.
  - intros Hne. rewrite extractParts_node.
    destruct subs as [|s subs]; [discriminate|].
    change (leaf_parts_dfs (mkPart i m f h b (Some (s :: subs))))
      with (flat_map leaf_parts_dfs (s :: subs)).
    change (no_empty_parts (mkPart i m f h b (Some (s :: subs))))
      with (forallb no_empty_parts (s :: subs)) in Hne.
    revert Hne IH. generalize (s :: subs) as l. clear s subs.
    intros l Hne IH. revert Hne. induction IH as [|x l Hx _ IHl]; simpl; intros Hne.
    + reflexivity.
    + apply andb_true_iff in Hne. destruct Hne as [H1 H2].
      now rewrite Hx, IHl.
Qed.

(** C4, as the code has it.  The flattener lists, depth-first and left to
    right, the parts that carry no [parts] field: such a part yields
    itself, a part with a [parts] array yields the concatenation of the
    results of its children in order, and nothing else is ever listed.
    On a tree without an empty [parts] array this is the list of leaf
    parts. *)
Theorem extractParts_lists_fieldless_parts (p : MessagePart) :
  (parts p = None -> extractParts p = [p]) /\
  (forall subs, parts p = Some subs ->
     extractParts p = flat_map extractParts subs) /\
  Forall (fun q => parts q = None) (extractParts p) /\
  (no_empty_parts p = true -> extractParts p = leaf_parts_dfs p).
Proof.
  repeat split.
  - destruct p as [i m f h b [subs|]]; simpl; intros H;
      [discriminate | reflexivity].
  - intros subs H. destruct p as [i m f h b o]. simpl in H. subst o.
    apply extractParts_node.
  - apply extractParts_fieldless.
  - apply extractParts_leaf_parts.
Qed.

Lemma extractParts_lists_fieldless_parts_witness :
  let p := Demo.multipart
             [Demo.text_part;
              Demo.multipart [Demo.file_part "a.pdf"; Demo.file_part "b.pdf"]] in
  no_empty_parts p = true /\
  extractParts p = leaf_parts_dfs p /\
  extractParts Demo.text_part = [Demo.text_part].
Proof.
  intros p.
  split; [reflexivity|].
  split.
  - apply (extractParts_lists_fieldless_parts p). reflexivity.
  - apply (extractParts_lists_fieldless_parts Demo.text_part). reflexivity.
Defined.

(** C4 as stated fails on a part whose [parts] array is present and
    empty: it has no children, so it is a leaf, and it is not listed. *)
Lemma extractParts_empty_parts_array :
  let p := mkPart None (Some "multipart/mixed") None None None (Some []) in
  children p = [] /\
  leaf_parts_dfs p = [p] /\
  extractParts p = [] /\
  extractParts p <> leaf_parts_dfs p.
Proof.
  repeat split. discriminate.
Qed.

(** ** The attachment classifier *)

Lemma positive_size_test (sz : Z) :
  (negb (sz =? 0) && (0 <? sz))%Z = (0 <? sz)%Z.
Proof.
  destruct (Z.ltb_spec 0 sz) as [H|H].
  - rewrite andb_true_r. apply negb_true_iff. apply Z.eqb_neq. lia.
  - apply andb_false_r.
Qed.

Lemma isAttachment_decision_list (p : MessagePart) :
  isAttachment p = first_match classifier_rules false p.
Proof.
  unfold isAttachment, classifier_rules, first_match,
    has_content_reference, disposition_includes_attachment,
    has_filename_and_positive_size.
  destruct (truthy (body_attachmentId p)); [reflexivity|].
  assert (E : (truthy (filename p) &&
               match body_size p with
               | Some sz => negb (sz =? 0)%Z && (0 <? sz)%Z
               | None => false
               end) =
              (if truthy (filename p) &&
                  match body_size p with
                  | Some sz => (0 <? sz)%Z
                  | None => false
                  end then true else false)).
  { destruct (body_size p) as [sz|].
    - rewrite positive_size_test.
      now destruct (truthy (filename p) && (0 <? sz)%Z).
    - now rewrite andb_false_r. }
  destruct (headers p) as [hs|]; [|exact E].
  destruct (find is_content_disposition hs) as [d|]; [|exact E].
  destruct (value d) as [v|]; [|exact E].
  destruct (includes v "attachment"); [reflexivity | exact E].
Qed.

Lemma includes_prefix (s sub : string) :
  String.prefix sub s = true -> includes s sub = true.
Proof.
  intros H. destruct s as [|c r].
  - change (includes "" sub)
      with (if String.prefix sub "" then true else false).
    now rewrite H.
  - change (includes (String c r) sub)
      with (if String.prefix sub (String c r) then true
            else includes r sub).
    now rewrite H.
Qed.

(** C3, as the code has it.  The classifier is the decision list of
    three signals in their priority order, with inline as the default: a
    content reference; a first Content-Disposition header whose value
    contains the text [attachment]; a filename with a positive size.  In
    particular a content reference alone decides for attachment, a
    filename with a positive size alone does, and a part with none of
    these signals is inline.  The second signal holds in particular when
    the value begins with [attachment].  It is not the disposition type
    of the specification, but the classifier decides as the rules of the
    specification do on every part where the two agree, and they agree
    on every part without a Content-Disposition header. *)
Theorem isAttachment_first_matching_rule (p : MessagePart) :
  isAttachment p = first_match classifier_rules false p /\
  (forall hs d v,
     headers p = Some hs -> find is_content_disposition hs = Some d ->
     value d = Some v -> String.prefix "attachment" v = true ->
     disposition_includes_attachment p = true) /\
  (has_content_reference p = true -> isAttachment p = true) /\
  (has_content_reference p = false ->
   disposition_includes_attachment p = true -> isAttachment p = true) /\
  (has_content_reference p = false ->
   disposition_includes_attachment p = false ->
   has_filename_and_positive_size p = true -> isAttachment p = true) /\
  (has_content_reference p = false ->
   disposition_includes_attachment p = false ->
   has_filename_and_positive_size p = false -> isAttachment p = false) /\
  (disposition_includes_attachment p = disposition_marks_attachment p ->
   isAttachment p = first_match specified_rules false p) /\
  ((forall hs, headers p = Some hs ->
               find is_content_disposition hs = None) ->
   disposition_includes_attachment p = false /\
   disposition_marks_attachment p = false).
Proof.
  rewrite isAttachment_decision_list.
  unfold classifier_rules, specified_rules, first_match.
  split; [reflexivity|]. split.
  { intros hs d v Hh Hd Hv Hp. unfold disposition_includes_attachment.
    rewrite Hh, Hd, Hv. now apply includes_prefix. }
  split; [intros ->; reflexivity|].
  split; [intros -> ->; reflexivity|].
  split; [intros -> -> ->; reflexivity|].
  split; [intros -> -> ->; reflexivity|].
  split.
  - intros ->. reflexivity.
  - intros H.
    unfold disposition_includes_attachment, disposition_marks_attachment.
    destruct (headers p) as [hs|]; [|now split].
    rewrite (H hs eq_refl). now split.
Qed.

(** C3 as stated fails on the disposition rule.  A part whose only
    signal is the header [inline; filename=attachment.png] is inline by
    the rules of the specification, its disposition type being [inline],
    and an attachment for the code, which finds the text [attachment] in
    the value.  A part whose header is [Attachment; filename=x] is marked
    as an attachment by its disposition type and is inline for the code,
    whose test is case-sensitive. *)
Lemma isAttachment_tests_a_substring :
  let named_like_one :=
    mkPart None (Some "image/png") None
      (Some [mkHeader (Some "Content-Disposition")
               (Some "inline; filename=attachment.png")])
      None None in
  let capitalised :=
    mkPart None (Some "application/pdf") None
      (Some [mkHeader (Some "Content-Disposition")
               (Some "Attachment; filename=x")])
      None None in
  (has_content_reference named_like_one = false /\
   disposition_marks_attachment named_like_one = false /\
   has_filename_and_positive_size named_like_one = false /\
   first_match specified_rules false named_like_one = false /\
   isAttachment named_like_one = true) /\
  (has_content_reference capitalised = false /\
   disposition_marks_attachment capitalised = true /\
   first_match specified_rules false capitalised = true /\
   isAttachment capitalised = false).
Proof. vm_compute. repeat split. Qed.

Lemma isAttachment_first_matching_rule_witness :
  let by_reference :=
    mkPart None None None
      (Some [mkHeader (Some "Content-Disposition") (Some "inline")])
      (Some (mkBody (Some "ANGjdJ8") None None)) None in
  let by_disposition :=
    mkPart None None None
      (Some [mkHeader (Some "content-disposition")
               (Some "attachment; filename=x")])
      None None in
  let by_name_and_size :=
    mkPart None None (Some "x.bin") None
      (Some (mkBody None (Some 3%Z) None)) None in
  let plain :=
    mkPart None (Some "text/plain") (Some "") None
      (Some (mkBody None (Some 3%Z) (Some "aGk="))) None in
  isAttachment by_reference = true /\
  isAttachment by_disposition = true /\
  isAttachment by_name_and_size = true /\
  isAttachment plain = false.
Proof.
  intros r d n q.
  destruct (isAttachment_first_matching_rule r) as (_ & _ & Hr & _).
  destruct (isAttachment_first_matching_rule d) as (_ & Hm & _ & Hd & _).
  destruct (isAttachment_first_matching_rule n) as (_ & _ & _ & _ & Hn & _).
  destruct (isAttachment_first_matching_rule q)
    as (_ & _ & _ & _ & _ & Hq & _).
  split; [apply Hr; reflexivity|].
  split; [apply Hd; [reflexivity|];
          apply (Hm _ _ _ eq_refl eq_refl eq_refl); reflexivity|].
  split; [apply Hn; reflexivity|].
  apply Hq; reflexivity.
Defined.

(** ** Runs of composed programs *)

Section Runs.

Context {env : Environment}.

Lemma run_pbind {A B : Type} (p : Proc A) (f : A -> Proc B) (w : World) :
    run (pbind p f) w =
    let '(a, w1, t1) := run p w in
    let '(b, w2, t2) := run (f a) w1 in
    (b, w2, t1 ++ t2).
  Proof.
    revert w. induction p as [a | op k IH]; intros w; simpl.
    - destruct (run (f a) w) as [[b w2] t2]. reflexivity.
    - destruct (handle op w) as [r w1]. rewrite IH.
      destruct (run (k r) w1) as [[a w2] t1].
      destruct (run (f a) w2) as [[b w3] t2]. reflexivity.
  Qed.

Lemma run_mbind {A B : Type} (p : M A) (f : A -> M B) (w : World) :
    run (mbind p f) w =
    let '(r, w1, t1) := run p w in
    match r with
    | Ok a => let '(b, w2, t2) := run (f a) w1 in (b, w2, t1 ++ t2)
    | Throw e => (Throw e, w1, t1)
    end.
  Proof.
    unfold mbind. rewrite run_pbind.
    destruct (run p w) as [[[a|e] w1] t1]; simpl.
    - reflexivity.
    - now rewrite app_nil_r.
  Qed.

Lemma run_try_catch {A : Type} (p : M A) (h : error -> M A) (w : World) :
    run (try_catch p h) w =
    let '(r, w1, t1) := run p w in
    match r with
    | Ok a => (Ok a, w1, t1)
    | Throw e => let '(b, w2, t2) := run (h e) w1 in (b, w2, t1 ++ t2)
    end.
  Proof.
    unfold try_catch. rewrite run_pbind.
    destruct (run p w) as [[[a|e] w1] t1]; simpl.
    - now rewrite app_nil_r.
    - reflexivity.
  Qed.

Lemma run_log (level : LogLevel) (template : string) (args : list LogArg)
      (w : World) :
    run (log level template args) w =
    (Ok tt, w, [Ev (LogOp level template args) tt]).
  Proof. reflexivity. Qed.

Lemma after_ret {A : Type} (a : A) (w : World)
      (Q : A -> World -> list Event -> Prop) :
    Q a w [] -> after (Ret a) w Q.
  Proof. trivial. Qed.

Lemma after_weaken {A : Type} (p : Proc A) (w : World)
      (Q Q' : A -> World -> list Event -> Prop) :
    (forall a w' tr, Q a w' tr -> Q' a w' tr) -> after p w Q -> after p w Q'.
  Proof.
    unfold after. destruct (run p w) as [[a w'] tr]. intros H. apply H.
  Qed.

Lemma after_conj {A : Type} (p : Proc A) (w : World)
      (Q Q' : A -> World -> list Event -> Prop) :
    after p w Q -> after p w Q' ->
    after p w (fun a w' tr => Q a w' tr /\ Q' a w' tr).
  Proof.
    unfold after. destruct (run p w) as [[a w'] tr]. now split.
  Qed.

Lemma after_pbind {A B : Type} (p : Proc A) (f : A -> Proc B) (w : World)
      (Q : B -> World -> list Event -> Prop) :
    after p w (fun a w1 t1 =>
                 after (f a) w1 (fun b w2 t2 => Q b w2 (t1 ++ t2))) ->
    after (pbind p f) w Q.
  Proof.
    unfold after. rewrite run_pbind.
    destruct (run p w) as [[a w1] t1].
    destruct (run (f a) w1) as [[b w2] t2]. trivial.
  Qed.

Lemma after_mbind {A B : Type} (p : M A) (f : A -> M B) (w : World)
      (Q : result B -> World -> list Event -> Prop) :
    after p w (fun r w1 t1 =>
                 match r with
                 | Ok a => after (f a) w1 (fun b w2 t2 => Q b w2 (t1 ++ t2))
                 | Throw e => Q (Throw e) w1 t1
                 end) ->
    after (mbind p f) w Q.
  Proof.
    unfold after. rewrite run_mbind.
    destruct (run p w) as [[[a|e] w1] t1]; [|trivial].
    destruct (run (f a) w1) as [[b w2] t2]. trivial.
  Qed.

Lemma after_try_catch {A : Type} (p : M A) (h : error -> M A) (w : World)
      (Q : result A -> World -> list Event -> Prop) :
    after p w (fun r w1 t1 =>
                 match r with
                 | Ok a => Q (Ok a) w1 t1
                 | Throw e => after (h e) w1 (fun b w2 t2 => Q b w2 (t1 ++ t2))
                 end) ->
    after (try_catch p h) w Q.
  Proof.
    unfold after. rewrite run_try_catch.
    destruct (run p w) as [[[a|e] w1] t1]; [trivial|].
    destruct (run (h e) w1) as [[b w2] t2]. trivial.
  Qed.

Lemma after_vis {A : Type} (op : Op) (k : Resp op -> Proc A) (w : World)
      (Q : A -> World -> list Event -> Prop) :
    after (k (fst (handle op w))) (snd (handle op w))
      (fun a w' tr => Q a w' (Ev op (fst (handle op w)) :: tr)) ->
    after (Vis op k) w Q.
  Proof.
    unfold after. simpl. destruct (handle op w) as [r w1]. simpl.
    destruct (run (k r) w1) as [[a w2] tr]. trivial.
  Qed.

Lemma after_log {A : Type} (level : LogLevel) (template : string)
      (args : list LogArg) (k : unit -> M A) (w : World)
      (Q : result A -> World -> list Event -> Prop) :
    after (k tt) w
      (fun a w' tr => Q a w' (Ev (LogOp level template args) tt :: tr)) ->
    after (mbind (log level template args) k) w Q.
  Proof.
    intros H. apply after_mbind. unfold after. simpl. exact H.
  Qed.

  (** A property of every execution holds of the run in any world. *)
Lemma after_allpaths {A : Type} (p : Proc A) (w : World)
      (P : list Event -> A -> Prop) :
    allpaths p P -> after p w (fun a _ tr => P tr a).
  Proof.
    revert P w. induction p as [a | op k IH]; intros P w H.
    - exact H.
    - apply after_vis. apply IH. apply H.
  Qed.

End Runs.

(** ** Properties of every execution *)

Lemma allpaths_weaken {A : Type} (p : Proc A)
    (Q Q' : list Event -> A -> Prop) :
  (forall tr a, Q tr a -> Q' tr a) -> allpaths p Q -> allpaths p Q'.
Proof.
  revert Q Q'. induction p as [a | op k IH]; simpl; intros Q Q' HQ H.
  - now apply HQ.
  - intros r. eapply IH; [|apply H]. intros tr a. apply HQ.
Qed.

Lemma allpaths_pbind {A B : Type} (p : Proc A) (f : A -> Proc B)
    (Q : list Event -> B -> Prop) :
  allpaths p (fun t1 a => allpaths (f a) (fun t2 b => Q (t1 ++ t2) b)) ->
  allpaths (pbind p f) Q.
Proof.
  revert Q. induction p as [a | op k IH]; simpl; intros Q H.
  - exact H.
  - intros r. apply IH. exact (H r).
Qed.

Lemma allpaths_mbind {A B : Type} (p : M A) (f : A -> M B)
    (Q : list Event -> result B -> Prop) :
  allpaths p (fun t1 r =>
                match r with
                | Ok a => allpaths (f a) (fun t2 b => Q (t1 ++ t2) b)
                | Throw e => Q t1 (Throw e)
                end) ->
  allpaths (mbind p f) Q.
Proof.
  intros H. apply allpaths_pbind.
  eapply allpaths_weaken; [|exact H].
  intros tr [a|e]; simpl; [trivial|].
  now rewrite app_nil_r.
Qed.

Lemma allpaths_try_catch {A : Type} (p : M A) (h : error -> M A)
    (Q : list Event -> result A -> Prop) :
  allpaths p (fun t1 r =>
                match r with
                | Ok a => Q t1 (Ok a)
                | Throw e => allpaths (h e) (fun t2 b => Q (t1 ++ t2) b)
                end) ->
  allpaths (try_catch p h) Q.
Proof.
  intros H. apply allpaths_pbind.
  eapply allpaths_weaken; [|exact H].
  intros tr [a|e]; simpl; [|trivial].
  now rewrite app_nil_r.
Qed.

Lemma allpaths_log {A : Type} (level : LogLevel) (template : string)
    (args : list LogArg) (k : unit -> M A)
    (Q : list Event -> result A -> Prop) :
  allpaths (k tt)
    (fun tr a => Q (Ev (LogOp level template args) tt :: tr) a) ->
  allpaths (mbind (log level template args) k) Q.
Proof. intros H. simpl. intros []. exact H. Qed.

Lemma allpaths_run {env : Environment} {A : Type} (p : Proc A)
    (Q : list Event -> A -> Prop) (w : World) :
  allpaths p Q -> Q (snd (run p w)) (fst (fst (run p w))).
Proof.
  revert Q w. induction p as [a | op k IH]; simpl; intros Q w H.
  - exact H.
  - destruct (handle op w) as [r w1].
    specialize (IH r _ w1 (H r)).
    destruct (run (k r) w1) as [[a w2] tr]. exact IH.
Qed.

Lemma allpaths_interleave {env : Environment} {A B : Type}
    (sched : list bool) (p : Proc A) (q : Proc B)
    (Q : list Event -> A -> Prop) (Q' : list Event -> B -> Prop)
    (w : World) :
  allpaths p Q -> allpaths q Q' ->
  let '(a, b, _, tr) := interleave sched p q w in
  Q (events_of true tr) a /\ Q' (events_of false tr) b.
Proof.
  revert p q Q Q' w.
  induction sched as [|c sched IH]; intros p q Q Q' w Hp Hq.
  - simpl.
    pose proof (allpaths_run p Q w Hp) as H1.
    destruct (run p w) as [[a w1] t1].
    pose proof (allpaths_run q Q' w1 Hq) as H2.
    destruct (run q w1) as [[b w2] t2]. simpl in H1, H2.
    assert (E1 : forall t t', events_of true
                   (map (pair true) t ++ map (pair false) t') = t).
    { induction t as [|e t IHt]; intros t'; simpl.
      - induction t' as [|e' t' IHt']; simpl; [reflexivity | exact IHt'].
      - now rewrite IHt. }
    assert (E2 : forall t t', events_of false
                   (map (pair true) t ++ map (pair false) t') = t').
    { induction t as [|e t IHt]; intros t'; simpl.
      - induction t' as [|e' t' IHt']; simpl; [reflexivity | now rewrite IHt'].
      - apply IHt. }
    rewrite E1, E2. split; assumption.
  - destruct c; simpl.
    + destruct p as [a | op k].
      * apply IH; assumption.
      * destruct (handle op w) as [r w1].
        specialize (IH (k r) q _ Q' w1 (Hp r) Hq).
        destruct (interleave sched (k r) q w1) as [[[a b] w2] tr].
        simpl. exact IH.
    + destruct q as [b | op k].
      * apply IH; assumption.
      * destruct (handle op w) as [r w1].
        specialize (IH p (k r) Q _ w1 Hp (Hq r)).
        destruct (interleave sched p (k r) w1) as [[[a b] w2] tr].
        simpl. exact IH.
Qed.

Lemma allpaths_foldM_invariant {A S : Type} (body : S -> A -> M S)
    (I : S -> Prop) (l : list A) (s0 : S) :
  (forall s x, In x l -> I s ->
     allpaths (body s x)
       (fun _ r => match r with Ok s' => I s' | Throw _ => False end)) ->
  I s0 ->
  allpaths (foldM body l s0)
    (fun _ r => match r with Ok s => I s | Throw _ => False end).
Proof.
  revert s0. induction l as [|x l IH]; intros s0 Hbody H0; simpl.
  - exact H0.
  - apply allpaths_mbind.
    eapply allpaths_weaken; [|apply (Hbody s0 x); [now left | exact H0]].
    intros tr [s'|e] Hs'; [|contradiction].
    eapply allpaths_weaken; [|apply IH].
    + intros tr' r Hr. exact Hr.
    + intros s x' Hin. apply Hbody. now right.
    + exact Hs'.
Qed.

(** A loop over pipelines that never throw runs every one of them. *)
Lemma run_forM_each {env : Environment} {A : Type} (body : A -> M unit)
    (l : list A) (w : World) :
  (forall x, allpaths (body x) (fun _ r => r = Ok tt)) ->
  run (forM l body) w = (Ok tt, fst (run_each body l w),
                         snd (run_each body l w)).
Proof.
  intros Hbody. unfold forM. revert w.
  induction l as [|x l IH]; intros w.
  - reflexivity.
  - cbn [foldM run_each]. rewrite run_mbind.
    pose proof (allpaths_run (body x) _ w (Hbody x)) as Hx.
    destruct (run (body x) w) as [[r w1] t1]. simpl in Hx. subst r.
    rewrite IH. destruct (run_each body l w1) as [w2 t2]. reflexivity.
Qed.

(** ** Downloading attachments *)

Section Download.

Context {platform : Platform}.

Lemma downloadAttachment_null (gmail : OAuth2Client)
      (messageId : option string) (part : MessagePart) :
    carries_reference_and_filename part = false ->
    downloadAttachment gmail messageId part = ret None.
  Proof.
    unfold carries_reference_and_filename, downloadAttachment. intros H.
    replace (negb (truthy (body_attachmentId part))
             || negb (truthy (filename part))) with true.
    - reflexivity.
    - rewrite <- negb_andb, H. reflexivity.
  Qed.

Lemma extract_one_skips (gmail : OAuth2Client) (messageId : option string)
      (acc : list AttachmentData.t) (part : MessagePart) :
    carries_reference_and_filename part = false ->
    extract_one gmail messageId acc part = ret acc.
  Proof.
    intros H. unfold extract_one.
    destruct (isAttachment part); [|reflexivity].
    rewrite (downloadAttachment_null gmail messageId part H). reflexivity.
  Qed.

Lemma extract_loop_filter {env : Environment} (gmail : OAuth2Client)
      (messageId : option string) (ps : list MessagePart)
      (acc : list AttachmentData.t) (w : World) :
    run (foldM (extract_one gmail messageId) ps acc) w =
    run (foldM (extract_one gmail messageId)
           (filter carries_reference_and_filename ps) acc) w.
  Proof.
    revert acc w. induction ps as [|p ps IH]; intros acc w.
    - reflexivity.
    - simpl filter.
      destruct (carries_reference_and_filename p) eqn:Hp.
      + simpl foldM. rewrite !run_mbind.
        destruct (run (extract_one gmail messageId acc p) w)
          as [[[acc'|e] w1] t1]; [|reflexivity].
        now rewrite IH.
      + simpl foldM. rewrite (extract_one_skips gmail messageId acc p Hp).
        apply IH.
  Qed.

Lemma downloadAttachment_outcome (gmail : OAuth2Client)
      (messageId : option string) (part : MessagePart) :
    allpaths (downloadAttachment gmail messageId part)
      (fun _ r =>
         match r with
         | Ok (Some d) =>
             carries_reference_and_filename part = true /\
             AttachmentData.fileName d = or_else (filename part) ""
         | Ok None => True
         | Throw _ => False
         end).
  Proof.
    unfold downloadAttachment, carries_reference_and_filename.
    destruct (truthy (body_attachmentId part));
      destruct (truthy (filename part)); simpl; trivial.
    intros [resp|e]; simpl.
    - destruct (truthy resp); simpl; [now split | trivial].
    - trivial.
  Qed.

Lemma extract_one_outcome (gmail : OAuth2Client)
      (messageId : option string) (I : AttachmentData.t -> Prop)
      (acc : list AttachmentData.t) (part : MessagePart) :
    (forall d, carries_reference_and_filename part = true ->
               AttachmentData.fileName d = or_else (filename part) "" ->
               I d) ->
    Forall I acc ->
    allpaths (extract_one gmail messageId acc part)
      (fun _ r => match r with
                  | Ok acc' => Forall I acc'
                  | Throw _ => False
                  end).
  Proof.
    intros HI Hacc. unfold extract_one.
    destruct (isAttachment part); [|exact Hacc].
    apply allpaths_try_catch. apply allpaths_mbind.
    eapply allpaths_weaken; [|apply downloadAttachment_outcome].
    intros tr [[d|]|e]; simpl; try contradiction.
    - intros [H1 H2]. apply Forall_app. split; [exact Hacc|].
      constructor; [now apply HI | constructor].
    - intros _. exact Hacc.
  Qed.

  (** C10.  A part that lacks the attachment id or the filename is
      answered [null] by the download step without any request; in the
      extraction loop it is skipped without effect, so that extraction
      runs exactly as on the parts that carry both; and every attachment
      extracted from a message bears the filename of a part of the
      message that carries both. *)
Theorem downloadAttachment_needs_reference_and_filename
      {env : Environment} (gmail : OAuth2Client)
      (messageId : option string) :
    (forall part,
       carries_reference_and_filename part = false ->
       downloadAttachment gmail messageId part = ret None) /\
    (forall part acc,
       carries_reference_and_filename part = false ->
       extract_one gmail messageId acc part = ret acc) /\
    (forall ps acc w,
       run (foldM (extract_one gmail messageId) ps acc) w =
       run (foldM (extract_one gmail messageId)
              (filter carries_reference_and_filename ps) acc) w) /\
    (forall message,
       allpaths (extractAttachments gmail message)
         (fun _ r =>
            match r with
            | Ok attachments =>
                Forall
                  (fun d =>
                     exists payload part,
                       Message.payload message = Some payload /\
                       In part (extractParts payload) /\
                       carries_reference_and_filename part = true /\
                       AttachmentData.fileName d = or_else (filename part) "")
                  attachments
            | Throw _ => False
            end)).
  Proof.
    split; [|split; [|split]].
    - intros part. apply downloadAttachment_null.
    - intros part acc. apply extract_one_skips.
    - intros ps acc w. apply extract_loop_filter.
    - intros message. unfold extractAttachments.
      destruct (Message.payload message) as [payload|]; simpl.
      + apply allpaths_foldM_invariant; [|constructor].
        intros acc part Hin Hacc. apply extract_one_outcome; [|exact Hacc].
        intros d H1 H2. exists payload, part. repeat split; assumption.
      + constructor.
  Qed.

End Download.

Lemma downloadAttachment_needs_reference_and_filename_witness :
  let by_disposition :=
    mkPart None (Some "image/png") (Some "logo.png")
      (Some [mkHeader (Some "Content-Disposition")
               (Some "attachment; filename=logo.png")])
      (Some (mkBody None (Some 120%Z) (Some "iVBORw0KGgo="))) None in
  isAttachment by_disposition = true /\
  carries_reference_and_filename by_disposition = false /\
  downloadAttachment (platform := Demo.platform) Demo.gmail (Some "m1")
    by_disposition = ret None /\
  extract_one (platform := Demo.platform) Demo.gmail (Some "m1") []
    by_disposition = ret [].
Proof.
  intros p.
  destruct (downloadAttachment_needs_reference_and_filename
              (platform := Demo.platform) (env := Demo.environment)
              Demo.gmail (Some "m1"))
    as (H1 & H2 & _).
  split; [reflexivity|]. split; [reflexivity|].
  split; [apply H1; reflexivity | apply H2; reflexivity].
Defined.

(** ** The folder organizer *)

Section Folders.

Context {platform : Platform}.

Lemma upload_targets_app (t1 t2 : list Event) :
    upload_targets (t1 ++ t2) = upload_targets t1 ++ upload_targets t2.
  Proof. apply flat_map_app. Qed.

Lemma subfolder_requests_app (t1 t2 : list Event) :
    subfolder_requests (t1 ++ t2) =
    subfolder_requests t1 ++ subfolder_requests t2.
  Proof. apply flat_map_app. Qed.

Lemma folder_searches_app (t1 t2 : list Event) :
    folder_searches (t1 ++ t2) = folder_searches t1 ++ folder_searches t2.
  Proof. apply flat_map_app. Qed.

  (** One upload: one request, into the folder given. *)
Lemma uploadFile_target (auth : OAuth2Client) (a : AttachmentData.t)
      (target : string) :
    target <> "" ->
    allpaths (uploadFile auth a (Some target))
      (fun tr _ =>
         upload_targets tr = [Some [target]] /\
         subfolder_requests tr = [] /\ folder_searches tr = []).
  Proof.
    intros Hne. unfold uploadFile.
    apply String.eqb_neq in Hne. rewrite Hne. simpl.
    intros _ [file|e]; simpl.
    - destruct (DriveFile.id file) as [fid|]; simpl.
      + destruct (fid =? ""); simpl.
        * intros _. repeat split.
        * intros [[]|e] ?; simpl; repeat split.
      + intros _. repeat split.
    - intros _. repeat split.
  Qed.

Lemma upload_one_target (auth : OAuth2Client) (target : string)
      (acc : list DriveUploadResult.t) (a : AttachmentData.t) :
    target <> "" ->
    allpaths (upload_one auth target acc a)
      (fun tr r =>
         upload_targets tr = [Some [target]] /\
         subfolder_requests tr = [] /\ folder_searches tr = [] /\
         exists acc', r = Ok acc').
  Proof.
    intros Hne. unfold upload_one.
    apply allpaths_try_catch. apply allpaths_mbind.
    eapply allpaths_weaken; [|apply (uploadFile_target auth a target Hne)].
    intros tr [res|e] (H1 & H2 & H3); simpl.
    - rewrite app_nil_r. repeat split; trivial. now eexists.
    - intros []. rewrite upload_targets_app, subfolder_requests_app,
        folder_searches_app, H1, H2, H3.
      repeat split. now eexists.
  Qed.

Lemma upload_loop_targets (auth : OAuth2Client) (target : string)
      (atts : list AttachmentData.t) (acc : list DriveUploadResult.t) :
    target <> "" ->
    allpaths (foldM (upload_one auth target) atts acc)
      (fun tr r =>
         upload_targets tr = repeat (Some [target]) (length atts) /\
         subfolder_requests tr = [] /\ folder_searches tr = [] /\
         exists results, r = Ok results).
  Proof.
    intros Hne. revert acc.
    induction atts as [|a atts IH]; intros acc; cbn [foldM length repeat].
    - repeat split. now eexists.
    - apply allpaths_mbind.
      eapply allpaths_weaken; [|apply (upload_one_target auth target acc a Hne)].
      intros t1 r (H1 & H2 & H3 & acc' & E). subst r.
      eapply allpaths_weaken; [|apply (IH acc')].
      intros t2 r (H4 & H5 & H6 & H7).
      rewrite upload_targets_app, subfolder_requests_app,
        folder_searches_app, H1, H2, H3, H4, H5, H6.
      repeat split. exact H7.
  Qed.

  (** The root folder is looked up or created without any upload, and
      its id is never empty. *)
Lemma getOrCreateAttachmentsFolder_root (auth : OAuth2Client) :
    allpaths (getOrCreateAttachmentsFolder auth)
      (fun tr r =>
         upload_targets tr = [] /\ subfolder_requests tr = [] /\
         match r with
         | Ok root => root <> ""
         | Throw _ => True
         end).
  Proof.
    unfold getOrCreateAttachmentsFolder. simpl.
    assert (C : forall pre,
      upload_targets pre = [] -> subfolder_requests pre = [] ->
      forall r : Resp (DriveFilesCreate auth
                   (FileMetadata.mk attachments_folder_name
                      (Some folder_mimeType) None) None),
      allpaths
        (pbind
           match r with
           | Ok a =>
               match DriveFile.id a with
               | Some folderId =>
                   if folderId =? ""
                   then throw (Error "Failed to create folder: No folder ID returned")
                   else
                     mbind (log LLog "Created new attachments folder: ${folderId}"
                              [LStr folderId])
                       (fun _ => ret folderId)
               | None =>
                   throw (Error "Failed to create folder: No folder ID returned")
               end
           | Throw e => Ret (Throw e)
           end
           (fun r0 =>
              match r0 with
              | Ok a => Ret (Ok a)
              | Throw e =>
                  mbind (log LError "Failed to create/get attachments folder:"
                           [LErr e])
                    (fun _ => throw e)
              end))
        (fun tr r0 =>
           upload_targets (pre ++ Ev _ r :: tr) = [] /\
           subfolder_requests (pre ++ Ev _ r :: tr) = [] /\
           match r0 with
           | Ok root => root <> ""
           | Throw _ => True
           end)).
    { intros pre P1 P2 [file|e]; simpl.
      - destruct (DriveFile.id file) as [fid|]; simpl.
        + destruct (fid =? "") eqn:E; simpl.
          * intros []. rewrite upload_targets_app, subfolder_requests_app,
              P1, P2. repeat split.
          * intros []. rewrite upload_targets_app, subfolder_requests_app,
              P1, P2. repeat split. now apply String.eqb_neq.
        + intros []. rewrite upload_targets_app, subfolder_requests_app,
            P1, P2. repeat split.
      - intros []. rewrite upload_targets_app, subfolder_requests_app,
          P1, P2. repeat split. }
    intros [files|e]; simpl.
    - destruct files as [[|first rest]|]; simpl.
      + intros r. apply (C [Ev (DriveFilesList auth attachments_folder_query)
                              (Ok (Some []))]); reflexivity.
      + destruct (DriveFile.id first) as [fid|]; simpl.
        * destruct (fid =? "") eqn:E; simpl.
          -- intros r.
             apply (C [Ev (DriveFilesList auth attachments_folder_query)
                         (Ok (Some (first :: rest)))]); reflexivity.
          -- intros []. repeat split. now apply String.eqb_neq.
        * intros r.
          apply (C [Ev (DriveFilesList auth attachments_folder_query)
                      (Ok (Some (first :: rest)))]); reflexivity.
      + intros r. apply (C [Ev (DriveFilesList auth attachments_folder_query)
                              (Ok None)]); reflexivity.
    - intros []. repeat split.
  Qed.

Lemma getOrCreateAttachmentsFolder_searches (auth : OAuth2Client) :
    allpaths (getOrCreateAttachmentsFolder auth)
      (fun tr _ => folder_searches tr = [attachments_folder_query]).
  Proof.
    unfold getOrCreateAttachmentsFolder. simpl.
    intros [files|e]; simpl.
    - assert (C : forall r : Resp (DriveFilesCreate auth
                   (FileMetadata.mk attachments_folder_name
                      (Some folder_mimeType) None) None),
        allpaths
          (pbind
             match r with
             | Ok a =>
                 match DriveFile.id a with
                 | Some folderId =>
                     if folderId =? ""
                     then throw (Error "Failed to create folder: No folder ID returned")
                     else
                       mbind (log LLog "Created new attachments folder: ${folderId}"
                                [LStr folderId])
                         (fun _ => ret folderId)
                 | None =>
                     throw (Error "Failed to create folder: No folder ID returned")
                 end
             | Throw e => Ret (Throw e)
             end
             (fun r0 =>
                match r0 with
                | Ok a => Ret (Ok a)
                | Throw e =>
                    mbind (log LError "Failed to create/get attachments folder:"
                             [LErr e])
                      (fun _ => throw e)
                end))
          (fun tr _ =>
             folder_searches
               (Ev (DriveFilesList auth attachments_folder_query) (Ok files)
                  :: Ev _ r :: tr) = [attachments_folder_query])).
      { intros [file|e]; simpl.
        - destruct (DriveFile.id file) as [fid|]; simpl.
          + destruct (fid =? ""); simpl; intros []; reflexivity.
          + intros []; reflexivity.
        - intros []; reflexivity. }
      destruct files as [[|first rest]|]; simpl.
      + exact C.
      + destruct (DriveFile.id first) as [fid|]; simpl.
        * destruct (fid =? ""); simpl; [exact C | intros []; reflexivity].
        * exact C.
      + exact C.
    - intros []; reflexivity.
  Qed.

Lemma or_else_nonempty (o : option string) (d : string) :
    d <> "" -> or_else o d <> "".
  Proof.
    intros Hd. destruct o as [s|]; simpl; [|exact Hd].
    destruct (s =? "") eqn:E; [exact Hd | now apply String.eqb_neq].
  Qed.

Lemma run_createEmailFolder {env : Environment} (auth : OAuth2Client)
      (root subject : string) (w : World) :
    let resp := fst (handle (subfolder_create auth root subject) w) in
    let w1 := snd (handle (subfolder_create auth root subject) w) in
    exists tr,
      run (createEmailFolder auth root subject) w =
      (Ok (subfolder_or_parent resp root), w1, tr) /\
      upload_targets tr = [] /\ folder_searches tr = [] /\
      subfolder_requests tr = [(sanitizeFolderName subject, [root])].
  Proof.
    unfold createEmailFolder, subfolder_create. simpl.
    destruct (ask _ w) as [[file|e] w1]; simpl.
    - eexists. split; [reflexivity|]. repeat split.
    - eexists. split; [reflexivity|]. repeat split.
  Qed.

Lemma subfolder_or_parent_nonempty (resp : result DriveFile.t)
    (parent : string) :
  parent <> "" -> subfolder_or_parent resp parent <> "".
Proof.
  intros H. destruct resp as [file|e]; simpl;
    [now apply or_else_nonempty | exact H].
Qed.

Lemma choose_target_folder_spec {env : Environment} (auth : OAuth2Client)
    (atts : list AttachmentData.t) (subject : option string)
    (root : string) (w1 : World) :
  root <> "" ->
  after (choose_target_folder auth atts subject root) w1
    (fun r _ tsel =>
       exists target,
         r = Ok target /\ target <> "" /\
         upload_targets tsel = [] /\ folder_searches tsel = [] /\
         if (1 <? length atts)%nat && truthy subject
         then target =
              subfolder_or_parent
                (fst (handle (subfolder_create auth root (or_else subject ""))
                        w1)) root /\
              subfolder_requests tsel =
              [(sanitizeFolderName (or_else subject ""), [root])]
         else target = root /\ subfolder_requests tsel = []).
Proof.
  intros Hroot. unfold choose_target_folder.
  destruct subject as [subject|]; simpl truthy; simpl or_else.
  - destruct (subject =? "") eqn:Es; simpl negb.
    + rewrite andb_false_r. apply after_ret.
      exists root. repeat split; trivial.
    + rewrite andb_true_r. destruct (1 <? length atts)%nat.
      * unfold after.
        destruct (run_createEmailFolder auth root subject w1)
          as (tsel & Hrun & S1 & S2 & S3).
        rewrite Hrun. eexists. split; [reflexivity|].
        split; [now apply subfolder_or_parent_nonempty|]. repeat split; trivial.
      * apply after_ret. exists root. repeat split; trivial.
  - rewrite andb_false_r. apply after_ret.
    exists root. repeat split; trivial.
Qed.

Lemma upload_batch_targets {env : Environment} (auth : OAuth2Client)
    (atts : list AttachmentData.t) (subject : option string)
    (root : string) (w1 : World) :
  root <> "" ->
  after (upload_batch auth atts subject root) w1
    (fun r _ tr =>
       (exists results, r = Ok results) /\
       folder_searches tr = [] /\
       if (1 <? length atts)%nat && truthy subject
       then subfolder_requests tr =
            [(sanitizeFolderName (or_else subject ""), [root])] /\
            upload_targets tr =
            repeat
              (Some [subfolder_or_parent
                       (fst (handle
                               (subfolder_create auth root (or_else subject ""))
                               w1)) root])
              (length atts)
       else subfolder_requests tr = [] /\
            upload_targets tr = repeat (Some [root]) (length atts)).
Proof.
  intros Hroot. unfold upload_batch. apply after_mbind.
  eapply after_weaken; [|apply (choose_target_folder_spec auth atts subject
                                   root w1 Hroot)].
  intros r w2 tsel (target & -> & Ht & S1 & S2 & S3).
  apply after_mbind.
  eapply after_weaken;
    [|apply (after_allpaths _ w2 _ (upload_loop_targets auth target atts [] Ht))].
  intros r w3 t3 (U1 & U2 & U3 & results & ->).
  apply after_log. apply after_ret.
  split; [now eexists|].
  rewrite !folder_searches_app, !upload_targets_app, !subfolder_requests_app,
    S1, S2, U1, U2, U3.
  simpl. rewrite !app_nil_r. split; [reflexivity|].
  destruct ((1 <? length atts)%nat && truthy subject);
    destruct S3 as [-> ->]; split; reflexivity.
Qed.

(** C5, as the code has it.  From the root folder found or created for
    the batch: a batch of one attachment is uploaded into the root
    folder; for a batch of several with a non-empty subject one subfolder
    named by the sanitized subject is requested below the root, without
    any search for an existing one, and every upload goes into the
    folder Drive returns for it, or into the root folder when that
    request fails or returns no id; without a subject every upload goes
    into the root folder.  When the root folder cannot be resolved
    nothing is uploaded. *)
Theorem uploadAttachments_target_folder {env : Environment}
    (auth : OAuth2Client) (atts : list AttachmentData.t)
    (subject : option string) (w : World) :
  atts <> [] ->
  let '(root, w1, _) := run (getOrCreateAttachmentsFolder auth) w in
  let '(_, _, tr) := run (uploadAttachments auth atts subject) w in
  folder_searches tr = [attachments_folder_query] /\
  match root with
  | Throw _ => upload_targets tr = [] /\ subfolder_requests tr = []
  | Ok root =>
      (length atts = 1%nat ->
       subfolder_requests tr = [] /\ upload_targets tr = [Some [root]]) /\
      ((1 < length atts)%nat -> truthy subject = false ->
       subfolder_requests tr = [] /\
       upload_targets tr = repeat (Some [root]) (length atts)) /\
      ((1 < length atts)%nat -> truthy subject = true ->
       let name := sanitizeFolderName (or_else subject "") in
       let answer :=
         fst (handle (subfolder_create auth root (or_else subject "")) w1) in
       subfolder_requests tr = [(name, [root])] /\
       upload_targets tr =
       repeat (Some [subfolder_or_parent answer root]) (length atts))
  end.
Proof.
  intros Hne. destruct atts as [|a atts']; [contradiction|].
  set (atts := a :: atts') in *.
  change (uploadAttachments auth atts subject)
    with (try_catch
            (mbind (getOrCreateAttachmentsFolder auth)
               (upload_batch auth atts subject))
            (fun error =>
               mbind (log LError "Failed to upload attachments batch:"
                        [LErr error]) (fun _ => ret []))).
  rewrite run_try_catch, run_mbind.
  pose proof (allpaths_run _ _ w (getOrCreateAttachmentsFolder_root auth))
    as Hroot.
  pose proof (allpaths_run _ _ w (getOrCreateAttachmentsFolder_searches auth))
    as Hsearch.
  destruct (run (getOrCreateAttachmentsFolder auth) w)
    as [[[root|e] w1] t1]; simpl in Hroot, Hsearch.
  - destruct Hroot as (H1 & H2 & Hnonempty).
    pose proof (upload_batch_targets auth atts subject root w1 Hnonempty)
      as Hbatch.
    unfold after in Hbatch.
    destruct (run (upload_batch auth atts subject root) w1) as [[r w2] t2].
    destruct Hbatch as ((results & ->) & B1 & B2).
    rewrite folder_searches_app, upload_targets_app, subfolder_requests_app,
      Hsearch, H1, H2, B1. cbn [app].
    split; [reflexivity|]. clearbody atts.
    split; [|split].
    + intros L1.
      replace (1 <? length atts)%nat with false in B2
        by (symmetry; apply Nat.ltb_ge; lia).
      cbn [andb] in B2. rewrite L1 in B2. exact B2.
    + intros L1 Hs. rewrite Hs, andb_false_r in B2. exact B2.
    + intros L1 Hs. cbv zeta. apply Nat.ltb_lt in L1.
      rewrite L1, Hs in B2. exact B2.
  - simpl. destruct Hroot as (H1 & H2 & _).
    rewrite folder_searches_app, upload_targets_app, subfolder_requests_app,
      Hsearch, H1, H2. repeat split.
Qed.

End Folders.

Lemma uploadAttachments_target_folder_witness :
  let w := Demo.world (Demo.empty_store None) Demo.quiet in
  let atts := [Demo.attachment "a.pdf"; Demo.attachment "b.pdf"] in
  let '(_, _, tr) :=
    run (uploadAttachments (platform := Demo.platform) Demo.gmail atts
           (Some "Q4: plan?")) w in
  atts <> [] /\
  subfolder_requests tr = [("Q4 plan", ["root"])] /\
  upload_targets tr = [Some ["sub"]; Some ["sub"]].
Proof.
  intros w atts.
  assert (Hne : atts <> []) by discriminate.
  pose proof (uploadAttachments_target_folder
                (platform := Demo.platform) (env := Demo.environment)
                Demo.gmail atts (Some "Q4: plan?") w Hne) as H.
  vm_compute in H. vm_compute.
  destruct H as (_ & _ & _ & H).
  split; [discriminate|].
  apply H; [lia | reflexivity].
Defined.

(** C5 as stated fails when Drive refuses the subfolder: the two
    attachments of the batch are uploaded into the root folder. *)
Lemma uploadAttachments_two_attachments_in_root :
  let w := Demo.world (Demo.empty_store None) Demo.no_subfolder in
  let atts := [Demo.attachment "a.pdf"; Demo.attachment "b.pdf"] in
  let '(results, _, tr) :=
    run (uploadAttachments (platform := Demo.platform) Demo.gmail atts
           (Some "Q4: plan?")) w in
  fst (fst (run (getOrCreateAttachmentsFolder Demo.gmail) w)) = Ok "root" /\
  (1 < length atts)%nat /\
  upload_targets tr = [Some ["root"]; Some ["root"]] /\
  match results with
  | Ok uploaded => map DriveUploadResult.fileName uploaded = ["a.pdf"; "b.pdf"]
  | Throw _ => False
  end.
Proof.
  vm_compute. repeat split. lia.
Qed.

(** ** Footprints of the services *)

Lemma only_weaken {A : Type} (ok ok' : Op -> bool) (p : Proc A) :
  (forall op, ok op = true -> ok' op = true) -> only ok p -> only ok' p.
Proof.
  intros Hsub. induction p as [a | op k IH]; simpl; [trivial|].
  intros [H1 H2]. split; [now apply Hsub | intros r; now apply IH].
Qed.

Lemma only_pbind {A B : Type} (ok : Op -> bool) (p : Proc A)
    (f : A -> Proc B) :
  only ok p -> (forall a, only ok (f a)) -> only ok (pbind p f).
Proof.
  intros Hp Hf. induction p as [a | op k IH]; simpl.
  - apply Hf.
  - destruct Hp as [H1 H2]. split; [exact H1 | intros r; now apply IH].
Qed.

Lemma only_mbind {A B : Type} (ok : Op -> bool) (p : M A) (f : A -> M B) :
  only ok p -> (forall a, only ok (f a)) -> only ok (mbind p f).
Proof.
  intros Hp Hf. apply only_pbind; [exact Hp|].
  intros [a|e]; [apply Hf | exact I].
Qed.

Lemma only_try_catch {A : Type} (ok : Op -> bool) (p : M A)
    (h : error -> M A) :
  only ok p -> (forall e, only ok (h e)) -> only ok (try_catch p h).
Proof.
  intros Hp Hh. apply only_pbind; [exact Hp|].
  intros [a|e]; [exact I | apply Hh].
Qed.

Lemma only_foldM {A S : Type} (ok : Op -> bool) (body : S -> A -> M S)
    (l : list A) (s : S) :
  (forall s x, only ok (body s x)) -> only ok (foldM body l s).
Proof.
  intros Hbody. revert s. induction l as [|x l IH]; intros s.
  - exact I.
  - cbn [foldM]. apply only_mbind; [apply Hbody | intros s'; apply IH].
Qed.

Lemma only_log {ok : Op -> bool} (level : LogLevel) (template : string)
    (args : list LogArg) :
  ok (LogOp level template args) = true -> only ok (log level template args).
Proof. intros H. split; [exact H | intros r; exact I]. Qed.

Lemma only_call (ok : Op -> bool) (op : Op) :
  ok op = true -> only ok (call op).
Proof. intros H. split; [exact H | intros r; exact I]. Qed.

Lemma within_incl (ks ks' : list Kind) :
  forallb (fun k => existsb (fun k' => Nat.eqb (kind_code k') (kind_code k)) ks')
    ks = true ->
  forall op, within ks op = true -> within ks' op = true.
Proof.
  intros Hall op. unfold within. rewrite !existsb_exists.
  intros (k & Hin & Hk). rewrite forallb_forall in Hall.
  specialize (Hall k Hin). rewrite existsb_exists in Hall.
  destruct Hall as (k' & Hin' & Hk'). exists k'. split; [exact Hin'|].
  apply Nat.eqb_eq in Hk, Hk'. apply Nat.eqb_eq. congruence.
Qed.

(** The operations of every trace of a program are within its
    footprint. *)
Lemma only_trace {A : Type} (ok : Op -> bool) (p : Proc A) :
  only ok p ->
  allpaths p (fun tr _ => Forall (fun e => ok (event_op e) = true) tr).
Proof.
  induction p as [a | op k IH]; simpl.
  - intros _. constructor.
  - intros [H1 H2] r.
    eapply allpaths_weaken; [|apply IH, H2].
    intros tr a Htr. constructor; assumption.
Qed.

Create HintDb footprint.

Ltac footprint :=
  lazymatch goal with
  | |- only _ (mbind _ _) =>
      apply only_mbind; [footprint | intros; footprint]
  | |- only _ (try_catch _ _) =>
      apply only_try_catch; [footprint | intros; footprint]
  | |- only _ (foldM _ _ _) => apply only_foldM; intros; footprint
  | |- only _ (forM _ _) => apply only_foldM; intros; footprint
  | |- only _ (log _ _ _) => apply only_log; reflexivity
  | |- only _ (call _) => apply only_call; reflexivity
  | |- only _ (perform _ _) => split; [reflexivity | intros; footprint]
  | |- only _ (Vis _ _) => split; [reflexivity | intros; footprint]
  | |- only _ (pbind _ _) => apply only_pbind; [footprint | intros; footprint]
  | |- only _ (ret _) => exact I
  | |- only _ (throw _) => exact I
  | |- only _ (lift _) => exact I
  | |- only _ (Ret _) => exact I
  | |- only _ (match ?x with _ => _ end) => destruct x; footprint
  | |- only _ (let _ := _ in _) => cbv zeta; footprint
  | |- only _ _ =>
      eapply only_weaken; cycle 1;
      [solve [eauto with footprint] | apply within_incl; reflexivity]
  end.

Section Footprints.

Context {platform : Platform}.

Lemma only_uploadFile (auth : OAuth2Client) (a : AttachmentData.t)
    (folderId : option string) :
  only (within [KLog; KDriveFilesCreate; KDrivePermissionsCreate])
    (uploadFile auth a folderId).
Proof. unfold uploadFile. footprint. Qed.

Lemma only_getOrCreateAttachmentsFolder (auth : OAuth2Client) :
  only (within [KLog; KDriveFilesList; KDriveFilesCreate])
    (getOrCreateAttachmentsFolder auth).
Proof. unfold getOrCreateAttachmentsFolder. footprint. Qed.

Lemma only_createEmailFolder (auth : OAuth2Client) (parent subject : string) :
  only (within [KLog; KDriveFilesCreate])
    (createEmailFolder auth parent subject).
Proof. unfold createEmailFolder. footprint. Qed.

#[local] Hint Resolve only_uploadFile only_getOrCreateAttachmentsFolder
  only_createEmailFolder : footprint.

Lemma only_uploadAttachments (auth : OAuth2Client)
    (atts : list AttachmentData.t) (subject : option string) :
  only (within [KLog; KDriveFilesList; KDriveFilesCreate;
                KDrivePermissionsCreate])
    (uploadAttachments auth atts subject).
Proof.
  unfold uploadAttachments, upload_batch, choose_target_folder, upload_one.
  footprint.
Qed.

Lemma only_getAuthenticatedClient (token : Token.t) :
  only (within [KLog; KDateNow; KRefreshAccessToken; KTokenUpdateCredentials])
    (getAuthenticatedClient token).
Proof.
  unfold getAuthenticatedClient, getValidToken, refreshToken. footprint.
Qed.

Lemma only_extractAttachments (gmail : OAuth2Client) (message : Message.t) :
  only (within [KLog; KAttachmentsGet]) (extractAttachments gmail message).
Proof.
  unfold extractAttachments, extract_one, downloadAttachment. footprint.
Qed.

Lemma only_storeAttachmentMetadata (messageId : string)
    (res : DriveUploadResult.t) :
  only (within [KLog; KEmailFindUnique; KAttachmentCreate])
    (storeAttachmentMetadata messageId res).
Proof. unfold storeAttachmentMetadata. footprint. Qed.

#[local] Hint Resolve only_uploadAttachments only_getAuthenticatedClient
  only_extractAttachments only_storeAttachmentMetadata : footprint.

Lemma only_processAttachments (gmail : OAuth2Client) (message : Message.t)
    (messageId : string) (userId : option string) :
  only (within processAttachments_kinds)
    (processAttachments gmail message messageId userId).
Proof. unfold processAttachments. footprint. Qed.

End Footprints.

(** ** What the store keeps of a run *)

Section StoreGrowth.

Context {env : Environment}.

Lemma query_growth {T : Type} (op : Op)
    (q : Store.t -> result T * Store.t) (w : World)
    (P : result T -> Store.t -> Store.t -> Prop) :
  (forall e, P (Throw e) (store w) (store w)) ->
  P (fst (q (store w))) (store w) (snd (q (store w))) ->
  P (fst (query op q w)) (store w) (store (snd (query op q w))).
Proof.
  intros Hfault Hq. unfold query.
  destruct (db_fault op (ext w)) as [[e|] x]; simpl.
  - apply Hfault.
  - destruct (q (store w)) as [r s]. exact Hq.
Qed.

(** One operation: the store grows by the rows it answered with. *)
Lemma handle_growth (op : Op) (w : World) :
  exists erows arows,
    Store.emails (store (snd (handle op w))) =
      Store.emails (store w) ++ erows /\
    Store.attachments (store (snd (handle op w))) =
      Store.attachments (store w) ++ arows /\
    map Email.messageId erows = stored_emails [Ev op (fst (handle op w))] /\
    map row_fields arows = stored_attachments [Ev op (fst (handle op w))].
Proof.
  assert (Same : forall s : Store.t,
            Store.emails s = Store.emails s ++ [] /\
            Store.attachments s = Store.attachments s ++ [])
    by (intros s; now rewrite !app_nil_r).
  destruct op; cbn [handle];
    try (unfold ask; destruct (remote _ (ext w)) as [r x]; simpl;
         exists [], []; rewrite !app_nil_r; repeat split; fail).
  - (* email.findUnique *)
    unfold query. destruct (db_fault _ (ext w)) as [[e|] x]; simpl;
      exists [], []; rewrite !app_nil_r; repeat split.
  - (* email.create *)
    unfold query. destruct (db_fault _ (ext w)) as [[e|] x]; simpl.
    + exists [], []. rewrite !app_nil_r. repeat split.
    + unfold Store.email_create.
      destruct (Store.email_findUnique _ (store w)); simpl.
      * exists [], []. rewrite !app_nil_r. repeat split.
      * eexists [_], []. rewrite !app_nil_r. repeat split.
  - (* attachment.create *)
    unfold query. destruct (db_fault _ (ext w)) as [[e|] x]; simpl.
    + exists [], []. rewrite !app_nil_r. repeat split.
    + unfold Store.attachment_create.
      destruct (existsb _ (Store.emails (store w))); simpl.
      * eexists [], [_]. rewrite !app_nil_r. repeat split.
      * exists [], []. rewrite !app_nil_r. repeat split.
  - (* token.findMany *)
    unfold query. destruct (db_fault _ (ext w)) as [[e|] x]; simpl;
      exists [], []; rewrite !app_nil_r; repeat split.
  - (* token.update, history id *)
    unfold query. destruct (db_fault _ (ext w)) as [[e|] x]; simpl.
    + exists [], []. rewrite !app_nil_r. repeat split.
    + unfold Store.token_update.
      destruct (find _ (Store.tokens (store w))); simpl;
        exists [], []; rewrite !app_nil_r; repeat split.
  - (* token.update, credentials *)
    unfold query. destruct (db_fault _ (ext w)) as [[e|] x]; simpl.
    + exists [], []. rewrite !app_nil_r. repeat split.
    + unfold Store.token_update.
      destruct (find _ (Store.tokens (store w))); simpl;
        exists [], []; rewrite !app_nil_r; repeat split.
  - (* logger *)
    exists [], []. rewrite !app_nil_r. repeat split.
Qed.

(** A run: the store grows by the rows created, in order. *)
Lemma run_growth {A : Type} (p : Proc A) (w : World) :
  after p w
    (fun _ w' tr =>
       exists erows arows,
         Store.emails (store w') = Store.emails (store w) ++ erows /\
         Store.attachments (store w') = Store.attachments (store w) ++ arows /\
         map Email.messageId erows = stored_emails tr /\
         map row_fields arows = stored_attachments tr).
Proof.
  revert w. induction p as [a | op k IH]; intros w.
  - apply after_ret. exists [], []. rewrite !app_nil_r. repeat split.
  - apply after_vis.
    destruct (handle_growth op w) as (e1 & a1 & E1 & A1 & E2 & A2).
    eapply after_weaken; [|apply IH].
    intros a w' tr (e2 & a2 & E3 & A3 & E4 & A4).
    exists (e1 ++ e2), (a1 ++ a2).
    rewrite E3, A3, E1, A1, <- !app_assoc, !map_app, E2, A2, E4, A4.
    unfold stored_emails, stored_attachments. cbn [flat_map].
    rewrite !app_nil_r. repeat split.
Qed.

End StoreGrowth.

(** ** Uploads and attachment records *)

Lemma allpaths_conj {A : Type} (p : Proc A)
    (Q Q' : list Event -> A -> Prop) :
  allpaths p Q -> allpaths p Q' ->
  allpaths p (fun tr a => Q tr a /\ Q' tr a).
Proof.
  revert Q Q'. induction p as [a | op k IH]; simpl; intros Q Q' H H'.
  - now split.
  - intros r. apply (IH r _ _ (H r) (H' r)).
Qed.

Lemma allpaths_trivial {A : Type} (p : Proc A) :
  allpaths p (fun _ _ => True).
Proof.
  induction p as [a | op k IH]; simpl; [trivial | intros r; apply IH].
Qed.

Lemma flat_map_quiet {X : Type} (ok : Op -> bool) (f : Event -> list X)
    (tr : list Event) :
  (forall e, ok (event_op e) = true -> f e = []) ->
  Forall (fun e => ok (event_op e) = true) tr -> flat_map f tr = [].
Proof.
  intros Hf Htr. induction Htr as [|e tr He _ IH]; simpl.
  - reflexivity.
  - now rewrite (Hf e He), IH.
Qed.

Lemma attachment_requests_app (t1 t2 : list Event) :
  attachment_requests (t1 ++ t2) =
  attachment_requests t1 ++ attachment_requests t2.
Proof. apply flat_map_app. Qed.

Lemma stored_attachments_requested (tr : list Event) :
  incl (stored_attachments tr) (attachment_requests tr).
Proof.
  induction tr as [|[op r] tr IH]; simpl.
  - apply incl_refl.
  - apply incl_app.
    + apply incl_appl. destruct op; simpl; try apply incl_nil_l.
      destruct r; [apply incl_refl | apply incl_nil_l].
    + apply incl_appr. exact IH.
Qed.

Lemma backed_by_upload_app_l (tr tr' : list Event) (f m l : string) :
  backed_by_upload tr f m l -> backed_by_upload (tr ++ tr') f m l.
Proof.
  intros (auth & meta & media & file & fid & H1 & H2 & H3 & H4 & H5).
  exists auth, meta, media, file, fid.
  repeat split; try tauto; apply in_or_app; now left.
Qed.

Lemma backed_by_upload_app_r (tr tr' : list Event) (f m l : string) :
  backed_by_upload tr' f m l -> backed_by_upload (tr ++ tr') f m l.
Proof.
  intros (auth & meta & media & file & fid & H1 & H2 & H3 & H4 & H5).
  exists auth, meta, media, file, fid.
  repeat split; try tauto; apply in_or_app; now right.
Qed.

Section Uploads.

Context {platform : Platform}.

Lemma uploadFile_backed (auth : OAuth2Client) (a : AttachmentData.t)
    (folderId : option string) :
  allpaths (uploadFile auth a folderId)
    (fun tr r => match r with
                 | Ok res => result_backed tr res
                 | Throw _ => True
                 end).
Proof.
  unfold uploadFile. simpl. intros [] [file|e]; simpl.
  - destruct (DriveFile.id file) as [fid|] eqn:Eid; simpl.
    + destruct (fid =? "") eqn:E; simpl.
      * intros []. exact I.
      * intros [[]|e]; simpl; intros []; [|exact I].
        unfold result_backed, backed_by_upload. simpl.
        eexists auth, _, _, file, fid.
        split; [right; left; reflexivity|].
        split; [exact Eid|].
        split; [now apply String.eqb_neq|].
        split; [right; right; left; reflexivity|].
        repeat split.
    + intros []. exact I.
  - intros []. exact I.
Qed.

Lemma upload_one_backed (auth : OAuth2Client) (target : string)
    (acc : list DriveUploadResult.t) (a : AttachmentData.t) :
  allpaths (upload_one auth target acc a)
    (fun tr r =>
       exists acc',
         r = Ok acc' /\
         forall pre, Forall (result_backed pre) acc ->
                     Forall (result_backed (pre ++ tr)) acc').
Proof.
  unfold upload_one. apply allpaths_try_catch. apply allpaths_mbind.
  eapply allpaths_weaken; [|apply uploadFile_backed].
  intros tr [res|e] Hres; simpl.
  - exists (acc ++ [res]). split; [reflexivity|].
    intros pre Hacc. rewrite app_nil_r. apply Forall_app. split.
    + eapply Forall_impl; [|exact Hacc].
      intros x. apply backed_by_upload_app_l.
    + constructor; [|constructor]. now apply backed_by_upload_app_r.
  - intros []. exists acc. split; [reflexivity|].
    intros pre Hacc. eapply Forall_impl; [|exact Hacc].
    intros x. apply backed_by_upload_app_l.
Qed.

Lemma upload_loop_backed (auth : OAuth2Client) (target : string)
    (atts : list AttachmentData.t) (acc : list DriveUploadResult.t) :
  allpaths (foldM (upload_one auth target) atts acc)
    (fun tr r =>
       exists results,
         r = Ok results /\
         forall pre, Forall (result_backed pre) acc ->
                     Forall (result_backed (pre ++ tr)) results).
Proof.
  revert acc. induction atts as [|a atts IH]; intros acc; cbn [foldM].
  - exists acc. split; [reflexivity|]. intros pre. now rewrite app_nil_r.
  - apply allpaths_mbind.
    eapply allpaths_weaken; [|apply upload_one_backed].
    intros t1 r (acc' & E & H1). subst r.
    eapply allpaths_weaken; [|apply (IH acc')].
    intros t2 r (results & E & H2). subst r.
    exists results. split; [reflexivity|].
    intros pre Hacc. rewrite app_assoc. apply H2. now apply H1.
Qed.

Lemma uploadAttachments_backed (auth : OAuth2Client)
    (atts : list AttachmentData.t) (subject : option string) :
  allpaths (uploadAttachments auth atts subject)
    (fun tr r =>
       exists results, r = Ok results /\ Forall (result_backed tr) results).
Proof.
  unfold uploadAttachments. destruct atts as [|a atts'].
  - exists []. split; [reflexivity | constructor].
  - set (atts := a :: atts').
    apply allpaths_try_catch. apply allpaths_mbind.
    eapply allpaths_weaken; [|apply allpaths_trivial].
    intros t1 [root|e] _.
    + unfold upload_batch. apply allpaths_mbind.
      eapply allpaths_weaken; [|apply allpaths_trivial].
      intros t2 [target|e] _.
      * apply allpaths_mbind.
        eapply allpaths_weaken; [|apply (upload_loop_backed auth target atts [])].
        intros t3 r (results & E & H). subst r. simpl. intros [].
        exists results. split; [reflexivity|].
        specialize (H (t1 ++ t2) (Forall_nil _)).
        rewrite <- !app_assoc in *.
        eapply Forall_impl; [|exact H].
        intros x Hx. rewrite app_assoc. rewrite app_assoc.
        apply backed_by_upload_app_l. rewrite <- app_assoc. exact Hx.
      * simpl. intros []. exists []. split; [reflexivity | constructor].
    + simpl. intros []. exists []. split; [reflexivity | constructor].
Qed.

Lemma upload_one_outcome {env : Environment} (auth : OAuth2Client)
    (target : string) (acc : list DriveUploadResult.t)
    (a : AttachmentData.t) (w : World) :
  after (upload_one auth target acc a) w
    (fun r w' _ =>
       let '(r0, w1, _) := run (uploadFile auth a (Some target)) w in
       r = Ok (acc ++ successes [r0]) /\ w' = w1).
Proof.
  unfold upload_one. apply after_try_catch, after_mbind. unfold after at 1.
  destruct (run (uploadFile auth a (Some target)) w) as [[[res|e] w1] t1].
  - apply after_ret. split; reflexivity.
  - apply after_log, after_ret. simpl. now rewrite app_nil_r.
Qed.

(** Every attachment of the batch is attempted once, in order; the
    results are those of the uploads that succeeded. *)
Lemma upload_loop_attempts_all {env : Environment} (auth : OAuth2Client)
    (target : string) (atts : list AttachmentData.t)
    (acc : list DriveUploadResult.t) (w : World) :
  after (foldM (upload_one auth target) atts acc) w
    (fun r w' _ =>
       r = Ok (acc ++ successes (fst (upload_each auth target atts w))) /\
       w' = snd (upload_each auth target atts w)).
Proof.
  revert acc w. induction atts as [|a atts IH]; intros acc w.
  - apply after_ret. simpl. now rewrite app_nil_r.
  - cbn [foldM upload_each]. apply after_mbind.
    eapply after_weaken; [|apply upload_one_outcome].
    intros r w1 t1.
    destruct (run (uploadFile auth a (Some target)) w) as [[r0 w0] t0].
    intros [-> ->].
    eapply after_weaken; [|apply IH].
    intros r w2 t2 [-> ->].
    destruct (upload_each auth target atts w0) as [rs w3]. simpl.
    split; [|reflexivity].
    destruct r0; simpl; now rewrite <- ?app_assoc, ?app_nil_r.
Qed.

End Uploads.

Section Records.

Context {platform : Platform}.

Lemma within_kind (ks : list Kind) (op op' : Op) :
  kind op = kind op' -> within ks op = within ks op'.
Proof. unfold within. now intros ->. Qed.

Lemma no_attachment_requests {A : Type} (ks : list Kind) (p : Proc A) :
  only (within ks) p ->
  existsb (fun k => Nat.eqb (kind_code k) (kind_code KAttachmentCreate)) ks
    = false ->
  allpaths p (fun tr _ => attachment_requests tr = []).
Proof.
  intros Hp Hks. eapply allpaths_weaken; [|apply (only_trace _ _ Hp)].
  intros tr a. apply flat_map_quiet.
  intros [op r]. destruct op; try reflexivity.
  simpl. unfold within. simpl kind. rewrite Hks. discriminate.
Qed.

Lemma records_backed_quiet (tr : list Event) :
  attachment_requests tr = [] -> records_backed tr.
Proof. unfold records_backed. intros ->. constructor. Qed.

Lemma records_backed_app_quiet_l (pre tr : list Event) :
  attachment_requests pre = [] -> records_backed tr ->
  records_backed (pre ++ tr).
Proof.
  unfold records_backed. rewrite attachment_requests_app.
  intros -> H. simpl. eapply Forall_impl; [|exact H].
  intros x. apply backed_by_upload_app_r.
Qed.

Lemma records_backed_app_quiet_r (tr post : list Event) :
  attachment_requests post = [] -> records_backed tr ->
  records_backed (tr ++ post).
Proof.
  unfold records_backed. rewrite attachment_requests_app.
  intros -> H. rewrite app_nil_r. eapply Forall_impl; [|exact H].
  intros x. apply backed_by_upload_app_l.
Qed.

(** A step that asks for no record, then steps that keep the records
    backed. *)
Lemma records_backed_mbind {A B : Type} (p : M A) (f : A -> M B) :
  allpaths p (fun tr _ => attachment_requests tr = []) ->
  (forall a, allpaths (f a) (fun tr _ => records_backed tr)) ->
  allpaths (mbind p f) (fun tr _ => records_backed tr).
Proof.
  intros Hp Hf. apply allpaths_mbind.
  eapply allpaths_weaken; [|exact Hp].
  intros t1 [a|e] Hq.
  - eapply allpaths_weaken; [|apply Hf].
    intros t2 b. now apply records_backed_app_quiet_l.
  - now apply records_backed_quiet.
Qed.

Lemma storeAttachmentMetadata_requests (messageId : string)
    (res : DriveUploadResult.t) :
  allpaths (storeAttachmentMetadata messageId res)
    (fun tr r =>
       r = Ok tt /\ incl (attachment_requests tr) [upload_fields res]).
Proof.
  unfold storeAttachmentMetadata. simpl.
  intros [[email|]|e]; simpl.
  - intros [row|e]; simpl; intros []; (split; [reflexivity|]);
      apply incl_refl.
  - intros []. split; [reflexivity | apply incl_nil_l].
  - intros []. split; [reflexivity | apply incl_nil_l].
Qed.

Lemma store_loop_requests (messageId : string)
    (results : list DriveUploadResult.t) :
  allpaths (forM results (storeAttachmentMetadata messageId))
    (fun tr r =>
       r = Ok tt /\
       incl (attachment_requests tr) (map upload_fields results)).
Proof.
  unfold forM. induction results as [|res results IH]; cbn [foldM].
  - split; [reflexivity | apply incl_nil_l].
  - apply allpaths_mbind.
    eapply allpaths_weaken; [|apply storeAttachmentMetadata_requests].
    intros t1 r [-> H1].
    eapply allpaths_weaken; [|apply IH].
    intros t2 r [-> H2]. split; [reflexivity|].
    rewrite attachment_requests_app. apply incl_app.
    + intros x Hx. left. specialize (H1 x Hx). simpl in H1. tauto.
    + intros x Hx. right. now apply H2.
Qed.

Lemma upload_then_store_backed (auth : OAuth2Client)
    (atts : list AttachmentData.t) (subject : option string)
    (messageId : string) (level : LogLevel) (template : string)
    (args : list DriveUploadResult.t -> list LogArg) :
  allpaths
    (mbind (uploadAttachments auth atts subject)
       (fun uploadResults =>
          mbind (forM uploadResults (storeAttachmentMetadata messageId))
            (fun _ => log level template (args uploadResults))))
    (fun tr _ => records_backed tr).
Proof.
  apply allpaths_mbind.
  eapply allpaths_weaken;
    [|apply (allpaths_conj _ _ _
               (uploadAttachments_backed auth atts subject)
               (no_attachment_requests _ _
                  (only_uploadAttachments auth atts subject) eq_refl))].
  intros t1 r [(results & -> & Hb) Hq].
  apply allpaths_mbind.
  eapply allpaths_weaken; [|apply store_loop_requests].
  intros t2 r [-> Hincl]. simpl. intros [].
  unfold records_backed.
  rewrite !attachment_requests_app, Hq. simpl. rewrite app_nil_r.
  apply Forall_forall. intros x Hx.
  apply Hincl in Hx. apply in_map_iff in Hx.
  destruct Hx as (res & <- & Hres).
  rewrite Forall_forall in Hb. specialize (Hb res Hres).
  apply backed_by_upload_app_l. exact Hb.
Qed.

Lemma processAttachments_backed (gmail : OAuth2Client) (message : Message.t)
    (messageId : string) (userId : option string) :
  allpaths (processAttachments gmail message messageId userId)
    (fun tr r => r = Ok tt /\ records_backed tr).
Proof.
  unfold processAttachments. apply allpaths_try_catch.
  eapply allpaths_weaken with
    (Q := fun tr (_ : result unit) => records_backed tr).
  { intros tr [[]|e] H.
    - split; [reflexivity | exact H].
    - simpl. intros []. split; [reflexivity|].
      now apply records_backed_app_quiet_r. }
  destruct (Message.payload message) as [payload|];
    [|now apply records_backed_quiet].
  apply records_backed_mbind.
  { apply (no_attachment_requests _ _ (only_extractAttachments gmail message)
             eq_refl). }
  intros [|a atts'].
  { simpl. intros []. now apply records_backed_quiet. }
  apply records_backed_mbind.
  { simpl. intros []. reflexivity. }
  intros _. apply records_backed_mbind.
  { simpl. intros r. reflexivity. }
  intros tokens. cbv zeta.
  destruct (if truthy userId
            then find (token_of_user (or_else userId "")) tokens
            else hd_error tokens) as [userToken|].
  2: { simpl. intros []. now apply records_backed_quiet. }
  apply records_backed_mbind.
  { apply (no_attachment_requests _ _
             (only_getAuthenticatedClient userToken) eq_refl). }
  intros oAuth2Client. apply records_backed_mbind.
  { unfold lift. simpl. reflexivity. }
  intros found.
  apply (upload_then_store_backed oAuth2Client (a :: atts') _ messageId LLog
           _ (fun uploadResults =>
                [LNum (Z.of_nat (length uploadResults)); LStr messageId])).
Qed.

Lemma no_stored_emails {A : Type} (ks : list Kind) (p : Proc A) :
  only (within ks) p ->
  existsb (fun k => Nat.eqb (kind_code k) (kind_code KEmailCreate)) ks
    = false ->
  allpaths p (fun tr _ => stored_emails tr = []).
Proof.
  intros Hp Hks. eapply allpaths_weaken; [|apply (only_trace _ _ Hp)].
  intros tr a. apply flat_map_quiet.
  intros [op r]. destruct op; try reflexivity.
  simpl. unfold within. simpl kind. rewrite Hks. discriminate.
Qed.

End Records.

Section UploadsAttempted.

Context {platform : Platform} {env : Environment}.

(** The folder the batch goes into, and the world its choice leaves. *)
Lemma choose_target_folder_run (auth : OAuth2Client)
    (atts : list AttachmentData.t) (subject : option string)
    (root : string) (w1 : World) :
  let several := (1 <? length atts)%nat && truthy subject in
  let request := subfolder_create auth root (or_else subject "") in
  fst (run (choose_target_folder auth atts subject root) w1) =
  (Ok (if several
       then subfolder_or_parent (fst (handle request w1)) root
       else root),
   if several then snd (handle request w1) else w1).
Proof.
  cbv zeta. unfold choose_target_folder.
  destruct subject as [subject|]; simpl truthy; simpl or_else.
  - destruct (subject =? "") eqn:Es; simpl negb.
    + rewrite andb_false_r. reflexivity.
    + rewrite andb_true_r. destruct (1 <? length atts)%nat; [|reflexivity].
      destruct (run_createEmailFolder auth root subject w1)
        as (tsel & Hrun & _).
      rewrite Hrun. reflexivity.
  - rewrite andb_false_r. reflexivity.
Qed.

(** [uploadAttachments] gives every attachment of the batch to
    [uploadFile], in order, each from the world the one before left,
    and returns the results of those that succeeded. *)
Lemma uploadAttachments_attempts_all (auth : OAuth2Client)
    (atts : list AttachmentData.t) (subject : option string) (w : World) :
  atts <> [] ->
  let '(root, w1, _) := run (getOrCreateAttachmentsFolder auth) w in
  match root with
  | Throw _ => fst (run (uploadAttachments auth atts subject) w) = (Ok [], w1)
  | Ok root =>
      let several := (1 <? length atts)%nat && truthy subject in
      let request := subfolder_create auth root (or_else subject "") in
      let target :=
        if several then subfolder_or_parent (fst (handle request w1)) root
        else root in
      let w2 := if several then snd (handle request w1) else w1 in
      fst (run (uploadAttachments auth atts subject) w) =
      (Ok (successes (fst (upload_each auth target atts w2))),
       snd (upload_each auth target atts w2))
  end.
Proof.
  intros Hne. destruct atts as [|a atts']; [contradiction|].
  set (atts := a :: atts') in *.
  change (uploadAttachments auth atts subject)
    with (try_catch
            (mbind (getOrCreateAttachmentsFolder auth)
               (upload_batch auth atts subject))
            (fun error =>
               mbind (log LError "Failed to upload attachments batch:"
                        [LErr error]) (fun _ => ret []))).
  rewrite run_try_catch, run_mbind.
  destruct (run (getOrCreateAttachmentsFolder auth) w)
    as [[[root|e] w1] t1]; [|reflexivity].
  cbv zeta. unfold upload_batch. rewrite run_mbind.
  pose proof (choose_target_folder_run auth atts subject root w1) as Hsel.
  cbv zeta in Hsel.
  destruct (run (choose_target_folder auth atts subject root) w1)
    as [[rsel w2] t2]. simpl in Hsel. injection Hsel as -> ->.
  rewrite run_mbind.
  pose proof (upload_loop_attempts_all auth
                (if (1 <? length atts)%nat && truthy subject
                 then subfolder_or_parent
                        (fst (handle (subfolder_create auth root
                                        (or_else subject "")) w1)) root
                 else root) atts []
                (if (1 <? length atts)%nat && truthy subject
                 then snd (handle (subfolder_create auth root
                                     (or_else subject "")) w1)
                 else w1)) as Hloop.
  unfold after in Hloop.
  destruct (run (foldM (upload_one auth _) atts []) _) as [[r w3] t3].
  destruct Hloop as [-> ->]. simpl. reflexivity.
Qed.

End UploadsAttempted.

Section UploadOutcome.

Context {platform : Platform}.

(** [uploadFile] sends the attachment once, asks for the permission on
    the file when Drive returned an id for it, and returns a result
    exactly when Drive accepted the file and the permission on it. *)
Lemma uploadFile_result_iff_accepted (auth : OAuth2Client)
    (a : AttachmentData.t) (folderId : option string) :
  allpaths (uploadFile auth a folderId)
    (fun tr r =>
       file_uploads tr = [upload_request a folderId] /\
       permission_requests tr = flat_map file_id (uploaded_files tr) /\
       match r with
       | Ok res =>
           granted_permissions tr = [DriveUploadResult.fileId res] /\
           result_backed tr res
       | Throw _ => granted_permissions tr = []
       end).
Proof.
  assert (P : (match folderId with
               | Some f => if f =? "" then None else Some [f]
               | None => None
               end) =
              (if truthy folderId then Some [or_else folderId ""] else None)).
  { destruct folderId as [f|]; simpl; [|reflexivity].
    now destruct (f =? ""). }
  unfold uploadFile, upload_request. rewrite P. simpl.
  intros [] [file|e]; simpl.
  - unfold file_id.
    destruct (DriveFile.id file) as [fid|] eqn:Eid; simpl.
    + destruct (fid =? "") eqn:E; simpl.
      * intros []. repeat split.
      * intros [[]|e]; simpl; intros []; [|repeat split].
        split; [reflexivity|]. split; [reflexivity|].
        split; [reflexivity|].
        unfold result_backed, backed_by_upload. simpl.
        eexists auth, _, _, file, fid.
        split; [right; left; reflexivity|].
        split; [exact Eid|].
        split; [now apply String.eqb_neq|].
        split; [right; right; left; reflexivity|].
        repeat split.
    + intros []. repeat split.
  - intros []. repeat split.
Qed.

End UploadOutcome.

Section RecordsStored.

Context {platform : Platform} {env : Environment}.

(** What one [storeAttachmentMetadata] does to the store. *)
Lemma storeAttachmentMetadata_effect (messageId : string)
    (res : DriveUploadResult.t) (w : World) :
  let '(r, w', tr) := run (storeAttachmentMetadata messageId res) w in
  let lookup := handle (EmailFindUnique messageId) w in
  r = Ok tt /\
  Store.emails (store w') = Store.emails (store w) /\
  match fst lookup with
  | Ok (Some email) =>
      let create :=
        AttachmentCreate (Email.id email) (DriveUploadResult.fileName res)
          (DriveUploadResult.mimeType res)
          (DriveUploadResult.webViewLink res) in
      attachment_requests tr = [upload_fields res] /\
      w' = snd (handle create (snd lookup)) /\
      match fst (handle create (snd lookup)) with
      | Ok row =>
          Store.attachments (store w') = Store.attachments (store w) ++ [row] /\
          Attachment.emailId row = Email.id email /\
          row_fields row = upload_fields res
      | Throw _ => Store.attachments (store w') = Store.attachments (store w)
      end
  | _ =>
      attachment_requests tr = [] /\ w' = snd lookup /\
      Store.attachments (store w') = Store.attachments (store w)
  end.
Proof.
  assert (L : store (snd (handle (EmailFindUnique messageId) w)) = store w).
  { cbn [handle]. unfold query.
    destruct (db_fault _ (ext w)) as [[f|] x]; reflexivity. }
  unfold storeAttachmentMetadata. rewrite run_try_catch, run_mbind.
  change (run (call (EmailFindUnique messageId)) w)
    with (let (r, w1) := handle (EmailFindUnique messageId) w in
          (r, w1, [Ev (EmailFindUnique messageId) r])).
  destruct (handle (EmailFindUnique messageId) w) as [[[email|]|e] w1];
    cbn [fst snd] in *.
  - rewrite run_mbind.
    set (create := AttachmentCreate (Email.id email)
                     (DriveUploadResult.fileName res)
                     (DriveUploadResult.mimeType res)
                     (DriveUploadResult.webViewLink res)).
    change (run (call create) w1)
      with (let (r, w2) := handle create w1 in (r, w2, [Ev create r])).
    assert (C : Store.emails (store (snd (handle create w1)))
                = Store.emails (store w1) /\
                match fst (handle create w1) with
                | Ok row =>
                    Store.attachments (store (snd (handle create w1))) =
                    Store.attachments (store w1) ++ [row] /\
                    Attachment.emailId row = Email.id email /\
                    row_fields row = upload_fields res
                | Throw _ =>
                    Store.attachments (store (snd (handle create w1))) =
                    Store.attachments (store w1)
                end).
    { unfold create. cbn [handle]. unfold query.
      destruct (db_fault _ (ext w1)) as [[f|] x]; simpl; [now split|].
      unfold Store.attachment_create.
      destruct (existsb _ (Store.emails (store w1))); simpl; now split. }
    destruct (handle create w1) as [[row|e] w2]; cbn [fst snd] in *.
    + rewrite run_log. simpl. destruct C as (C1 & C2 & C3 & C4).
      rewrite C1, C2, L. repeat split; trivial.
    + simpl. destruct C as (C1 & C2). rewrite C1, C2, L. repeat split.
  - rewrite run_log. simpl. rewrite L. repeat split.
  - simpl. rewrite L. repeat split.
Qed.

End RecordsStored.

Section ProcessingStores.

Context {platform : Platform} {env : Environment}.

Lemma mbind_lift_ok {A B : Type} (a : A) (f : A -> M B) :
  mbind (lift (Ok a)) f = f a.
Proof. reflexivity. Qed.

Lemma mbind_lift_throw {A B : Type} (e : error) (f : A -> M B) :
  mbind (lift (Throw e)) f = Ret (Throw e).
Proof. reflexivity. Qed.

(** Attachment processing stores a record for every result that
    [uploadAttachments] returned, in order, each from the world the one
    before left. *)
Lemma processAttachments_stores_each_result (gmail : OAuth2Client)
    (message : Message.t) (messageId : string) (userId : option string)
    (w : World) :
  let final :=
    snd (fst (run (processAttachments gmail message messageId userId) w)) in
  match Message.payload message with
  | None => final = w
  | Some payload =>
      let '(extracted, w1, _) := run (extractAttachments gmail message) w in
      match extracted with
      | Ok (a :: atts) =>
          let listing := handle TokenFindMany w1 in
          match fst listing with
          | Ok tokens =>
              match (if truthy userId
                     then find (token_of_user (or_else userId "")) tokens
                     else hd_error tokens) with
              | Some userToken =>
                  let '(client, w3, _) :=
                    run (getAuthenticatedClient userToken) (snd listing) in
                  match client,
                        find_header (match headers payload with
                                     | Some hs => hs
                                     | None => []
                                     end) "subject" with
                  | Ok client, Ok found =>
                      let subject :=
                        or_else (match found with
                                 | Some h => value h
                                 | None => None
                                 end) "No Subject" in
                      let '(uploaded, w4, _) :=
                        run (uploadAttachments client (a :: atts)
                               (Some subject)) w3 in
                      match uploaded with
                      | Ok results =>
                          final =
                          fst (run_each (storeAttachmentMetadata messageId)
                                 results w4)
                      | Throw _ => final = w4
                      end
                  | _, _ => final = w3
                  end
              | None => final = snd listing
              end
          | Throw _ => final = snd listing
          end
      | _ => final = w1
      end
  end.
Proof.
  cbv zeta. unfold processAttachments.
  rewrite run_try_catch.
  destruct (Message.payload message) as [payload|]; [|reflexivity].
  rewrite run_mbind.
  destruct (run (extractAttachments gmail message) w)
    as [[[[|a atts]|e] w1] t1]; try reflexivity.
  rewrite run_mbind, run_log, run_mbind.
  change (run (call TokenFindMany) w1)
    with (let (r, w2) := handle TokenFindMany w1 in
          (r, w2, [Ev TokenFindMany r])).
  destruct (handle TokenFindMany w1) as [[tokens|e] w2]; cbn [fst snd];
    [|reflexivity].
  cbv zeta.
  destruct (if truthy userId
            then find (token_of_user (or_else userId "")) tokens
            else hd_error tokens) as [userToken|]; [|reflexivity].
  rewrite run_mbind.
  destruct (run (getAuthenticatedClient userToken) w2)
    as [[[client|e] w3] t3];
    [|now destruct (find_header match headers payload with
                                | Some hs => hs
                                | None => []
                                end "subject")].
  destruct (find_header match headers payload with
                        | Some hs => hs
                        | None => []
                        end "subject") as [found|e];
    [rewrite mbind_lift_ok | rewrite mbind_lift_throw; reflexivity].
  rewrite run_mbind.
  destruct (run (uploadAttachments client (a :: atts) _) w3)
    as [[[results|e] w4] t4]; [|reflexivity].
  rewrite run_mbind.
  rewrite (run_forM_each (storeAttachmentMetadata messageId) results w4).
  - rewrite run_log. reflexivity.
  - intros res. eapply allpaths_weaken;
      [|apply storeAttachmentMetadata_requests].
    intros tr r [H _]. exact H.
Qed.

End ProcessingStores.

Section AttachmentRecords.

Context {platform : Platform}.

(** C2.  In the upload loop every attachment of the batch is given to
    [uploadFile] once, in order, whatever happened to the ones before,
    and the results kept are exactly those of the uploads that
    succeeded.  The results [uploadAttachments] returns are each backed
    by a successful upload of its trace.  Attachment processing never
    throws, leaves the Message records as they were, and adds only
    Attachment records that are backed by a successful upload: a file
    Drive accepted and made public.

    [uploadAttachments] itself runs that loop: once the root folder is
    resolved and the target folder chosen, it gives every attachment of
    the batch to [uploadFile], each from the world the one before left,
    and returns the results of those that succeeded; when the root
    folder cannot be resolved it returns none.  [uploadFile] sends the
    attachment once, asks for the permission on the file when Drive
    returned an id for it, and returns a result exactly when Drive
    accepted the file and the permission on it.  [storeAttachmentMetadata] asks for one record with the fields of
    the result when the Message record is found, and for none otherwise;
    the record the store created is appended, linked to that Message
    record, and a failure of the store leaves the records as they were.
    And attachment processing stores, in this way, every result that
    [uploadAttachments] returned for the attachments extracted, in
    order. *)
Theorem attachment_records_follow_uploads {env : Environment} :
  (forall auth target atts w,
     let '(r, w', _) := run (foldM (upload_one auth target) atts []) w in
     r = Ok (successes (fst (upload_each auth target atts w))) /\
     w' = snd (upload_each auth target atts w)) /\
  (forall auth atts subject,
     allpaths (uploadAttachments auth atts subject)
       (fun tr r =>
          exists results,
            r = Ok results /\ Forall (result_backed tr) results)) /\
  (forall gmail message messageId userId w,
     let '(r, w', tr) :=
       run (processAttachments gmail message messageId userId) w in
     r = Ok tt /\
     Store.emails (store w') = Store.emails (store w) /\
     exists rows,
       Store.attachments (store w') = Store.attachments (store w) ++ rows /\
       Forall (fun row =>
                 backed_by_upload tr (Attachment.fileName row)
                   (Attachment.mimeType row) (Attachment.driveLink row))
         rows) /\
  (forall auth atts subject w,
     atts <> [] ->
     let '(root, w1, _) := run (getOrCreateAttachmentsFolder auth) w in
     match root with
     | Throw _ =>
         fst (run (uploadAttachments auth atts subject) w) = (Ok [], w1)
     | Ok root =>
         let several := (1 <? length atts)%nat && truthy subject in
         let request := subfolder_create auth root (or_else subject "") in
         let target :=
           if several then subfolder_or_parent (fst (handle request w1)) root
           else root in
         let w2 := if several then snd (handle request w1) else w1 in
         fst (run (uploadAttachments auth atts subject) w) =
         (Ok (successes (fst (upload_each auth target atts w2))),
          snd (upload_each auth target atts w2))
     end) /\
  (forall auth a folderId,
     allpaths (uploadFile auth a folderId)
       (fun tr r =>
          file_uploads tr = [upload_request a folderId] /\
          permission_requests tr = flat_map file_id (uploaded_files tr) /\
          match r with
          | Ok res =>
              granted_permissions tr = [DriveUploadResult.fileId res] /\
              result_backed tr res
          | Throw _ => granted_permissions tr = []
          end)) /\
  (forall messageId res w,
     let '(r, w', tr) := run (storeAttachmentMetadata messageId res) w in
     let lookup := handle (EmailFindUnique messageId) w in
     r = Ok tt /\
     Store.emails (store w') = Store.emails (store w) /\
     match fst lookup with
     | Ok (Some email) =>
         let create :=
           AttachmentCreate (Email.id email) (DriveUploadResult.fileName res)
             (DriveUploadResult.mimeType res)
             (DriveUploadResult.webViewLink res) in
         attachment_requests tr = [upload_fields res] /\
         w' = snd (handle create (snd lookup)) /\
         match fst (handle create (snd lookup)) with
         | Ok row =>
             Store.attachments (store w') =
               Store.attachments (store w) ++ [row] /\
             Attachment.emailId row = Email.id email /\
             row_fields row = upload_fields res
         | Throw _ =>
             Store.attachments (store w') = Store.attachments (store w)
         end
     | _ =>
         attachment_requests tr = [] /\ w' = snd lookup /\
         Store.attachments (store w') = Store.attachments (store w)
     end) /\
  (forall gmail message messageId userId w,
     let final :=
       snd (fst (run (processAttachments gmail message messageId userId) w))
     in
     match Message.payload message with
     | None => final = w
     | Some payload =>
         let '(extracted, w1, _) :=
           run (extractAttachments gmail message) w in
         match extracted with
         | Ok (a :: atts) =>
             let listing := handle TokenFindMany w1 in
             match fst listing with
             | Ok tokens =>
                 match (if truthy userId
                        then find (token_of_user (or_else userId "")) tokens
                        else hd_error tokens) with
                 | Some userToken =>
                     let '(client, w3, _) :=
                       run (getAuthenticatedClient userToken) (snd listing) in
                     match client,
                           find_header (match headers payload with
                                        | Some hs => hs
                                        | None => []
                                        end) "subject" with
                     | Ok client, Ok found =>
                         let subject :=
                           or_else (match found with
                                    | Some h => value h
                                    | None => None
                                    end) "No Subject" in
                         let '(uploaded, w4, _) :=
                           run (uploadAttachments client (a :: atts)
                                  (Some subject)) w3 in
                         match uploaded with
                         | Ok results =>
                             final =
                             fst (run_each
                                    (storeAttachmentMetadata messageId)
                                    results w4)
                         | Throw _ => final = w4
                         end
                     | _, _ => final = w3
                     end
                 | None => final = snd listing
                 end
             | Throw _ => final = snd listing
             end
         | _ => final = w1
         end
     end).
Proof.
  split; [|split; [|split; [|split; [|split; [|split]]]]].
  - intros auth target atts w.
    exact (upload_loop_attempts_all auth target atts [] w).
  - apply uploadAttachments_backed.
  - intros gmail message messageId userId w.
    pose proof (after_conj _ w _ _
      (after_conj _ w _ _
         (after_allpaths _ w _
            (processAttachments_backed gmail message messageId userId))
         (after_allpaths _ w _
            (no_stored_emails _ _
               (only_processAttachments gmail message messageId userId)
               eq_refl)))
      (run_growth (processAttachments gmail message messageId userId) w))
      as H.
    unfold after in H.
    destruct (run (processAttachments gmail message messageId userId) w)
      as [[r w'] tr].
    destruct H as [[[Hr Hb] He] (erows & arows & E1 & A1 & E2 & A2)].
    split; [exact Hr|]. split.
    + rewrite He in E2. destruct erows; [|discriminate].
      now rewrite E1, app_nil_r.
    + exists arows. split; [exact A1|].
      apply Forall_forall. intros row Hrow.
      assert (Hin : In (row_fields row) (attachment_requests tr)).
      { apply stored_attachments_requested. rewrite <- A2.
        now apply in_map. }
      unfold records_backed in Hb. rewrite Forall_forall in Hb.
      exact (Hb _ Hin).
  - intros auth atts subject w. apply uploadAttachments_attempts_all.
  - apply uploadFile_result_iff_accepted.
  - apply storeAttachmentMetadata_effect.
  - apply processAttachments_stores_each_result.
Qed.

End AttachmentRecords.

(** ** Isolation of the per-message pipeline *)

Section Pipeline.

Context {platform : Platform}.

Lemma process_message_catch_logs {env : Environment} (id : string)
    (e : error) (w : World) :
  exists level template args,
    run (process_message_catch id e) w =
    (Ok tt, w, [Ev (LogOp level template args) tt]) /\
    In (LStr id) args.
Proof.
  unfold process_message_catch. cbv zeta.
  destruct (includes (message_or e "Unknown error") "Unique constraint").
  - do 3 eexists. split; [reflexivity | now left].
  - do 3 eexists. split; [reflexivity | now left].
Qed.

Lemma processMessage_never_throws (gmail : OAuth2Client) (id : string)
    (userId : option string) :
  allpaths (processMessage gmail id userId) (fun _ r => r = Ok tt).
Proof.
  unfold processMessage. apply allpaths_try_catch.
  eapply allpaths_weaken; [|apply allpaths_trivial].
  intros tr [[]|e] _; [reflexivity|].
  unfold process_message_catch. cbv zeta.
  destruct (includes (message_or e "Unknown error") "Unique constraint");
    simpl; intros []; reflexivity.
Qed.

Lemma fetchEmails_never_throws (token : option Token.t)
    (isInitialSync : bool) :
  allpaths (fetchEmails token isInitialSync) (fun _ r => r = Ok tt).
Proof.
  unfold fetchEmails. destruct token as [token|].
  - apply allpaths_try_catch.
    eapply allpaths_weaken; [|apply allpaths_trivial].
    intros tr [[]|e] _; [reflexivity|]. cbv zeta. simpl. intros [].
    destruct (includes (message_or e "Unknown error") "unauthorized"
              || includes (message_or e "Unknown error") "invalid_grant");
      simpl; [intros []|]; reflexivity.
  - simpl. intros []. reflexivity.
Qed.

End Pipeline.

Section PipelineRounds.

Context {platform : Platform} {env : Environment}.

(** The loop of a round runs the pipeline of every identifier it is
    given. *)
Lemma process_all_runs_every_pipeline (gmail : OAuth2Client)
    (token : Token.t) (ids : list string) (w : World) :
  let pipeline id :=
    processMessage gmail id
      (if truthy (Token.userId token) then Token.userId token else None) in
  run (process_all gmail token ids) w =
  (Ok tt, fst (run_each pipeline ids w), snd (run_each pipeline ids w)).
Proof.
  cbv zeta. unfold process_all.
  apply (run_forM_each
           (fun id => processMessage gmail id
                        (if truthy (Token.userId token)
                         then Token.userId token else None))).
  intros id. apply processMessage_never_throws.
Qed.

(** A round: the client, the discovery, then the pipeline of every
    identifier discovered. *)
Lemma fetchEmails_runs_every_pipeline (token : Token.t)
    (isInitialSync : bool) (w : World) :
  let '(client, w0, t0) := run (getAuthenticatedClient token) w in
  match client with
  | Throw _ =>
      exists logs,
        run (fetchEmails (Some token) isInitialSync) w =
        (Ok tt, w0, t0 ++ logs) /\
        Forall (fun ev => kind (event_op ev) = KLog) logs
  | Ok gmail =>
      let '(discovered, w1, t1) :=
        run (discover gmail token isInitialSync) w0 in
      match discovered with
      | Throw _ =>
          exists logs,
            run (fetchEmails (Some token) isInitialSync) w =
            (Ok tt, w1, t0 ++ t1 ++ logs) /\
            Forall (fun ev => kind (event_op ev) = KLog) logs
      | Ok ids =>
          let pipeline id :=
            processMessage gmail id
              (if truthy (Token.userId token)
               then Token.userId token else None) in
          run (fetchEmails (Some token) isInitialSync) w =
          (Ok tt, fst (run_each pipeline ids w1),
           t0 ++ t1 ++ snd (run_each pipeline ids w1))
      end
  end.
Proof.
  assert (Catch : forall e w',
    exists logs,
      run (mbind
             (log LError
                "Failed to fetch emails for token ${token.id}: ${errorMessage}"
                [LStr (Token.id token); LStr (message_or e "Unknown error")])
             (fun _ =>
                if includes (message_or e "Unknown error") "unauthorized"
                   || includes (message_or e "Unknown error") "invalid_grant"
                then log LError
                       "Authentication failed for token ${token.id}. User may need to re-authenticate."
                       [LStr (Token.id token)]
                else ret tt)) w' = (Ok tt, w', logs) /\
      Forall (fun ev => kind (event_op ev) = KLog) logs).
  { intros e w'. rewrite run_mbind, run_log.
    destruct (includes (message_or e "Unknown error") "unauthorized"
              || includes (message_or e "Unknown error") "invalid_grant");
      eexists; (split; [reflexivity|]); repeat constructor. }
  unfold fetchEmails. rewrite run_try_catch, run_mbind.
  destruct (run (getAuthenticatedClient token) w) as [[[gmail|e] w0] t0].
  - rewrite run_mbind.
    destruct (run (discover gmail token isInitialSync) w0)
      as [[[ids|e] w1] t1].
    + rewrite process_all_runs_every_pipeline. reflexivity.
    + destruct (Catch e w1) as (logs & Hrun & Hlogs).
      exists logs. cbv beta zeta in Hrun |- *. rewrite Hrun.
      split; [now rewrite <- app_assoc | exact Hlogs].
  - destruct (Catch e w0) as (logs & Hrun & Hlogs).
    exists logs. cbv beta zeta in Hrun |- *. rewrite Hrun.
    split; [reflexivity | exact Hlogs].
Qed.

End PipelineRounds.

Section Isolation.

Context {platform : Platform}.

(** C8.  A message pipeline returns normally on every execution;
    when its try block throws, the catch clause logs one line naming the
    message and nothing more happens; a loop over the pipelines
    therefore runs every one of them, each from the world the one
    before left, and ends normally.  That is what a round does: its loop
    runs the pipeline of every identifier it is given, and a round that
    got a client and discovered a batch of identifiers runs the pipeline
    of every one of them after the discovery, whatever each of them
    does, and returns normally; a round that failed before only logs.
    A round never throws. *)
Theorem processMessage_isolates_failures {env : Environment}
    (gmail : OAuth2Client) (userId : option string) :
  (forall id, allpaths (processMessage gmail id userId)
                (fun _ r => r = Ok tt)) /\
  (forall id w,
     let '(r, w1, t1) := run (process_message_try gmail id userId) w in
     match r with
     | Ok _ => run (processMessage gmail id userId) w = (Ok tt, w1, t1)
     | Throw e =>
         exists level template args,
           In (LStr id) args /\
           run (processMessage gmail id userId) w =
           (Ok tt, w1, t1 ++ [Ev (LogOp level template args) tt])
     end) /\
  (forall ids w,
     run (forM ids (fun id => processMessage gmail id userId)) w =
     (Ok tt,
      fst (run_each (fun id => processMessage gmail id userId) ids w),
      snd (run_each (fun id => processMessage gmail id userId) ids w))) /\
  (forall token isInitialSync,
     allpaths (fetchEmails token isInitialSync) (fun _ r => r = Ok tt)) /\
  (forall token ids w,
     let pipeline id :=
       processMessage gmail id
         (if truthy (Token.userId token) then Token.userId token else None) in
     run (process_all gmail token ids) w =
     (Ok tt, fst (run_each pipeline ids w), snd (run_each pipeline ids w))) /\
  (forall token isInitialSync w,
     let '(client, w0, t0) := run (getAuthenticatedClient token) w in
     match client with
     | Throw _ =>
         exists logs,
           run (fetchEmails (Some token) isInitialSync) w =
           (Ok tt, w0, t0 ++ logs) /\
           Forall (fun ev => kind (event_op ev) = KLog) logs
     | Ok client =>
         let '(discovered, w1, t1) :=
           run (discover client token isInitialSync) w0 in
         match discovered with
         | Throw _ =>
             exists logs,
               run (fetchEmails (Some token) isInitialSync) w =
               (Ok tt, w1, t0 ++ t1 ++ logs) /\
               Forall (fun ev => kind (event_op ev) = KLog) logs
         | Ok ids =>
             let pipeline id :=
               processMessage client id
                 (if truthy (Token.userId token)
                  then Token.userId token else None) in
             run (fetchEmails (Some token) isInitialSync) w =
             (Ok tt, fst (run_each pipeline ids w1),
              t0 ++ t1 ++ snd (run_each pipeline ids w1))
         end
     end).
Proof.
  split; [|split; [|split; [|split; [|split]]]].
  - intros id. apply processMessage_never_throws.
  - intros id w. unfold processMessage. rewrite run_try_catch.
    destruct (run (process_message_try gmail id userId) w)
      as [[[[]|e] w1] t1].
    + reflexivity.
    + destruct (process_message_catch_logs id e w1)
        as (level & template & args & Hrun & Hin).
      exists level, template, args. split; [exact Hin|].
      now rewrite Hrun.
  - intros ids w. apply run_forM_each.
    intros id. apply processMessage_never_throws.
  - apply fetchEmails_never_throws.
  - intros token ids w. apply process_all_runs_every_pipeline.
  - intros token isInitialSync w. apply fetchEmails_runs_every_pipeline.
Qed.

End Isolation.


(** ** The full listing *)

Section Listing.

Context {platform : Platform}.

Lemma recent_pages_terminates (gmail : OAuth2Client) (maxMessages : Z)
    (fuel : nat) :
  forall allMessageIds nextPageToken totalFetched,
    (Z.to_nat (maxMessages - totalFetched) < fuel)%nat ->
    allpaths (recent_pages fuel gmail maxMessages allMessageIds
                nextPageToken totalFetched)
      (fun _ o => o <> None).
Proof.
  induction fuel as [|fuel IH]; intros all tok total Hfuel; [lia|].
  cbn [recent_pages allpaths]. intros [page|e]; [|discriminate].
  cbn [allpaths]. intros [].
  destruct ((maxMessages <=?
             total + Z.of_nat (length (defined_ids
               match ListMessages.messages page with
               | Some ms => ms
               | None => []
               end)))%Z
            || negb (truthy (ListMessages.nextPageToken page))
            || (length (defined_ids
                  match ListMessages.messages page with
                  | Some ms => ms
                  | None => []
                  end) =? 0)%nat) eqn:Hbreak; [discriminate|].
  apply orb_false_iff in Hbreak. destruct Hbreak as [Hbreak Hlen].
  apply orb_false_iff in Hbreak. destruct Hbreak as [Hcap Htok].
  destruct (truthy (ListMessages.nextPageToken page)
            && (total + Z.of_nat (length (defined_ids
                  match ListMessages.messages page with
                  | Some ms => ms
                  | None => []
                  end)) <? maxMessages)%Z); [|discriminate].
  apply IH. apply Z.leb_gt in Hcap. apply Nat.eqb_neq in Hlen. lia.
Qed.

Lemma recent_pages_fuel_irrelevant {env : Environment}
    (gmail : OAuth2Client) (maxMessages : Z) (fuel : nat) :
  forall fuel' allMessageIds nextPageToken totalFetched w,
    (Z.to_nat (maxMessages - totalFetched) < fuel)%nat ->
    (Z.to_nat (maxMessages - totalFetched) < fuel')%nat ->
    run (recent_pages fuel gmail maxMessages allMessageIds nextPageToken
           totalFetched) w =
    run (recent_pages fuel' gmail maxMessages allMessageIds nextPageToken
           totalFetched) w.
Proof.
  induction fuel as [|fuel IH]; intros fuel' all tok total w H H'; [lia|].
  destruct fuel' as [|fuel']; [lia|].
  cbn [recent_pages run].
  destruct (handle _ w) as [[page|e] w1]; [|reflexivity].
  cbn [run]. destruct (handle _ w1) as [[] w2].
  destruct ((maxMessages <=?
             total + Z.of_nat (length (defined_ids
               match ListMessages.messages page with
               | Some ms => ms
               | None => []
               end)))%Z
            || negb (truthy (ListMessages.nextPageToken page))
            || (length (defined_ids
                  match ListMessages.messages page with
                  | Some ms => ms
                  | None => []
                  end) =? 0)%nat) eqn:Hbreak; [reflexivity|].
  apply orb_false_iff in Hbreak. destruct Hbreak as [Hbreak Hlen].
  apply orb_false_iff in Hbreak. destruct Hbreak as [Hcap Htok].
  destruct (truthy (ListMessages.nextPageToken page)
            && (total + Z.of_nat (length (defined_ids
                  match ListMessages.messages page with
                  | Some ms => ms
                  | None => []
                  end)) <? maxMessages)%Z); [|reflexivity].
  apply Z.leb_gt in Hcap. apply Nat.eqb_neq in Hlen.
  rewrite (IH fuel'); [reflexivity | lia | lia].
Qed.

Lemma recent_pages_within_cap (gmail : OAuth2Client) (maxMessages : Z)
    (fuel : nat) :
  forall allMessageIds nextPageToken totalFetched,
    totalFetched = Z.of_nat (length allMessageIds) ->
    (totalFetched <= maxMessages)%Z ->
    allpaths (recent_pages fuel gmail maxMessages allMessageIds
                nextPageToken totalFetched)
      (fun tr o =>
         pages_honour_maxResults tr = true ->
         match o with
         | Some (Ok ids) => (Z.of_nat (length ids) <= maxMessages)%Z
         | _ => True
         end).
Proof.
  induction fuel as [|fuel IH]; intros all tok total Htotal Hcap;
    [simpl; trivial|].
  cbn [recent_pages allpaths]. intros [page|e]; [|simpl; trivial].
  cbn [allpaths]. intros [].
  fold (page_ids page).
  assert (Hpage : pages_honour_maxResults
            [Ev (MessagesList gmail (Z.min batchSize (maxMessages - total))
                   (if truthy tok then tok else None)) (Ok page)] = true ->
          (total + Z.of_nat (length (page_ids page)) <= maxMessages)%Z).
  { simpl. rewrite andb_true_r. intros H. apply Z.leb_le in H.
    unfold batchSize in H. lia. }
  destruct ((maxMessages <=? total + Z.of_nat (length (page_ids page)))%Z
            || negb (truthy (ListMessages.nextPageToken page))
            || (length (page_ids page) =? 0)%nat).
  - simpl. rewrite andb_true_r. intros H.
    rewrite length_app, Nat2Z.inj_add, <- Htotal.
    apply Hpage. simpl. now rewrite andb_true_r.
  - destruct (truthy (ListMessages.nextPageToken page)
              && (total + Z.of_nat (length (page_ids page)) <? maxMessages)%Z)
      eqn:Hgo.
    + apply andb_true_iff in Hgo. destruct Hgo as [_ Hgo].
      apply Z.ltb_lt in Hgo.
      eapply allpaths_weaken;
        [|apply (IH (all ++ page_ids page) (ListMessages.nextPageToken page)
                    (total + Z.of_nat (length (page_ids page)))%Z)].
      * intros tr o Ho Hh. apply Ho.
        simpl in Hh. apply andb_true_iff in Hh. tauto.
      * now rewrite length_app, Nat2Z.inj_add, <- Htotal.
      * lia.
    + simpl. rewrite andb_true_r. intros H.
      rewrite length_app, Nat2Z.inj_add, <- Htotal.
      apply Hpage. simpl. now rewrite andb_true_r.
Qed.

Lemma getRecentMessages_fuel_terminates (gmail : OAuth2Client)
    (maxMessages : Z) (fuel : nat) :
  (recent_fuel maxMessages <= fuel)%nat ->
  allpaths (getRecentMessages_fuel fuel gmail maxMessages)
    (fun _ o => o <> None).
Proof.
  intros Hfuel. unfold getRecentMessages_fuel. cbn [allpaths]. intros [].
  apply allpaths_pbind.
  eapply allpaths_weaken;
    [|apply (recent_pages_terminates gmail maxMessages fuel [] None 0%Z)].
  - intros tr [[ids|e]|] Ho; simpl.
    + intros []. discriminate.
    + intros []. discriminate.
    + congruence.
  - unfold recent_fuel in Hfuel. rewrite Z.sub_0_r. lia.
Qed.

Lemma getRecentMessages_fuel_irrelevant {env : Environment}
    (gmail : OAuth2Client) (maxMessages : Z) (fuel : nat) (w : World) :
  (recent_fuel maxMessages <= fuel)%nat ->
  run (getRecentMessages_fuel fuel gmail maxMessages) w =
  run (getRecentMessages_fuel (recent_fuel maxMessages) gmail maxMessages) w.
Proof.
  intros Hfuel. unfold getRecentMessages_fuel. cbn [run].
  destruct (handle _ w) as [[] w1]. rewrite !run_pbind.
  rewrite (recent_pages_fuel_irrelevant gmail maxMessages fuel
             (recent_fuel maxMessages) [] None 0%Z w1);
    [reflexivity | |]; unfold recent_fuel in *; rewrite Z.sub_0_r; lia.
Qed.

Lemma getRecentMessages_within_cap (gmail : OAuth2Client) (maxMessages : Z) :
  allpaths (getRecentMessages gmail maxMessages)
    (fun tr r =>
       exists ids,
         r = Ok ids /\
         ((0 <= maxMessages)%Z -> pages_honour_maxResults tr = true ->
          (Z.of_nat (length ids) <= maxMessages)%Z)).
Proof.
  unfold getRecentMessages. apply allpaths_pbind.
  unfold getRecentMessages_fuel. cbn [allpaths]. intros [].
  apply allpaths_pbind.
  destruct (Z.le_gt_cases 0 maxMessages) as [Hmax|Hmax].
  - eapply allpaths_weaken;
      [|apply (recent_pages_within_cap gmail maxMessages
                 (recent_fuel maxMessages) [] None 0%Z eq_refl Hmax)].
    intros tr [[ids|e]|] Ho; simpl.
    + intros []. exists ids. split; [reflexivity|]. intros _ Hh.
      apply Ho. unfold pages_honour_maxResults in Hh |- *.
      rewrite !forallb_app in Hh. simpl in Hh.
      rewrite !andb_true_r in Hh. exact Hh.
    + intros []. exists []. split; [reflexivity|]. intros; simpl; lia.
    + exists []. split; [reflexivity|]. intros; simpl; lia.
  - eapply allpaths_weaken; [|apply allpaths_trivial].
    intros tr [[ids|e]|] _; simpl.
    + intros []. exists ids. split; [reflexivity|]. lia.
    + intros []. exists []. split; [reflexivity|]. lia.
    + exists []. split; [reflexivity|]. lia.
Qed.

Lemma recent_pages_turns (gmail : OAuth2Client) (maxMessages : Z)
    (fuel : nat) :
  forall allMessageIds nextPageToken totalFetched,
    (Z.to_nat (maxMessages - totalFetched) < fuel)%nat ->
    allpaths (recent_pages fuel gmail maxMessages allMessageIds
                nextPageToken totalFetched)
      (fun tr o =>
         listing_under maxMessages totalFetched (page_turns tr) /\
         match o with
         | Some (Ok ids) =>
             all_listed (page_turns tr) = true /\
             ids = allMessageIds ++ all_page_ids (page_turns tr)
         | Some (Throw _) => all_listed (page_turns tr) = false
         | None => False
         end).
Proof.
  induction fuel as [|fuel IH]; intros all tok total Hfuel; [lia|].
  cbn [recent_pages allpaths]. intros [page|e].
  2: { simpl. repeat split. }
  cbn [allpaths]. intros [].
  fold (page_ids page).
  destruct ((maxMessages <=? total + Z.of_nat (length (page_ids page)))%Z
            || negb (truthy (ListMessages.nextPageToken page))
            || (length (page_ids page) =? 0)%nat) eqn:Hbreak.
  - simpl. rewrite Hbreak, app_nil_r. repeat split.
  - pose proof Hbreak as Hb.
    apply orb_false_iff in Hb. destruct Hb as [Hb Hlen].
    apply orb_false_iff in Hb. destruct Hb as [Hcap Htok].
    apply negb_false_iff in Htok. apply Z.leb_gt in Hcap.
    apply Nat.eqb_neq in Hlen.
    rewrite Htok. cbn [andb].
    destruct (Z.ltb_spec (total + Z.of_nat (length (page_ids page)))
                maxMessages) as [_|Hge]; [|lia].
    eapply allpaths_weaken;
      [|apply (IH (all ++ page_ids page) (ListMessages.nextPageToken page)
                  (total + Z.of_nat (length (page_ids page)))%Z); lia].
    intros tr o [H1 H2]. unfold page_turns in *. cbn [flat_map page_turn app].
    split.
    + cbn [listing_under]. split; [reflexivity|].
      cbv zeta. rewrite Hbreak. exact H1.
    + destruct o as [[ids|e]|]; [|exact H2|exact H2].
      destruct H2 as [H2 H3]. split; [exact H2|].
      rewrite H3. unfold all_page_ids. cbn [flat_map snd].
      now rewrite <- app_assoc.
Qed.

(** The listing as a whole: its turns are those of a listing under the
    cap, and it returns every page whole, or nothing after a failure. *)
Lemma getRecentMessages_turns (gmail : OAuth2Client) (maxMessages : Z) :
  allpaths (getRecentMessages gmail maxMessages)
    (fun tr r =>
       listing_under maxMessages 0 (page_turns tr) /\
       r = Ok (if all_listed (page_turns tr)
               then all_page_ids (page_turns tr) else [])).
Proof.
  unfold getRecentMessages. apply allpaths_pbind.
  unfold getRecentMessages_fuel. cbn [allpaths]. intros [].
  apply allpaths_pbind.
  eapply allpaths_weaken;
    [|apply (recent_pages_turns gmail maxMessages (recent_fuel maxMessages)
               [] None 0%Z); unfold recent_fuel; rewrite Z.sub_0_r; lia].
  intros tr [[ids|e]|] [H1 H2]; [| |contradiction].
  - destruct H2 as [H2 ->]. simpl. intros [].
    unfold page_turns in *. rewrite !app_nil_r, flat_map_app. simpl.
    rewrite app_nil_r. rewrite H2. split; [exact H1 | reflexivity].
  - simpl. intros [].
    unfold page_turns in *. rewrite !app_nil_r, flat_map_app. simpl.
    rewrite app_nil_r. rewrite H2. split; [exact H1 | reflexivity].
Qed.

(** C9, as the code has it.  With [maxMessages] passes and one the
    paging loop always reaches its end, and more fuel changes nothing;
    the listing returns a list and never throws.  Every turn of it asks
    for the identifiers still missing, 50 at most; it goes on after a
    page only when the total is below the cap, the page names a next
    page and the page is not empty; and it returns the identifiers of
    every page whole, without truncating, or none when a page failed.
    So when the cap is not negative and every page Gmail answered held no
    more messages than [maxResults] asked for, the list has at most
    [maxMessages] elements.  The cap of an initial sync, 2000, is above
    the cap of a routine round, 100 with or without a cursor. *)
Theorem getRecentMessages_terminates_within_cap {env : Environment}
    (gmail : OAuth2Client) (maxMessages : Z) :
  (forall fuel,
     (recent_fuel maxMessages <= fuel)%nat ->
     allpaths (getRecentMessages_fuel fuel gmail maxMessages)
       (fun _ o => o <> None)) /\
  (forall fuel w,
     (recent_fuel maxMessages <= fuel)%nat ->
     run (getRecentMessages_fuel fuel gmail maxMessages) w =
     run (getRecentMessages_fuel (recent_fuel maxMessages) gmail
            maxMessages) w) /\
  allpaths (getRecentMessages gmail maxMessages)
    (fun tr r =>
       exists ids,
         r = Ok ids /\
         ((0 <= maxMessages)%Z -> pages_honour_maxResults tr = true ->
          (Z.of_nat (length ids) <= maxMessages)%Z)) /\
  (backfill_cap false < backfill_cap true)%Z /\
  (fallback_cap false < backfill_cap true)%Z /\
  allpaths (getRecentMessages gmail maxMessages)
    (fun tr r =>
       listing_under maxMessages 0 (page_turns tr) /\
       r = Ok (if all_listed (page_turns tr)
               then all_page_ids (page_turns tr) else [])).
Proof.
  split; [|split; [|split; [|split; [|split]]]].
  - intros fuel. apply getRecentMessages_fuel_terminates.
  - intros fuel w. apply getRecentMessages_fuel_irrelevant.
  - apply getRecentMessages_within_cap.
  - reflexivity.
  - reflexivity.
  - apply getRecentMessages_turns.
Qed.

End Listing.

Lemma getRecentMessages_terminates_within_cap_witness :
  let w := Demo.world (Demo.empty_store None) Demo.three_pages in
  let '(r, _, tr) :=
    run (getRecentMessages Demo.gmail 3) w in
  (recent_fuel 3 <= 10)%nat /\ (0 <= 3)%Z /\
  pages_honour_maxResults tr = true /\
  fst (fst (run (getRecentMessages_fuel 10 Demo.gmail 3) w)) <> None /\
  exists ids, r = Ok ids /\ (Z.of_nat (length ids) <= 3)%Z.
Proof.
  intros w.
  destruct (getRecentMessages_terminates_within_cap
              (env := Demo.environment) Demo.gmail 3) as (H1 & _ & H3 & _).
  assert (F : (recent_fuel 3 <= 10)%nat) by (unfold recent_fuel; simpl; lia).
  pose proof (allpaths_run _ _ w (H1 10%nat F)) as T.
  pose proof (allpaths_run _ _ w H3) as B.
  destruct (run (getRecentMessages Demo.gmail 3) w) as [[r w'] tr] eqn:E.
  vm_compute in E. injection E as Er Ew Et. subst r w' tr.
  simpl in B. destruct B as (ids & Eids & Hb).
  split; [exact F|]. split; [lia|]. split; [reflexivity|].
  split; [exact T|].
  exists ids. split; [exact Eids|]. apply Hb; [lia | reflexivity].
Defined.

(** C9 as stated fails when a page holds more identifiers than the
    request asked for: the loop adds the whole page and never truncates.
    With a cap of 1 it asks for one identifier, is given a page of two,
    and returns both.  It also fails for a negative cap, where even the
    empty list is longer than the cap. *)
Lemma getRecentMessages_returns_whole_pages :
  (let w := Demo.world (Demo.empty_store None) Demo.three_pages in
   let '(r, _, tr) := run (getRecentMessages Demo.gmail 1) w in
   list_requests tr = [1%Z] /\ pages_honour_maxResults tr = false /\
   r = Ok ["m1"; "m2"] /\ ~ (Z.of_nat (length ["m1"; "m2"]) <= 1)%Z) /\
  (let w := Demo.world (Demo.empty_store None) Demo.quiet in
   let '(r, _, tr) := run (getRecentMessages Demo.gmail (-1)) w in
   pages_honour_maxResults tr = true /\
   r = Ok [] /\ ~ (Z.of_nat (length (@nil string)) <= -1)%Z).
Proof.
  split.
  - vm_compute. repeat split. intros H. apply H. reflexivity.
  - vm_compute. repeat split. intros H. apply H. reflexivity.
Qed.

(** ** The stored cursor *)

Section Cursor.

Context {env : Environment}.

Lemma find_token_map (id i : string) (change : Token.t -> Token.t)
    (l : list Token.t) :
  (forall k, Token.id (change k) = Token.id k) ->
  find (fun k => Token.id k =? id)
    (map (fun k => if Token.id k =? i then change k else k) l) =
  option_map (fun k => if Token.id k =? i then change k else k)
    (find (fun k => Token.id k =? id) l).
Proof.
  intros Hid. induction l as [|k l IH]; simpl; [reflexivity|].
  destruct (Token.id k =? i) eqn:Ei.
  - rewrite Hid. destruct (Token.id k =? id); simpl; [now rewrite Ei | exact IH].
  - destruct (Token.id k =? id); simpl; [now rewrite Ei | exact IH].
Qed.

Lemma token_update_cursor (id i : string) (change : Token.t -> Token.t)
    (s : Store.t) :
  (forall k, Token.id (change k) = Token.id k) ->
  cursor_of id (snd (Store.token_update i change s)) =
  match fst (Store.token_update i change s) with
  | Ok _ =>
      option_map (fun k => Token.historyId
                             (if Token.id k =? i then change k else k))
        (find (fun k => Token.id k =? id) (Store.tokens s))
  | Throw _ => cursor_of id s
  end.
Proof.
  intros Hid. unfold Store.token_update, cursor_of.
  destruct (find (fun k => Token.id k =? i) (Store.tokens s)); simpl;
    [|reflexivity].
  rewrite (find_token_map id i change _ Hid).
  now destruct (find (fun k => Token.id k =? id) (Store.tokens s)).
Qed.

Lemma handle_cursor (op : Op) (w : World) (id : string) :
  cursor_of id (store (snd (handle op w))) =
  cursor_after id (cursor_writes [Ev op (fst (handle op w))])
    (cursor_of id (store w)).
Proof.
  destruct op as [m | d u | eid f mt l | | i h | i a ex rt | t | a h | a n t
                 | a i | a m i | a t | a q | a b m | a f | | lv tp ar];
    cbn [handle]; try reflexivity;
    try (unfold ask; destruct (remote _ (ext w)) as [r x]; reflexivity);
    try (unfold query; destruct (db_fault _ (ext w)) as [[e|] x];
         reflexivity).
  - (* email.create *)
    unfold query. destruct (db_fault _ (ext w)) as [[e|] x]; [reflexivity|].
    unfold Store.email_create.
    destruct (Store.email_findUnique _ (store w)); reflexivity.
  - (* attachment.create *)
    unfold query. destruct (db_fault _ (ext w)) as [[e|] x]; [reflexivity|].
    unfold Store.attachment_create.
    destruct (existsb _ (Store.emails (store w))); reflexivity.
  - (* token.update, history id *)
    unfold query. destruct (db_fault _ (ext w)) as [[e|] x]; [reflexivity|].
    pose proof (token_update_cursor id i (Store.set_historyId h)
                  (store w) (fun k => eq_refl)) as H.
    destruct (Store.token_update i (Store.set_historyId h) (store w))
      as [[k'|e] s'] eqn:E; simpl in H |- *; [|exact H].
    rewrite H. unfold cursor_after, cursor_of. simpl.
    unfold Store.token_update in E.
    destruct (find (fun k => Token.id k =? i) (Store.tokens (store w)))
      as [k0|] eqn:F0; [|discriminate].
    destruct (i =? id) eqn:Eid.
    + apply String.eqb_eq in Eid. subst i. rewrite F0. simpl.
      apply find_some in F0. destruct F0 as [_ F0]. now rewrite F0.
    + destruct (find (fun k => Token.id k =? id) (Store.tokens (store w)))
        as [k1|] eqn:F1; [|reflexivity].
      simpl. apply find_some in F1. destruct F1 as [_ F1].
      apply String.eqb_eq in F1. rewrite F1.
      rewrite String.eqb_sym, Eid. reflexivity.
  - (* token.update, credentials *)
    unfold query. destruct (db_fault _ (ext w)) as [[e|] x]; [reflexivity|].
    pose proof (token_update_cursor id i (Store.set_credentials a ex rt)
                  (store w) (fun k => eq_refl)) as H.
    destruct (Store.token_update i _ (store w)) as [[k'|e] s'];
      simpl in H |- *; [|exact H].
    rewrite H. unfold cursor_of.
    destruct (find (fun k => Token.id k =? id) (Store.tokens (store w)))
      as [k1|]; [|reflexivity].
    simpl. now destruct (Token.id k1 =? i).
Qed.

Lemma cursor_after_app (id : string) (w1 w2 : list (string * string))
    (c : option (option string)) :
  cursor_after id (w1 ++ w2) c = cursor_after id w2 (cursor_after id w1 c).
Proof. apply fold_left_app. Qed.

(** The cursor a run leaves in the store is the one it found, changed by
    the cursor updates the store carried out. *)
Lemma run_cursor {A : Type} (p : Proc A) (w : World) :
  after p w
    (fun _ w' tr =>
       forall id,
         cursor_of id (store w') =
         cursor_after id (cursor_writes tr) (cursor_of id (store w))).
Proof.
  revert w. induction p as [a | op k IH]; intros w.
  - apply after_ret. reflexivity.
  - apply after_vis. eapply after_weaken; [|apply IH].
    intros a w' tr H id. rewrite H, handle_cursor.
    change (cursor_writes (Ev op (fst (handle op w)) :: tr))
      with (cursor_writes ([Ev op (fst (handle op w))] ++ tr)).
    unfold cursor_writes at 3. rewrite flat_map_app.
    now rewrite cursor_after_app.
Qed.

End Cursor.

(** ** Footprints of the Gmail service *)

Lemma projection_absent {A X : Type} (f : Event -> list X) (k : Kind)
    (ks : list Kind) (p : Proc A) :
  (forall e, kind (event_op e) <> k -> f e = []) ->
  existsb (fun k' => Nat.eqb (kind_code k') (kind_code k)) ks = false ->
  only (within ks) p ->
  allpaths p (fun tr _ => flat_map f tr = []).
Proof.
  intros Hf Hks Hp. eapply allpaths_weaken; [|apply (only_trace _ _ Hp)].
  intros tr a. apply flat_map_quiet.
  intros e He. apply Hf. intros Hk. unfold within in He.
  rewrite Hk, Hks in He. discriminate.
Qed.

Lemma cursor_request_kind (e : Event) :
  kind (event_op e) <> KTokenUpdateHistoryId -> cursor_request e = [].
Proof. destruct e as [[] r]; simpl; congruence. Qed.

Lemma watch_answer_kind (e : Event) :
  kind (event_op e) <> KWatch -> watch_answer e = [].
Proof. destruct e as [[] r]; simpl; congruence. Qed.

Lemma history_answer_kind (e : Event) :
  kind (event_op e) <> KHistoryList -> history_answer e = [].
Proof. destruct e as [[] r]; simpl; congruence. Qed.

Lemma list_request_kind (e : Event) :
  kind (event_op e) <> KMessagesList -> list_request e = [].
Proof. destruct e as [[] r]; simpl; congruence. Qed.

Lemma cursor_writes_requested (tr : list Event) :
  cursor_requests tr = [] -> cursor_writes tr = [].
Proof.
  induction tr as [|[op r] tr IH]; simpl; [trivial|].
  intros H. apply app_eq_nil in H. destruct H as [H1 H2].
  rewrite (IH H2), app_nil_r.
  destruct op; try reflexivity. discriminate.
Qed.


Section GmailFootprints.

Context {platform : Platform}.

#[local] Hint Resolve only_processAttachments : footprint.

Lemma only_processMessage (gmail : OAuth2Client) (id : string)
    (userId : option string) :
  only (within processMessage_kinds) (processMessage gmail id userId).
Proof.
  unfold processMessage, process_message_try, process_message_catch,
    persist_message, body_step.
  footprint.
Qed.

#[local] Hint Resolve only_processMessage : footprint.

Lemma only_process_all (gmail : OAuth2Client) (token : Token.t)
    (messageIds : list string) :
  only (within processMessage_kinds) (process_all gmail token messageIds).
Proof. unfold process_all. footprint. Qed.

Lemma only_recent_pages (gmail : OAuth2Client) (maxMessages : Z)
    (fuel : nat) :
  forall allMessageIds nextPageToken totalFetched,
    only (within [KLog; KMessagesList])
      (recent_pages fuel gmail maxMessages allMessageIds nextPageToken
         totalFetched).
Proof.
  induction fuel as [|fuel IH]; intros all tok total; [exact I|].
  cbn [recent_pages]. split; [reflexivity|].
  intros [page|e]; [|exact I].
  split; [reflexivity|]. intros [].
  destruct (_ || _ || _); [exact I|].
  destruct (_ && _); [apply IH | exact I].
Qed.

Lemma only_getRecentMessages (gmail : OAuth2Client) (maxMessages : Z) :
  only (within [KLog; KMessagesList]) (getRecentMessages gmail maxMessages).
Proof.
  unfold getRecentMessages, getRecentMessages_fuel.
  apply only_pbind.
  - split; [reflexivity|]. intros [].
    apply only_pbind; [apply only_recent_pages|].
    intros [[ids|e]|]; footprint.
  - intros [r|]; footprint.
Qed.

Lemma only_setupGmailWatch (gmail : OAuth2Client) (token : Token.t) :
  only (within [KLog; KWatch; KTokenUpdateHistoryId])
    (setupGmailWatch gmail token).
Proof. unfold setupGmailWatch. footprint. Qed.

End GmailFootprints.

(** ** Discovery rounds *)

Lemma allpaths_possible {A : Type} (p : Proc A) :
  allpaths p (fun tr a => possible p tr a).
Proof.
  induction p as [a | op k IH]; simpl.
  - intros Q HQ. exact HQ.
  - intros r. eapply allpaths_weaken; [|apply IH].
    intros tr a Hp Q HQ. simpl in HQ.
    apply (Hp (fun tr a => Q (Ev op r :: tr) a)). apply HQ.
Qed.

Lemma events_within_app (ks : list Kind) (t1 t2 : list Event) :
  events_within ks (t1 ++ t2) = events_within ks t1 ++ events_within ks t2.
Proof. apply filter_app. Qed.

Lemma events_within_absent {A : Type} (ks ks' : list Kind) (p : Proc A) :
  forallb (fun k => negb (existsb (fun k' => Nat.eqb (kind_code k')
                                              (kind_code k)) ks')) ks = true ->
  only (within ks') p ->
  allpaths p (fun tr _ => events_within ks tr = []).
Proof.
  intros Hdisjoint Hp.
  eapply allpaths_weaken; [|apply (only_trace _ _ Hp)].
  intros tr a Htr. induction Htr as [|e tr He _ IH]; simpl; [reflexivity|].
  rewrite IH.
  destruct (within ks (event_op e)) eqn:Hin; [|reflexivity].
  exfalso. unfold within in Hin, He.
  apply existsb_exists in Hin. destruct Hin as (k & Hk & Ek).
  rewrite forallb_forall in Hdisjoint. specialize (Hdisjoint k Hk).
  apply negb_true_iff in Hdisjoint.
  apply existsb_exists in He. destruct He as (k' & Hk' & Ek').
  apply Nat.eqb_eq in Ek, Ek'.
  assert (existsb (fun k'0 => Nat.eqb (kind_code k'0) (kind_code k)) ks'
          = true).
  { apply existsb_exists. exists k'. split; [exact Hk'|].
    apply Nat.eqb_eq. congruence. }
  congruence.
Qed.

Lemma projection_within {X : Type} (f : Event -> list X) (ks : list Kind)
    (tr : list Event) :
  (forall e, within ks (event_op e) = false -> f e = []) ->
  flat_map f (events_within ks tr) = flat_map f tr.
Proof.
  intros Hf. induction tr as [|e tr IH]; simpl; [reflexivity|].
  destruct (within ks (event_op e)) eqn:He; simpl.
  - now rewrite IH.
  - now rewrite (Hf e He), IH.
Qed.

Section Rounds.

Context {platform : Platform}.

(** The sync operations of a round are those of its discovery step,
    when the round gets that far. *)
Lemma fetchEmails_sync_events (token : Token.t) (isInitialSync : bool) :
  allpaths (fetchEmails (Some token) isInitialSync)
    (fun tr _ =>
       events_within sync_kinds tr = [] \/
       exists gmail t r,
         possible (discover gmail token isInitialSync) t r /\
         events_within sync_kinds tr = events_within sync_kinds t).
Proof.
  unfold fetchEmails. apply allpaths_try_catch.
  eapply allpaths_weaken with
    (Q := fun tr (_ : result unit) =>
            events_within sync_kinds tr = [] \/
            exists gmail t r,
              possible (discover gmail token isInitialSync) t r /\
              events_within sync_kinds tr = events_within sync_kinds t).
  { intros tr [[]|e] H; [exact H|]. cbv zeta. simpl. intros [].
    assert (E : forall post,
              events_within sync_kinds post = [] ->
              events_within sync_kinds tr = [] \/
              (exists gmail t r,
                  possible (discover gmail token isInitialSync) t r /\
                  events_within sync_kinds tr = events_within sync_kinds t) ->
              events_within sync_kinds (tr ++ post) = [] \/
              (exists gmail t r,
                  possible (discover gmail token isInitialSync) t r /\
                  events_within sync_kinds (tr ++ post) =
                  events_within sync_kinds t)).
    { intros post Hpost. rewrite events_within_app, Hpost, app_nil_r.
      trivial. }
    destruct (includes (message_or e "Unknown error") "unauthorized"
              || includes (message_or e "Unknown error") "invalid_grant");
      simpl; [intros []|]; apply E; trivial. }
  apply allpaths_mbind.
  eapply allpaths_weaken;
    [|eapply (events_within_absent sync_kinds); cycle 1;
      [apply (only_getAuthenticatedClient token) | reflexivity]].
  intros t1 [gmail|e] H1; [|now left].
  apply allpaths_mbind.
  eapply allpaths_weaken; [|apply allpaths_possible].
  intros t2 [ids|e] H2.
  - eapply allpaths_weaken;
      [|eapply (events_within_absent sync_kinds); cycle 1;
        [apply (only_process_all gmail token ids) | reflexivity]].
    intros t3 r H3. right. exists gmail, t2, (Ok ids).
    split; [exact H2|].
    now rewrite !events_within_app, H1, H3, app_nil_r.
  - right. exists gmail, t2, (Throw e). split; [exact H2|].
    now rewrite !events_within_app, H1.
Qed.

Lemma recent_pages_trace (gmail : OAuth2Client) (maxMessages : Z)
    (fuel : nat) :
  forall allMessageIds nextPageToken totalFetched,
    allpaths (recent_pages fuel gmail maxMessages allMessageIds
                nextPageToken totalFetched)
      (fun tr _ =>
         listing_caps tr = [] /\ (fuel <> 0%nat -> list_requests tr <> [])).
Proof.
  induction fuel as [|fuel IH]; intros all tok total.
  - simpl. split; [reflexivity | congruence].
  - cbn [recent_pages allpaths]. intros [page|e].
    + cbn [allpaths]. intros [].
      destruct (_ || _ || _); [simpl; split; [reflexivity | discriminate]|].
      destruct (_ && _); [|simpl; split; [reflexivity | discriminate]].
      eapply allpaths_weaken; [|apply IH].
      intros tr o [H1 _]. simpl. rewrite H1.
      split; [reflexivity | discriminate].
    + simpl. split; [reflexivity | discriminate].
Qed.

Lemma getRecentMessages_listing (gmail : OAuth2Client) (maxMessages : Z) :
  allpaths (getRecentMessages gmail maxMessages)
    (fun tr _ => listing_caps tr = [maxMessages] /\ list_requests tr <> []).
Proof.
  unfold getRecentMessages, getRecentMessages_fuel.
  apply allpaths_pbind. cbn [allpaths]. intros [].
  apply allpaths_pbind.
  eapply allpaths_weaken;
    [|apply (recent_pages_trace gmail maxMessages (recent_fuel maxMessages))].
  intros tr o [H1 H2].
  assert (N : list_requests tr <> []) by (apply H2; discriminate).
  assert (S : forall post,
            listing_caps post = [] -> list_requests post = [] ->
            listing_caps
              ((Ev (LogOp LLog
                      "Starting to fetch recent messages (max: ${maxMessages})"
                      [LNum maxMessages]) tt :: tr ++ post) ++ []) =
            [maxMessages] /\
            list_requests
              ((Ev (LogOp LLog
                      "Starting to fetch recent messages (max: ${maxMessages})"
                      [LNum maxMessages]) tt :: tr ++ post) ++ []) <> []).
  { intros post P1 P2. rewrite app_nil_r. unfold listing_caps, list_requests.
    cbn [flat_map]. rewrite !flat_map_app.
    fold (listing_caps tr). fold (listing_caps post).
    fold (list_requests tr). fold (list_requests post).
    rewrite H1, P1, P2, !app_nil_r. simpl. split; [reflexivity | exact N]. }
  destruct o as [[ids|e]|]; simpl.
  - intros []. apply (S [_]); reflexivity.
  - intros []. apply (S [_]); reflexivity.
  - apply (S []); reflexivity.
Qed.

Lemma watch_answer_sync (e : Event) :
  within sync_kinds (event_op e) = false -> watch_answer e = [].
Proof. destruct e as [[] r]; simpl; try reflexivity; discriminate. Qed.

Lemma history_answer_sync (e : Event) :
  within sync_kinds (event_op e) = false -> history_answer e = [].
Proof. destruct e as [[] r]; simpl; try reflexivity; discriminate. Qed.

Lemma cursor_request_sync (e : Event) :
  within sync_kinds (event_op e) = false -> cursor_request e = [].
Proof. destruct e as [[] r]; simpl; try reflexivity; discriminate. Qed.

Lemma list_request_sync (e : Event) :
  within sync_kinds (event_op e) = false -> list_request e = [].
Proof. destruct e as [[] r]; simpl; try reflexivity; discriminate. Qed.

Lemma setupGmailWatch_trace (gmail : OAuth2Client) (token : Token.t) :
  allpaths (setupGmailWatch gmail token)
    (fun tr r =>
       r = Ok tt /\ list_requests tr = [] /\ history_answers tr = [] /\
       exists a, watch_answers tr = [a] /\
                 cursor_requests tr = cursor_request_for token a).
Proof.
  unfold setupGmailWatch. simpl. intros [[h|]|e]; simpl.
  - destruct (h =? "") eqn:E; simpl.
    + repeat split. exists (Ok (Some h)). split; [reflexivity|].
      simpl. now rewrite E.
    + intros [k|e]; simpl; intros []; repeat split;
        exists (Ok (Some h)); (split; [reflexivity|]); simpl; now rewrite E.
  - repeat split. exists (Ok None). split; reflexivity.
  - intros []. repeat split. exists (Throw e). split; reflexivity.
Qed.

Lemma backfill_round_trace (gmail : OAuth2Client) (token : Token.t)
    (isInitialSync : bool) :
  allpaths (backfill_round gmail token isInitialSync)
    (fun tr r =>
       exists ids t1 t2,
         r = Ok ids /\ tr = t1 ++ t2 /\
         listing_caps t1 = [backfill_cap isInitialSync] /\
         list_requests t1 <> [] /\
         watch_answers t1 = [] /\ cursor_requests t1 = [] /\
         history_answers t1 = [] /\
         (pages_honour_maxResults t1 = true ->
          (Z.of_nat (length ids) <= backfill_cap isInitialSync)%Z) /\
         list_requests t2 = [] /\ history_answers t2 = [] /\
         if isInitialSync
         then exists a, watch_answers t2 = [a] /\
                        cursor_requests t2 = cursor_request_for token a
         else t2 = []).
Proof.
  unfold backfill_round. apply allpaths_log.
  apply allpaths_mbind.
  set (cap := backfill_cap isInitialSync).
  pose proof (allpaths_conj _ _ _
    (allpaths_conj _ _ _
       (allpaths_conj _ _ _
          (allpaths_conj _ _ _
             (getRecentMessages_within_cap gmail cap)
             (getRecentMessages_listing gmail cap))
          (projection_absent watch_answer KWatch [KLog; KMessagesList] _
             watch_answer_kind eq_refl (only_getRecentMessages gmail cap)))
       (projection_absent cursor_request KTokenUpdateHistoryId
          [KLog; KMessagesList] _ cursor_request_kind eq_refl
          (only_getRecentMessages gmail cap)))
    (projection_absent history_answer KHistoryList [KLog; KMessagesList] _
       history_answer_kind eq_refl (only_getRecentMessages gmail cap))) as H.
  eapply allpaths_weaken; [|exact H]. clear H.
  intros t1 r [[[[(ids & -> & Hcap) [L1 L2]] W] C] Hh].
  assert (Hbound : pages_honour_maxResults
                     (Ev (LogOp LLog
                            "No history ID found, performing initial sync" [])
                         tt :: t1) = true ->
                   (Z.of_nat (length ids) <= cap)%Z).
  { simpl. intros Hp. apply Hcap; [|exact Hp].
    unfold cap, backfill_cap. destruct isInitialSync; lia. }
  destruct isInitialSync.
  - apply allpaths_mbind.
    eapply allpaths_weaken; [|apply setupGmailWatch_trace].
    intros t2 r (-> & S1 & S2 & a & S3 & S4). simpl.
    exists ids, (Ev (LogOp LLog
                       "No history ID found, performing initial sync" [])
                   tt :: t1), t2.
    rewrite !app_nil_r. repeat split; trivial.
    exists a. split; assumption.
  - simpl.
    exists ids, (Ev (LogOp LLog
                       "No history ID found, performing initial sync" [])
                   tt :: t1), [].
    rewrite !app_nil_r. repeat split; trivial.
Qed.





Lemma cursor_write_sync (e : Event) :
  within sync_kinds (event_op e) = false -> cursor_write e = [].
Proof. destruct e as [[] r]; simpl; try reflexivity; discriminate. Qed.

Lemma sync_projections (tr : list Event) :
  watch_answers (events_within sync_kinds tr) = watch_answers tr /\
  cursor_requests (events_within sync_kinds tr) = cursor_requests tr /\
  history_answers (events_within sync_kinds tr) = history_answers tr /\
  list_requests (events_within sync_kinds tr) = list_requests tr.
Proof.
  repeat split.
  - apply projection_within, watch_answer_sync.
  - apply projection_within, cursor_request_sync.
  - apply projection_within, history_answer_sync.
  - apply projection_within, list_request_sync.
Qed.

(** A property of the sync operations of the discovery step is a
    property of the sync operations of the round. *)
Lemma fetchEmails_via_discover (token : Token.t) (isInitialSync : bool)
    (P : list Event -> Prop) :
  P [] ->
  (forall gmail,
     allpaths (discover gmail token isInitialSync)
       (fun t _ => P (events_within sync_kinds t))) ->
  allpaths (fetchEmails (Some token) isInitialSync)
    (fun tr _ => P (events_within sync_kinds tr)).
Proof.
  intros Hnil Hdiscover.
  eapply allpaths_weaken; [|apply fetchEmails_sync_events].
  intros tr r [E | (gmail & t & r' & Hpossible & E)]; rewrite E.
  - exact Hnil.
  - apply (Hpossible _ (Hdiscover gmail)).
Qed.

Lemma backfill_round_sync (gmail : OAuth2Client) (token : Token.t)
    (isInitialSync : bool) :
  allpaths (backfill_round gmail token isInitialSync)
    (fun tr _ => backfill_sync token isInitialSync tr).
Proof.
  eapply allpaths_weaken; [|apply backfill_round_trace].
  intros tr r (ids & t1 & t2 & _ & -> & _ & L1 & W1 & C1 & H1 & _ & L2 & H2
               & Hinit).
  unfold backfill_sync, history_answers, watch_answers, cursor_requests,
    list_requests in *.
  rewrite !flat_map_app, H1, H2, W1, C1. simpl.
  split; [reflexivity|].
  destruct isInitialSync.
  - right. split.
    + intros E. apply app_eq_nil in E. tauto.
    + exact Hinit.
  - subst t2. now split.
Qed.

Lemma fetchEmails_backfill_sync (token : Token.t) (isInitialSync : bool) :
  truthy (Token.historyId token) && negb isInitialSync = false ->
  allpaths (fetchEmails (Some token) isInitialSync)
    (fun tr _ => backfill_sync token isInitialSync tr).
Proof.
  intros Hbranch.
  pose proof (fetchEmails_via_discover token isInitialSync
                (backfill_sync token isInitialSync)) as H.
  eapply allpaths_weaken; [|apply H].
  - intros tr r. unfold backfill_sync.
    destruct (sync_projections tr) as (-> & -> & -> & ->). trivial.
  - unfold backfill_sync. split; [reflexivity|].
    destruct isInitialSync; [left|]; now split.
  - intros gmail. unfold discover. cbv zeta. rewrite Hbranch.
    eapply allpaths_weaken; [|apply backfill_round_sync].
    intros tr r. unfold backfill_sync.
    destruct (sync_projections tr) as (-> & -> & -> & ->). trivial.
Qed.





End Rounds.




(** ** Replaying traces *)

Section Replay.

Context {env : Environment}.

Lemma run_replay {A : Type} (p : Proc A) (w : World) :
  after p w (fun _ w' tr => replay tr w w').
Proof.
  revert w. induction p as [a | op k IH]; intros w.
  - apply after_ret. reflexivity.
  - apply after_vis. eapply after_weaken; [|apply IH].
    intros a w' tr H. simpl. now split.
Qed.

Lemma replay_app (t1 t2 : list Event) (w w1 w2 : World) :
  replay t1 w w1 -> replay t2 w1 w2 -> replay (t1 ++ t2) w w2.
Proof.
  revert w. induction t1 as [|[op r] t1 IH]; intros w; simpl.
  - now intros ->.
  - intros [Hr H1] H2. split; [exact Hr | now apply IH].
Qed.

Lemma interleave_replay {A B : Type} (sched : list bool) (p : Proc A)
    (q : Proc B) (w : World) :
  let '(_, _, w', tr) := interleave sched p q w in
  replay (map snd tr) w w'.
Proof.
  revert p q w. induction sched as [|c sched IH]; intros p q w.
  - simpl.
    pose proof (run_replay p w) as Hp. unfold after in Hp.
    destruct (run p w) as [[a w1] t1].
    pose proof (run_replay q w1) as Hq. unfold after in Hq.
    destruct (run q w1) as [[b w2] t2].
    rewrite map_app, !map_map. simpl. rewrite !map_id.
    now apply replay_app with w1.
  - destruct c; simpl.
    + destruct p as [a | op k]; [apply IH|].
      destruct (handle op w) as [r w1] eqn:E.
      specialize (IH (k r) q w1).
      destruct (interleave sched (k r) q w1) as [[[a b] w2] tr].
      simpl. rewrite E. now split.
    + destruct q as [b | op k]; [apply IH|].
      destruct (handle op w) as [r w1] eqn:E.
      specialize (IH p (k r) w1).
      destruct (interleave sched p (k r) w1) as [[[a b] w2] tr].
      simpl. rewrite E. now split.
Qed.

Lemma replay_growth (tr : list Event) (w w' : World) :
  replay tr w w' ->
  exists erows arows,
    Store.emails (store w') = Store.emails (store w) ++ erows /\
    Store.attachments (store w') = Store.attachments (store w) ++ arows /\
    map Email.messageId erows = stored_emails tr /\
    map row_fields arows = stored_attachments tr.
Proof.
  revert w. induction tr as [|[op r] tr IH]; intros w; simpl.
  - intros ->. exists [], []. rewrite !app_nil_r. repeat split.
  - intros [Hr H].
    destruct (handle_growth op w) as (e1 & a1 & E1 & A1 & E2 & A2).
    destruct (IH _ H) as (e2 & a2 & E3 & A3 & E4 & A4).
    exists (e1 ++ e2), (a1 ++ a2).
    rewrite E3, A3, E1, A1, <- !app_assoc, !map_app, E2, A2, E4, A4, Hr.
    unfold stored_emails, stored_attachments. cbn [flat_map].
    rewrite !app_nil_r. repeat split.
Qed.

Lemma find_message_id (m : string) (l : list Email.t) :
  find (fun e => Email.messageId e =? m) l = None <->
  ~ In m (map Email.messageId l).
Proof.
  induction l as [|e l IH]; simpl; [tauto|].
  destruct (Email.messageId e =? m) eqn:E.
  - apply String.eqb_eq in E. split; [discriminate | tauto].
  - apply String.eqb_neq in E. rewrite IH. tauto.
Qed.

Lemma handle_unique (op : Op) (w : World) :
  unique_message_ids (store w) ->
  unique_message_ids (store (snd (handle op w))).
Proof.
  intros Hu.
  destruct op as [m | d u | eid f mt l | | i h | i a ex rt | t | a h | a n t
                 | a i | a m i | a t | a q | a b m | a f | | lv tp ar];
    cbn [handle]; try exact Hu;
    try (unfold ask; destruct (remote _ (ext w)) as [r x]; exact Hu);
    try (unfold query; destruct (db_fault _ (ext w)) as [[e|] x];
         exact Hu).
  - (* email.create *)
    unfold query. destruct (db_fault _ (ext w)) as [[e|] x]; [exact Hu|].
    unfold Store.email_create.
    destruct (Store.email_findUnique _ (store w)) eqn:F; [exact Hu|].
    unfold unique_message_ids. simpl. rewrite map_app. simpl.
    apply find_message_id in F.
    apply NoDup_app.
    + exact Hu.
    + constructor; [tauto | constructor].
    + intros m Hm [<-|[]]. now apply F.
  - (* attachment.create *)
    unfold query. destruct (db_fault _ (ext w)) as [[e|] x]; [exact Hu|].
    unfold Store.attachment_create.
    destruct (existsb _ (Store.emails (store w))); exact Hu.
  - (* token.update, history id *)
    unfold query. destruct (db_fault _ (ext w)) as [[e|] x]; [exact Hu|].
    unfold Store.token_update.
    destruct (find _ (Store.tokens (store w))); exact Hu.
  - (* token.update, credentials *)
    unfold query. destruct (db_fault _ (ext w)) as [[e|] x]; [exact Hu|].
    unfold Store.token_update.
    destruct (find _ (Store.tokens (store w))); exact Hu.
Qed.

Lemma replay_unique (tr : list Event) (w w' : World) :
  replay tr w w' ->
  unique_message_ids (store w) -> unique_message_ids (store w').
Proof.
  revert w. induction tr as [|[op r] tr IH]; intros w; simpl.
  - now intros ->.
  - intros [_ H] Hu. apply (IH _ H). now apply handle_unique.
Qed.

End Replay.

(** ** Idempotent ingestion *)

Section Idempotence.

Context {platform : Platform} {env : Environment}.

(** A message already in the store: the pipeline stops after the
    existence check, whatever that check answers. *)
Lemma processMessage_skips (gmail : OAuth2Client) (id : string)
    (userId : option string) (w : World) :
  Store.email_findUnique id (store w) <> None ->
  after (processMessage gmail id userId) w
    (fun r w' tr =>
       r = Ok tt /\ store w' = store w /\
       exists answer level template args,
         tr = [Ev (EmailFindUnique id) answer;
               Ev (LogOp level template args) tt]).
Proof.
  intros Hpresent. unfold processMessage, process_message_try.
  apply after_try_catch, after_mbind. unfold call. apply after_vis.
  cbn [handle]. unfold query.
  destruct (db_fault (EmailFindUnique id) (ext w)) as [[e|] x]; simpl.
  - unfold after. simpl. unfold process_message_catch. cbv zeta.
    destruct (includes (message_or e "Unknown error") "Unique constraint");
      simpl; (split; [reflexivity|]); (split; [reflexivity|]);
      do 4 eexists; reflexivity.
  - destruct (Store.email_findUnique id (store w)) as [row|];
      [|contradiction].
    unfold after. simpl. split; [reflexivity|]. split; [reflexivity|].
    do 4 eexists. reflexivity.
Qed.

(** The duplicate-key rejection of the store is recognised by the catch
    clause, which logs at debug level and returns. *)
Lemma duplicate_key_is_skipped (id : string) (e : error) (w : World) :
  includes (message_or e "Unknown error") "Unique constraint" = true ->
  run (process_message_catch id e) w =
  (Ok tt, w,
   [Ev (LogOp LDebug "Duplicate email ${id}, skipping..." [LStr id]) tt]).
Proof.
  intros H. unfold process_message_catch. cbv zeta. now rewrite H.
Qed.

Lemma email_create_duplicate (d : CreateEmailDto.t) (u : option string)
    (s : Store.t) :
  Store.email_findUnique (CreateEmailDto.messageId d) s <> None ->
  exists e,
    Store.email_create d u s = (Throw e, s) /\
    includes (message_or e "Unknown error") "Unique constraint" = true.
Proof.
  intros H. unfold Store.email_create.
  destruct (Store.email_findUnique (CreateEmailDto.messageId d) s);
    [|contradiction].
  eexists. split; reflexivity.
Qed.

Lemma persist_message_attachments (gmail : OAuth2Client) (msg : Message.t)
    (userId : option string) (emailDto : CreateEmailDto.t) :
  allpaths (persist_message gmail msg userId emailDto)
    (fun tr _ => attachments_after_create tr).
Proof.
  unfold persist_message. apply allpaths_mbind. cbn [call allpaths].
  intros [row|e].
  - eapply allpaths_weaken; [|apply allpaths_trivial].
    intros tr r _. unfold attachments_after_create. simpl. discriminate.
  - unfold attachments_after_create. reflexivity.
Qed.

Lemma attachments_after_create_prefix (pre tr : list Event) :
  events_within attachment_kinds pre = [] ->
  attachments_after_create tr -> attachments_after_create (pre ++ tr).
Proof.
  unfold attachments_after_create, stored_emails.
  rewrite events_within_app, flat_map_app. intros -> H E.
  apply app_eq_nil in E. now apply H.
Qed.

Lemma attachments_after_create_quiet (tr : list Event) :
  events_within attachment_kinds tr = [] -> attachments_after_create tr.
Proof. intros H _. exact H. Qed.

Lemma attachments_after_create_mbind {A B : Type} (p : M A) (f : A -> M B) :
  allpaths p (fun tr _ => events_within attachment_kinds tr = []) ->
  (forall a, allpaths (f a) (fun tr _ => attachments_after_create tr)) ->
  allpaths (mbind p f) (fun tr _ => attachments_after_create tr).
Proof.
  intros Hp Hf. apply allpaths_mbind.
  eapply allpaths_weaken; [|exact Hp].
  intros t1 [a|e] Hq.
  - eapply allpaths_weaken; [|apply Hf].
    intros t2 b. now apply attachments_after_create_prefix.
  - now apply attachments_after_create_quiet.
Qed.

Lemma processMessage_attachments (gmail : OAuth2Client) (id : string)
    (userId : option string) :
  allpaths (processMessage gmail id userId)
    (fun tr _ => attachments_after_create tr).
Proof.
  unfold processMessage. apply allpaths_try_catch.
  eapply allpaths_weaken with
    (Q := fun tr (_ : result unit) => attachments_after_create tr).
  { intros tr [[]|e] H; [exact H|].
    unfold process_message_catch. cbv zeta.
    assert (P : forall u : unit, forall level template args,
              attachments_after_create
                (tr ++ [Ev (LogOp level template args) u])).
    { intros u level template args. unfold attachments_after_create in *.
      unfold stored_emails. rewrite events_within_app, flat_map_app.
      simpl. rewrite !app_nil_r. exact H. }
    destruct (includes (message_or e "Unknown error") "Unique constraint");
      simpl; intros []; apply P. }
  unfold process_message_try.
  apply attachments_after_create_mbind.
  { simpl. intros r. reflexivity. }
  intros [row|].
  { simpl. intros []. now apply attachments_after_create_quiet. }
  apply attachments_after_create_mbind.
  { simpl. intros r. reflexivity. }
  intros [msg|];
    [|simpl; intros []; now apply attachments_after_create_quiet].
  destruct (Message.payload msg) as [payload|];
    [|simpl; intros []; now apply attachments_after_create_quiet].
  cbv zeta.
  do 5 (apply attachments_after_create_mbind;
        [unfold lift; destruct (getHeader _ _); reflexivity | intros ?]).
  assert (K : forall date,
            allpaths
              (mbind (foldM body_step (extractParts payload) ("", ""))
                 (fun bodies =>
                    persist_message gmail msg userId
                      (CreateEmailDto.mk (or_else (Message.id msg) "")
                         (or_else (Message.threadId msg) "")
                         a a0 a1 a2 a3 date (fst bodies) (snd bodies))))
              (fun tr _ => attachments_after_create tr)).
  { intros date. apply attachments_after_create_mbind.
    - eapply (events_within_absent attachment_kinds [KLog]);
        [reflexivity|].
      unfold body_step. footprint.
    - intros bodies. apply persist_message_attachments. }
  destruct (match Message.internalDate msg with
            | Some s0 => js_Number s0
            | None => None
            end) as [n|].
  - destruct (n =? 0)%Z; [|apply K].
    unfold perform. cbn [allpaths]. intros now.
    eapply allpaths_weaken; [|apply (K now)].
    intros tr r. apply (attachments_after_create_prefix [_]). reflexivity.
  - unfold perform. cbn [allpaths]. intros now.
    eapply allpaths_weaken; [|apply (K now)].
    intros tr r. apply (attachments_after_create_prefix [_]). reflexivity.
Qed.

Lemma present_iff (m : string) (s : Store.t) :
  Store.email_findUnique m s <> None <->
  In m (map Email.messageId (Store.emails s)).
Proof.
  unfold Store.email_findUnique.
  pose proof (find_message_id m (Store.emails s)) as H.
  destruct (find (fun e => Email.messageId e =? m) (Store.emails s)).
  - split; [|discriminate]. intros _.
    destruct (in_dec string_dec m (map Email.messageId (Store.emails s)))
      as [Hin|Hout]; [exact Hin|].
    apply H in Hout. discriminate.
  - split; [congruence|]. intros Hin. exfalso. now apply H.
Qed.

Lemma replay_present (tr : list Event) (w w' : World) (m : string) :
  replay tr w w' ->
  Store.email_findUnique m (store w) <> None \/ In m (stored_emails tr) ->
  Store.email_findUnique m (store w') <> None.
Proof.
  intros Hr H. rewrite present_iff in *.
  destruct (replay_growth tr w w' Hr) as (erows & arows & E & _ & Em & _).
  rewrite E, map_app, Em. apply in_or_app. exact H.
Qed.

Lemma email_count_unique (m : string) (s : Store.t) :
  unique_message_ids s -> (email_count m s <= 1)%nat.
Proof.
  unfold unique_message_ids, email_count. intros H.
  now apply (proj1 (NoDup_count_occ string_dec _)).
Qed.

Lemma email_count_present (m : string) (s : Store.t) :
  unique_message_ids s -> Store.email_findUnique m s <> None ->
  email_count m s = 1%nat.
Proof.
  intros Hu Hp. pose proof (email_count_unique m s Hu) as Hle.
  apply present_iff in Hp. unfold email_count in *.
  apply (count_occ_In string_dec) in Hp. lia.
Qed.

Lemma stored_emails_tagged (m : string) (tr : list (bool * Event)) :
  count_occ string_dec (stored_emails (map snd tr)) m =
  (count_occ string_dec (stored_emails (events_of true tr)) m +
   count_occ string_dec (stored_emails (events_of false tr)) m)%nat.
Proof.
  induction tr as [|[b e] tr IH]; simpl; [reflexivity|].
  unfold stored_emails in *. simpl. rewrite count_occ_app, IH.
  destruct b; simpl; rewrite ?count_occ_app; lia.
Qed.

(** Two pipelines running together never both create a Message record
    with the same identifier. *)
Lemma interleaved_creations_disjoint (tr : list (bool * Event))
    (w w' : World) (m : string) :
  replay (map snd tr) w w' -> unique_message_ids (store w) ->
  In m (stored_emails (events_of true tr)) ->
  In m (stored_emails (events_of false tr)) -> False.
Proof.
  intros Hr Hu H1 H2.
  pose proof (replay_unique _ _ _ Hr Hu) as Hu'.
  destruct (replay_growth _ _ _ Hr) as (erows & arows & E & _ & Em & _).
  unfold unique_message_ids in Hu'. rewrite E, map_app, Em in Hu'.
  apply NoDup_app_remove_l in Hu'.
  pose proof (proj1 (NoDup_count_occ string_dec _) Hu' m) as Hc.
  rewrite stored_emails_tagged in Hc.
  apply (count_occ_In string_dec) in H1, H2. lia.
Qed.

(** C1.  A message whose identifier is in the store: the pipeline stops
    after the existence check, with no remote request and the store as
    it was.  A create for an identifier already in the store is rejected
    with the unique-constraint error, which the catch clause answers
    with a debug line and a normal return.  Ingesting an identifier a
    second time after an ingestion that left it in the store changes
    nothing and sends no remote request; there is then exactly one
    Message record for it.  And for two pipelines for the same
    identifier interleaved in any order: both return normally, the
    store keeps at most one Message record per identifier, the two
    never both create a record for the same identifier, and a pipeline
    that created no record performed no attachment operation, so the
    attachments of a message come from one pipeline only. *)
Theorem ingestion_is_idempotent (id : string) :
  (forall gmail userId w,
     Store.email_findUnique id (store w) <> None ->
     let '(r, w', tr) := run (processMessage gmail id userId) w in
     r = Ok tt /\ store w' = store w /\
     events_within remote_kinds tr = [] /\
     exists answer level template args,
       tr = [Ev (EmailFindUnique id) answer;
             Ev (LogOp level template args) tt]) /\
  (forall data userId s,
     Store.email_findUnique (CreateEmailDto.messageId data) s <> None ->
     exists e,
       Store.email_create data userId s = (Throw e, s) /\
       forall w,
         run (process_message_catch id e) w =
         (Ok tt, w,
          [Ev (LogOp LDebug "Duplicate email ${id}, skipping..." [LStr id])
             tt])) /\
  (forall gmail1 userId1 gmail2 userId2 w,
     unique_message_ids (store w) ->
     let '(_, w1, t1) := run (processMessage gmail1 id userId1) w in
     let '(r2, w2, t2) := run (processMessage gmail2 id userId2) w1 in
     Store.email_findUnique id (store w) <> None \/
     In id (stored_emails t1) ->
     r2 = Ok tt /\ store w2 = store w1 /\
     events_within remote_kinds t2 = [] /\
     email_count id (store w2) = 1%nat) /\
  (forall sched gmail1 userId1 gmail2 userId2 w,
     unique_message_ids (store w) ->
     let '(r1, r2, w', tr) :=
       interleave sched (processMessage gmail1 id userId1)
         (processMessage gmail2 id userId2) w in
     r1 = Ok tt /\ r2 = Ok tt /\
     unique_message_ids (store w') /\
     (forall m, (email_count m (store w') <= 1)%nat) /\
     (Store.email_findUnique id (store w) <> None \/
      In id (stored_emails (map snd tr)) ->
      email_count id (store w') = 1%nat) /\
     (forall m,
        In m (stored_emails (events_of true tr)) ->
        In m (stored_emails (events_of false tr)) -> False) /\
     attachments_after_create (events_of true tr) /\
     attachments_after_create (events_of false tr)).
Proof.
  split; [|split; [|split]].
  - intros gmail userId w Hp.
    pose proof (processMessage_skips gmail id userId w Hp) as H.
    unfold after in H.
    destruct (run (processMessage gmail id userId) w) as [[r w'] tr].
    destruct H as (H1 & H2 & answer & level & template & args & ->).
    repeat split; trivial. now exists answer, level, template, args.
  - intros data userId s Hp.
    destruct (email_create_duplicate data userId s Hp) as (e & He & Hi).
    exists e. split; [exact He|].
    intros w. now apply duplicate_key_is_skipped.
  - intros gmail1 userId1 gmail2 userId2 w Hu.
    pose proof (run_replay (processMessage gmail1 id userId1) w) as Hr.
    unfold after in Hr.
    destruct (run (processMessage gmail1 id userId1) w) as [[r1 w1] t1].
    destruct (run (processMessage gmail2 id userId2) w1)
      as [[r2 w2] t2] eqn:E2.
    intros Hp.
    pose proof (replay_present t1 w w1 id Hr Hp) as Hp1.
    pose proof (processMessage_skips gmail2 id userId2 w1 Hp1) as H.
    unfold after in H. rewrite E2 in H.
    destruct H as (H1 & H2 & answer & level & template & args & ->).
    repeat split; trivial.
    rewrite H2. apply email_count_present; [|exact Hp1].
    now apply (replay_unique t1 w w1).
  - intros sched gmail1 userId1 gmail2 userId2 w Hu.
    pose proof (interleave_replay sched (processMessage gmail1 id userId1)
                  (processMessage gmail2 id userId2) w) as Hr.
    pose proof (allpaths_interleave sched _ _ _ _ w
      (allpaths_conj _ _ _
         (processMessage_never_throws gmail1 id userId1)
         (processMessage_attachments gmail1 id userId1))
      (allpaths_conj _ _ _
         (processMessage_never_throws gmail2 id userId2)
         (processMessage_attachments gmail2 id userId2))) as Hq.
    destruct (interleave sched (processMessage gmail1 id userId1)
                (processMessage gmail2 id userId2) w) as [[[r1 r2] w'] tr].
    destruct Hq as [[H1 A1] [H2 A2]].
    pose proof (replay_unique _ _ _ Hr Hu) as Hu'.
    repeat split; trivial.
    + intros m. now apply email_count_unique.
    + intros Hp. apply email_count_present; [exact Hu'|].
      now apply (replay_present (map snd tr) w w').
    + intros m. now apply (interleaved_creations_disjoint tr w w').
Qed.

End Idempotence.

Lemma ingestion_is_idempotent_witness :
  let w := Demo.world (Demo.empty_store None) Demo.first_sync in
  let p := processMessage (platform := Demo.platform) Demo.gmail "m1"
             (Some "u1") in
  let sched := [true; false; true; false; true; false; true; false] in
  let '(_, w1, t1) := run p w in
  let '(_, w2, _) := run p w1 in
  let '(_, _, w', tr) := interleave sched p p w in
  unique_message_ids (store w) /\
  In "m1" (stored_emails t1) /\
  store w2 = store w1 /\
  email_count "m1" (store w2) = 1%nat /\
  In "m1" (stored_emails (map snd tr)) /\
  email_count "m1" (store w') = 1%nat /\
  length (Store.attachments (store w')) = 1%nat.
Proof.
  intros w p sched.
  destruct (ingestion_is_idempotent (platform := Demo.platform)
              (env := Demo.environment) "m1") as (_ & _ & H3 & H4).
  assert (Hu : unique_message_ids (store w)) by constructor.
  specialize (H3 Demo.gmail (Some "u1") Demo.gmail (Some "u1") w Hu).
  specialize (H4 sched Demo.gmail (Some "u1") Demo.gmail (Some "u1") w Hu).
  fold p in H3, H4.
  destruct (run p w) as [[r1 w1] t1] eqn:E1.
  vm_compute in E1. injection E1 as _ Ew1 Et1. subst w1 t1.
  destruct (run p _) as [[r2 w2] t2] eqn:E2.
  destruct (interleave sched p p w) as [[[ra rb] w'] tr] eqn:E3.
  vm_compute in E3. injection E3 as _ _ Ew' Etr. subst w' tr.
  split; [exact Hu|].
  split; [simpl; tauto|].
  destruct H3 as (_ & H3s & _ & H3c); [right; simpl; tauto|].
  split; [exact H3s|]. split; [exact H3c|].
  destruct H4 as (_ & _ & _ & _ & H4c & _).
  split; [simpl; tauto|].
  split; [apply H4c; right; simpl; tauto | reflexivity].
Defined.

(** * Further properties of the services *)

(** ** Folder names *)

Lemma Subseq_refl (s : string) : Subseq s s.
Proof. induction s; constructor; assumption. Qed.

Lemma Subseq_trans (s t u : string) : Subseq s t -> Subseq t u -> Subseq s u.
Proof.
  intros Hst Htu. revert s Hst.
  induction Htu as [|c t u _ IH|c t u _ IH]; intros s Hst.
  - exact Hst.
  - apply Subseq_skip. now apply IH.
  - inversion Hst; subst.
    + apply Subseq_skip. now apply IH.
    + apply Subseq_keep. now apply IH.
Qed.

Lemma Subseq_length (s t : string) :
  Subseq s t -> (String.length s <= String.length t)%nat.
Proof. induction 1; simpl; lia. Qed.

Lemma Subseq_all_chars (f : ascii -> bool) (s t : string) :
  Subseq s t -> all_chars f t = true -> all_chars f s = true.
Proof.
  induction 1 as [|c s t _ IH|c s t _ IH]; simpl; trivial.
  - intros H. apply andb_prop in H. now apply IH.
  - intros H. apply andb_prop in H. destruct H as [H1 H2].
    now rewrite H1, IH.
Qed.

Lemma remove_all_Subseq (class : ascii -> bool) (s : string) :
  Subseq (JsString.remove_all class s) s.
Proof.
  induction s as [|c s IH]; simpl; [constructor|].
  destruct (class c); [apply Subseq_skip | apply Subseq_keep]; exact IH.
Qed.

Lemma remove_all_clean (class : ascii -> bool) (s : string) :
  all_chars (fun c => negb (class c)) (JsString.remove_all class s) = true.
Proof.
  induction s as [|c s IH]; simpl; [reflexivity|].
  destruct (class c) eqn:E; simpl; [exact IH|]. now rewrite E, IH.
Qed.

Lemma remove_all_fixed (class : ascii -> bool) (s : string) :
  all_chars (fun c => negb (class c)) s = true ->
  JsString.remove_all class s = s.
Proof.
  induction s as [|c s IH]; simpl; [reflexivity|].
  intros H. apply andb_prop in H. destruct H as [H1 H2].
  apply negb_true_iff in H1. now rewrite H1, IH.
Qed.

Lemma substring_Subseq (m : nat) (s : string) :
  Subseq (String.substring 0 m s) s.
Proof.
  assert (E : forall t, Subseq "" t)
    by (induction t; [apply Subseq_nil | now apply Subseq_skip]).
  revert s. induction m as [|m IH]; intros [|c s]; simpl.
  - apply Subseq_nil.
  - apply E.
  - apply Subseq_nil.
  - apply Subseq_keep. apply IH.
Qed.

Lemma substring_length (m : nat) (s : string) :
  (String.length (String.substring 0 m s) <= m)%nat.
Proof.
  revert s. induction m as [|m IH]; intros [|c s]; simpl; try lia.
  specialize (IH s). lia.
Qed.

Lemma substring_fixed (m : nat) (s : string) :
  (String.length s <= m)%nat -> String.substring 0 m s = s.
Proof.
  revert s. induction m as [|m IH]; intros [|c s]; simpl; trivial.
  - lia.
  - intros H. rewrite IH; [reflexivity | lia].
Qed.

Lemma trimStart_Subseq (s : string) : Subseq (JsString.trimStart s) s.
Proof.
  induction s as [|c s IH]; simpl; [apply Subseq_nil|].
  destruct (JsString.is_whitespace c);
    [now apply Subseq_skip | apply Subseq_refl].
Qed.

Lemma trimEnd_Subseq (s : string) : Subseq (JsString.trimEnd s) s.
Proof.
  assert (E : forall t, Subseq "" t)
    by (induction t; [apply Subseq_nil | now apply Subseq_skip]).
  induction s as [|c s IH]; simpl; [apply Subseq_nil|].
  destruct (JsString.is_whitespace c && (JsString.trimEnd s =? ""));
    [apply E | now apply Subseq_keep].
Qed.

Lemma trimStart_clean (s : string) :
  starts_clean (JsString.trimStart s) = true.
Proof.
  induction s as [|c s IH]; simpl; [reflexivity|].
  destruct (JsString.is_whitespace c) eqn:E; [exact IH|].
  simpl. now rewrite E.
Qed.

Lemma trimStart_fixed (s : string) :
  starts_clean s = true -> JsString.trimStart s = s.
Proof.
  destruct s as [|c s]; simpl; [reflexivity|].
  intros H. apply negb_true_iff in H. now rewrite H.
Qed.

Lemma trimEnd_clean (s : string) :
  starts_clean s = true -> starts_clean (JsString.trimEnd s) = true.
Proof.
  destruct s as [|c s]; simpl; [reflexivity|].
  intros H. apply negb_true_iff in H. rewrite H. simpl. now rewrite H.
Qed.

Lemma trimEnd_idempotent (s : string) :
  JsString.trimEnd (JsString.trimEnd s) = JsString.trimEnd s.
Proof.
  induction s as [|c s IH]; simpl; [reflexivity|].
  destruct (JsString.is_whitespace c && (JsString.trimEnd s =? "")) eqn:E;
    [reflexivity|].
  simpl. now rewrite IH, E.
Qed.

Lemma trim_idempotent (s : string) :
  JsString.trim (JsString.trim s) = JsString.trim s.
Proof.
  unfold JsString.trim.
  rewrite (trimStart_fixed (JsString.trimEnd (JsString.trimStart s))).
  - apply trimEnd_idempotent.
  - apply trimEnd_clean, trimStart_clean.
Qed.

Lemma trim_Subseq (s : string) : Subseq (JsString.trim s) s.
Proof.
  unfold JsString.trim.
  eapply Subseq_trans; [apply trimEnd_Subseq | apply trimStart_Subseq].
Qed.

(** X1.  The folder name made from a subject is the subject with
    characters dropped and none added or changed; it holds none of the
    nine characters the expression removes, is at most 100 characters
    long and neither begins nor ends with white space.  A subject that
    already is like that is kept as it is, so that sanitizing twice
    changes nothing. *)
Theorem sanitizeFolderName_safe (subject : string) :
  let name := sanitizeFolderName subject in
  Subseq name subject /\
  all_chars (fun c => negb (illegal_in_folder_name c)) name = true /\
  (String.length name <= 100)%nat /\
  JsString.trim name = name /\
  (all_chars (fun c => negb (illegal_in_folder_name c)) subject = true ->
   (String.length subject <= 100)%nat ->
   JsString.trim subject = subject ->
   sanitizeFolderName subject = subject) /\
  sanitizeFolderName name = name.
Proof.
  assert (Sub : forall s,
            Subseq (sanitizeFolderName s)
              (JsString.remove_all illegal_in_folder_name s)).
  { intros s. unfold sanitizeFolderName.
    eapply Subseq_trans; [apply trim_Subseq | apply substring_Subseq]. }
  assert (Len : forall s, (String.length (sanitizeFolderName s) <= 100)%nat).
  { intros s. unfold sanitizeFolderName.
    pose proof (Subseq_length _ _
                  (trim_Subseq (String.substring 0 100
                     (JsString.remove_all illegal_in_folder_name s)))).
    pose proof (substring_length 100
                  (JsString.remove_all illegal_in_folder_name s)).
    lia. }
  assert (Clean : forall s,
            all_chars (fun c => negb (illegal_in_folder_name c))
              (sanitizeFolderName s) = true).
  { intros s. eapply Subseq_all_chars; [apply Sub | apply remove_all_clean]. }
  assert (Trim : forall s,
            JsString.trim (sanitizeFolderName s) = sanitizeFolderName s).
  { intros s. unfold sanitizeFolderName. apply trim_idempotent. }
  assert (Fixed : forall s,
            all_chars (fun c => negb (illegal_in_folder_name c)) s = true ->
            (String.length s <= 100)%nat ->
            JsString.trim s = s -> sanitizeFolderName s = s).
  { intros s H1 H2 H3. unfold sanitizeFolderName.
    now rewrite remove_all_fixed, substring_fixed. }
  cbv zeta. repeat split.
  - eapply Subseq_trans; [apply Sub | apply remove_all_Subseq].
  - apply Clean.
  - apply Len.
  - apply Trim.
  - apply Fixed.
  - apply Fixed; [apply Clean | apply Len | apply Trim].
Qed.


(** ** Uploads *)

Section DriveOutcomes.

Context {platform : Platform}.

(** X2.  One call of [uploadFile] sends exactly one file to Drive, with
    the name, the type and the bytes of the attachment, into the folder
    given, and creates no folder.  When it returns, Drive has answered
    with a non-empty id and has accepted the public-read permission on
    it.  Every failure, whatever was thrown, comes out as an [Error]
    whose message begins with "Drive upload failed: "; this includes the
    case where the file was created and only the permission was
    refused. *)
Theorem uploadFile_outcome (auth : OAuth2Client) (a : AttachmentData.t)
    (folderId : option string) :
  allpaths (uploadFile auth a folderId)
    (fun tr r =>
       file_uploads tr = [upload_request a folderId] /\
       folder_creates tr = [] /\
       match r with
       | Ok res =>
           DriveUploadResult.fileId res <> "" /\
           permission_requests tr = [DriveUploadResult.fileId res] /\
           In (Ev (DrivePermissionsCreate auth (DriveUploadResult.fileId res))
                 (Ok tt)) tr
       | Throw e =>
           (exists m, e = Error ("Drive upload failed: " ++ m)) /\
           (permission_requests tr = [] \/
            exists file fid refusal,
              In (Ev (DriveFilesCreate auth (fst (upload_request a folderId))
                        (Some (snd (upload_request a folderId))))
                    (Ok file)) tr /\
              DriveFile.id file = Some fid /\
              permission_requests tr = [fid] /\
              In (Ev (DrivePermissionsCreate auth fid) (Throw refusal)) tr /\
              e = Error ("Drive upload failed: "
                         ++ message_or refusal "Unknown error"))
       end).
Proof.
  assert (P : (match folderId with
               | Some f => if f =? "" then None else Some [f]
               | None => None
               end) =
              (if truthy folderId then Some [or_else folderId ""] else None)).
  { destruct folderId as [f|]; simpl; [|reflexivity].
    now destruct (f =? ""). }
  unfold uploadFile, upload_request. rewrite P. simpl.
  intros [] [file|e]; simpl.
  - destruct (DriveFile.id file) as [fid|] eqn:Eid; simpl.
    + destruct (fid =? "") eqn:E; simpl.
      * intros []. repeat split. { now eexists. } now left.
      * intros [[]|refusal]; simpl.
        -- intros []. repeat split.
           ++ now apply String.eqb_neq.
           ++ right. right. now left.
        -- intros []. repeat split. { now eexists. }
           right. exists file, fid, refusal. repeat split; trivial.
           ++ right. now left.
           ++ right. right. now left.
    + intros []. repeat split. { now eexists. } now left.
  - intros []. repeat split. { now eexists. } now left.
Qed.

(** X3.  The root folder is searched for once, by name, type and not
    trashed.  When the first hit of the search has an id, that folder is
    reused and nothing is created; otherwise one folder named
    "Email Attachments" is created at the top level and its id is
    returned, or the call fails when Drive returns none.  A failure of
    the search or of the creation is thrown on as it is.  No file is
    uploaded and no permission changed, and an id that is returned is
    never empty. *)
Theorem getOrCreateAttachmentsFolder_reuses (auth : OAuth2Client) :
  allpaths (getOrCreateAttachmentsFolder auth)
    (fun tr r =>
       folder_searches tr = [attachments_folder_query] /\
       file_uploads tr = [] /\ permission_requests tr = [] /\
       (exists answer,
          folder_search_answers tr = [answer] /\
          match answer with
          | Throw e => folder_creates tr = [] /\ r = Throw e
          | Ok files =>
              match reusable_folder files with
              | Some fid => folder_creates tr = [] /\ r = Ok fid
              | None =>
                  folder_creates tr = [root_folder] /\
                  exists created,
                    In (Ev (DriveFilesCreate auth root_folder None) created)
                      tr /\
                    r = match created with
                        | Ok file =>
                            if truthy (DriveFile.id file)
                            then Ok (or_else (DriveFile.id file) "")
                            else Throw (Error
                              "Failed to create folder: No folder ID returned")
                        | Throw e => Throw e
                        end
              end
          end) /\
       match r with
       | Ok fid => fid <> ""
       | Throw _ => True
       end).
Proof.
  unfold getOrCreateAttachmentsFolder. simpl.
  assert (C : forall files,
    reusable_folder files = None ->
    forall created : Resp (DriveFilesCreate auth root_folder None),
    allpaths
      (pbind
         match created with
         | Ok a =>
             match DriveFile.id a with
             | Some folderId =>
                 if folderId =? ""
                 then throw (Error "Failed to create folder: No folder ID returned")
                 else
                   mbind (log LLog "Created new attachments folder: ${folderId}"
                            [LStr folderId])
                     (fun _ => ret folderId)
             | None =>
                 throw (Error "Failed to create folder: No folder ID returned")
             end
         | Throw e => Ret (Throw e)
         end
         (fun r0 =>
            match r0 with
            | Ok a => Ret (Ok a)
            | Throw e =>
                mbind (log LError "Failed to create/get attachments folder:"
                         [LErr e])
                  (fun _ => throw e)
            end))
      (fun tr r =>
         let tr := Ev (DriveFilesList auth attachments_folder_query) (Ok files)
                   :: Ev (DriveFilesCreate auth root_folder None) created
                   :: tr in
         folder_searches tr = [attachments_folder_query] /\
         file_uploads tr = [] /\ permission_requests tr = [] /\
         (exists answer,
            folder_search_answers tr = [answer] /\
            match answer with
            | Throw e => folder_creates tr = [] /\ r = Throw e
            | Ok files =>
                match reusable_folder files with
                | Some fid => folder_creates tr = [] /\ r = Ok fid
                | None =>
                    folder_creates tr = [root_folder] /\
                    exists created,
                      In (Ev (DriveFilesCreate auth root_folder None) created)
                        tr /\
                      r = match created with
                          | Ok file =>
                              if truthy (DriveFile.id file)
                              then Ok (or_else (DriveFile.id file) "")
                              else Throw (Error
                                "Failed to create folder: No folder ID returned")
                          | Throw e => Throw e
                          end
                end
            end) /\
         match r with
         | Ok fid => fid <> ""
         | Throw _ => True
         end)).
  { intros files Hnone [file|e]; simpl.
    - destruct (DriveFile.id file) as [fid|] eqn:Eid; simpl.
      + destruct (fid =? "") eqn:E; simpl.
        * intros []. repeat split. exists (Ok files).
          split; [reflexivity|]. rewrite Hnone. split; [reflexivity|].
          exists (Ok file). split; [right; now left|].
          rewrite Eid. simpl. now rewrite E.
        * intros []. repeat split; [|now apply String.eqb_neq].
          exists (Ok files).
          split; [reflexivity|]. rewrite Hnone. split; [reflexivity|].
          exists (Ok file). split; [right; now left|].
          rewrite Eid. simpl. now rewrite E.
      + intros []. repeat split. exists (Ok files).
        split; [reflexivity|]. rewrite Hnone. split; [reflexivity|].
        exists (Ok file). split; [right; now left|].
        now rewrite Eid.
    - intros []. repeat split. exists (Ok files).
      split; [reflexivity|]. rewrite Hnone. split; [reflexivity|].
      exists (Throw e). split; [right; now left | reflexivity]. }
  intros [files|e]; simpl.
  - destruct files as [[|first rest]|]; simpl.
    + intros created. now apply C.
    + destruct (DriveFile.id first) as [fid|] eqn:Eid; simpl.
      * destruct (fid =? "") eqn:E; simpl.
        -- intros created. apply C. simpl. rewrite Eid. simpl. now rewrite E.
        -- intros []. repeat split; [|now apply String.eqb_neq].
           exists (Ok (Some (first :: rest))). split; [reflexivity|].
           simpl. rewrite Eid. simpl. rewrite E. simpl. now split.
      * intros created. apply C. simpl. now rewrite Eid.
    + intros created. now apply C.
  - intros []. repeat split. exists (Throw e). now repeat split.
Qed.

End DriveOutcomes.

(** ** Credentials *)

Section Credentials.

Context {platform : Platform}.

Lemma refresh_requests_app (t1 t2 : list Event) :
  refresh_requests (t1 ++ t2) = refresh_requests t1 ++ refresh_requests t2.
Proof. apply flat_map_app. Qed.

(** The catch clause of [refreshToken]: log lines, then the error
    wrapped. *)
Lemma refreshToken_catch (e : error) (Q : list Event -> result Token.t -> Prop) :
  (forall logs,
     Forall (fun ev => kind (event_op ev) = KLog) logs ->
     Q logs (Throw (Error ("Token refresh failed: "
                           ++ message_or e "Unknown error")))) ->
  allpaths
    (let errorMessage := message_or e "Unknown error" in
     mbind (log LError "Failed to refresh token: ${errorMessage}"
              [LStr errorMessage])
       (fun _ =>
          mbind (if includes errorMessage "invalid_grant"
                    || includes errorMessage "invalid_request"
                 then log LWarn
                        "Token appears to be permanently invalid, marking for re-authentication"
                        []
                 else ret tt)
            (fun _ => throw (Error ("Token refresh failed: " ++ errorMessage)))))
    Q.
Proof.
  intros HQ. cbv zeta. apply allpaths_log.
  destruct (includes (message_or e "Unknown error") "invalid_grant"
            || includes (message_or e "Unknown error") "invalid_request");
    simpl; [intros []|]; apply HQ; repeat constructor.
Qed.

Lemma logs_quiet {X : Type} (f : Event -> list X) (logs : list Event) :
  (forall e, kind (event_op e) = KLog -> f e = []) ->
  Forall (fun ev => kind (event_op ev) = KLog) logs ->
  flat_map f logs = [].
Proof.
  intros Hf H. induction H as [|e l He _ IH]; simpl; [reflexivity|].
  now rewrite (Hf e He), IH.
Qed.

Lemma refresh_request_log (e : Event) :
  kind (event_op e) = KLog -> refresh_request e = [].
Proof. destruct e as [[] r]; simpl; congruence. Qed.

(** One refresh: one request to the token endpoint; the row returned is
    the one the store answered the update with. *)
Lemma refreshToken_outcome (token : Token.t) :
  allpaths (refreshToken token)
    (fun tr r =>
       refresh_requests tr = [Token.refreshToken token] /\
       match r with
       | Ok row =>
           exists a e rt,
             In (Ev (TokenUpdateCredentials (Token.id token) a e rt) (Ok row))
               tr
       | Throw e => exists m, e = Error ("Token refresh failed: " ++ m)
       end).
Proof.
  unfold refreshToken. apply allpaths_try_catch.
  eapply allpaths_weaken with
    (Q := fun tr (r : result Token.t) =>
            refresh_requests tr = [Token.refreshToken token] /\
            match r with
            | Ok row =>
                exists a e rt,
                  In (Ev (TokenUpdateCredentials (Token.id token) a e rt)
                        (Ok row)) tr
            | Throw _ => True
            end).
  { intros tr [row|e] [H1 H2]; [now split|].
    apply refreshToken_catch. intros logs Hlogs.
    rewrite refresh_requests_app, H1.
    unfold refresh_requests at 1.
    rewrite (logs_quiet _ logs refresh_request_log Hlogs).
    split; [reflexivity | now eexists]. }
  apply allpaths_log. apply allpaths_mbind. cbn [call allpaths].
  intros [cred|e]; [|now split].
  destruct (truthy (Credentials.access_token cred)); [|now split].
  assert (U : forall expiry (pre : list Event),
            refresh_requests pre = [] ->
            allpaths
              (mbind
                 (call (TokenUpdateCredentials (Token.id token)
                          (or_else (Credentials.access_token cred) "")
                          expiry
                          (if truthy (Credentials.refresh_token cred)
                           then Credentials.refresh_token cred
                           else None)))
                 (fun updatedToken =>
                    mbind
                      (log LLog
                         "Token refreshed successfully for user: ${userId}"
                         [LStr (or_else (Token.userId token) "unknown")])
                      (fun _ => ret updatedToken)))
              (fun t2 b =>
                 refresh_requests
                   (Ev (LogOp LLog "Refreshing token for user: ${userId}"
                          [LStr (or_else (Token.userId token) "unknown")]) tt
                    :: [Ev (RefreshAccessToken (Token.refreshToken token))
                          (Ok cred)] ++ pre ++ t2) =
                 [Token.refreshToken token] /\
                 match b with
                 | Ok row =>
                     exists a e rt,
                       In (Ev (TokenUpdateCredentials (Token.id token) a e rt)
                             (Ok row))
                         (Ev (LogOp LLog "Refreshing token for user: ${userId}"
                                [LStr (or_else (Token.userId token) "unknown")]) tt
                          :: [Ev (RefreshAccessToken (Token.refreshToken token))
                                (Ok cred)] ++ pre ++ t2)
                 | Throw _ => True
                 end)).
  { intros expiry pre Hpre. apply allpaths_mbind. cbn [call allpaths].
    intros [row|e].
    - apply allpaths_log. simpl. unfold refresh_requests in *.
      rewrite flat_map_app, Hpre. split; [reflexivity|].
      do 3 eexists. right. right. apply in_or_app. right. now left.
    - simpl. unfold refresh_requests in *.
      rewrite flat_map_app, Hpre. now split. }
  destruct (Credentials.expiry_date cred) as [e|].
  - destruct (e =? 0)%Z.
    + cbn [perform allpaths]. intros now'.
      eapply allpaths_weaken; [|apply (U (now' + 3600000)%Z [Ev DateNow now'])].
      * intros tr r H. exact H.
      * reflexivity.
    + eapply allpaths_weaken; [|apply (U e [])].
      * intros tr r H. exact H.
      * reflexivity.
  - cbn [perform allpaths]. intros now'.
    eapply allpaths_weaken; [|apply (U (now' + 3600000)%Z [Ev DateNow now'])].
    + intros tr r H. exact H.
    + reflexivity.
Qed.


Lemma only_refreshToken (token : Token.t) :
  only (within [KLog; KDateNow; KRefreshAccessToken; KTokenUpdateCredentials])
    (refreshToken token).
Proof. unfold refreshToken. footprint. Qed.

End Credentials.

(** ** What single operations do to the store *)

Section StoreSteps.

Context {env : Environment}.

Lemma run_call (op : Op) (w : World) :
  run (call op) w =
  (fst (handle op w), snd (handle op w), [Ev op (fst (handle op w))]).
Proof. unfold call. simpl. now destruct (handle op w). Qed.

Lemma after_call (op : Op) (w : World)
    (Q : Resp op -> World -> list Event -> Prop) :
  Q (fst (handle op w)) (snd (handle op w)) [Ev op (fst (handle op w))] ->
  after (call op) w Q.
Proof. intros H. apply after_vis. apply after_ret. exact H. Qed.

Lemma after_perform {A : Type} (op : Op) (k : Resp op -> M A) (w : World)
    (Q : result A -> World -> list Event -> Prop) :
  after (k (fst (handle op w))) (snd (handle op w))
    (fun a w' tr => Q a w' (Ev op (fst (handle op w)) :: tr)) ->
  after (perform op k) w Q.
Proof. apply after_vis. Qed.

(** A request to a remote service, a reading of the clock and a log line
    leave the store as it is. *)
Lemma handle_keeps_store (op : Op) (w : World) :
  within [KEmailFindUnique; KEmailCreate; KAttachmentCreate; KTokenFindMany;
          KTokenUpdateHistoryId; KTokenUpdateCredentials] op = false ->
  store (snd (handle op w)) = store w.
Proof.
  destruct op; cbn [handle]; try discriminate; intros _;
    try (unfold ask; destruct (remote _ (ext w)) as [r x]; reflexivity).
  reflexivity.
Qed.

(** A program that asks nothing of the store leaves it as it is. *)
Lemma run_keeps_store {A : Type} (p : Proc A) (w : World) :
  only (fun op =>
          negb (within [KEmailFindUnique; KEmailCreate; KAttachmentCreate;
                        KTokenFindMany; KTokenUpdateHistoryId;
                        KTokenUpdateCredentials] op)) p ->
  after p w (fun _ w' _ => store w' = store w).
Proof.
  revert w. induction p as [a | op k IH]; intros w Hp.
  - apply after_ret. reflexivity.
  - destruct Hp as [H1 H2]. apply negb_true_iff in H1.
    apply after_vis. eapply after_weaken; [|apply IH, H2].
    intros a w' tr ->. now apply handle_keeps_store.
Qed.

(** The credential update of [refreshToken] on the store. *)
Lemma handle_update_credentials (i a : string) (e : Z) (rt : option string)
    (w : World) :
  match fst (handle (TokenUpdateCredentials i a e rt) w) with
  | Ok row =>
      exists old,
        token_row i (store w) = Some old /\
        row = Store.set_credentials a e rt old /\
        token_row i (store (snd (handle (TokenUpdateCredentials i a e rt) w)))
        = Some row
  | Throw _ =>
      store (snd (handle (TokenUpdateCredentials i a e rt) w)) = store w
  end.
Proof.
  cbn [handle]. unfold query.
  destruct (db_fault _ (ext w)) as [[f|] x]; simpl; [reflexivity|].
  unfold Store.token_update.
  destruct (find (fun k => Token.id k =? i) (Store.tokens (store w)))
    as [old|] eqn:F; simpl; [|reflexivity].
  exists old. split; [exact F|]. split; [reflexivity|].
  unfold token_row. simpl.
  rewrite (find_token_map i i (Store.set_credentials a e rt) _
             (fun k => eq_refl)), F. simpl.
  apply find_some in F. destruct F as [_ F]. now rewrite F.
Qed.

End StoreSteps.

Lemma stored_email_kind (e : Event) :
  kind (event_op e) <> KEmailCreate -> stored_email e = [].
Proof. destruct e as [[] r]; simpl; congruence. Qed.

Lemma stored_attachment_kind (e : Event) :
  kind (event_op e) <> KAttachmentCreate -> stored_attachment e = [].
Proof. destruct e as [[] r]; simpl; congruence. Qed.

Section RefreshEffect.

Context {platform : Platform} {env : Environment}.

(** X5.  What a refresh does to the store.  A failed refresh, whatever
    failed, leaves the store exactly as it was.  A successful one has
    received credentials with a non-empty access token and has rewritten
    the row of the token: the access token is the new one, the refresh
    token is the new one when the endpoint issued one and the stored one
    otherwise, and the user, the sync cursor and the id of the row are
    kept.  In both cases the Message and Attachment records and the sync
    cursor of every token are untouched. *)
Theorem refreshToken_store_effect (token : Token.t) (w : World) :
  let '(r, w', tr) := run (refreshToken token) w in
  Store.emails (store w') = Store.emails (store w) /\
  Store.attachments (store w') = Store.attachments (store w) /\
  (forall id, cursor_of id (store w') = cursor_of id (store w)) /\
  match r with
  | Throw _ => store w' = store w
  | Ok row =>
      exists cred old,
        In (Ev (RefreshAccessToken (Token.refreshToken token)) (Ok cred)) tr /\
        token_row (Token.id token) (store w) = Some old /\
        token_row (Token.id token) (store w') = Some row /\
        Token.accessToken row = or_else (Credentials.access_token cred) "" /\
        Token.accessToken row <> "" /\
        Token.refreshToken row =
          or_else (Credentials.refresh_token cred) (Token.refreshToken old) /\
        Token.id row = Token.id token /\
        Token.userId row = Token.userId old /\
        Token.historyId row = Token.historyId old
  end.
Proof.
  (* Message and Attachment records, cursors: nothing of the kind is asked *)
  pose proof (only_refreshToken token) as Hfoot.
  pose proof (run_growth (refreshToken token) w) as Hgrow.
  pose proof (run_cursor (refreshToken token) w) as Hcur.
  pose proof (after_allpaths _ w _
                (projection_absent stored_email KEmailCreate
                   [KLog; KDateNow; KRefreshAccessToken;
                    KTokenUpdateCredentials] _
                   stored_email_kind eq_refl Hfoot)) as He.
  pose proof (after_allpaths _ w _
                (projection_absent stored_attachment KAttachmentCreate
                   [KLog; KDateNow; KRefreshAccessToken;
                    KTokenUpdateCredentials] _
                   stored_attachment_kind eq_refl Hfoot)) as Ha.
  pose proof (after_allpaths _ w _
                (projection_absent cursor_request KTokenUpdateHistoryId
                   [KLog; KDateNow; KRefreshAccessToken;
                    KTokenUpdateCredentials] _
                   cursor_request_kind eq_refl Hfoot)) as Hc.
  assert (Main : after (refreshToken token) w
            (fun r w' tr =>
               match r with
               | Throw _ => store w' = store w
               | Ok row =>
                   exists cred old,
                     In (Ev (RefreshAccessToken (Token.refreshToken token))
                           (Ok cred)) tr /\
                     token_row (Token.id token) (store w) = Some old /\
                     token_row (Token.id token) (store w') = Some row /\
                     Token.accessToken row =
                       or_else (Credentials.access_token cred) "" /\
                     Token.accessToken row <> "" /\
                     Token.refreshToken row =
                       or_else (Credentials.refresh_token cred)
                         (Token.refreshToken old) /\
                     Token.id row = Token.id token /\
                     Token.userId row = Token.userId old /\
                     Token.historyId row = Token.historyId old
               end)).
  { unfold refreshToken. apply after_try_catch.
    eapply after_weaken with
      (Q := fun (r : result Token.t) w1 tr =>
              match r with
              | Throw _ => store w1 = store w
              | Ok row =>
                  exists cred old,
                    In (Ev (RefreshAccessToken (Token.refreshToken token))
                          (Ok cred)) tr /\
                    token_row (Token.id token) (store w) = Some old /\
                    token_row (Token.id token) (store w1) = Some row /\
                    Token.accessToken row =
                      or_else (Credentials.access_token cred) "" /\
                    Token.accessToken row <> "" /\
                    Token.refreshToken row =
                      or_else (Credentials.refresh_token cred)
                        (Token.refreshToken old) /\
                    Token.id row = Token.id token /\
                    Token.userId row = Token.userId old /\
                    Token.historyId row = Token.historyId old
              end).
    { intros [row|e] w1 t1 H; [exact H|].
      cbv zeta. apply after_log.
      destruct (includes (message_or e "Unknown error") "invalid_grant"
                || includes (message_or e "Unknown error") "invalid_request");
        unfold after; simpl; exact H. }
    apply after_log. apply after_mbind. unfold call. apply after_vis.
    apply after_ret.
    pose proof (handle_keeps_store
                  (RefreshAccessToken (Token.refreshToken token)) w eq_refl)
      as S1.
    destruct (handle (RefreshAccessToken (Token.refreshToken token)) w)
      as [[cred|e] w1]; cbn [fst snd] in *; [|exact S1].
    destruct (truthy (Credentials.access_token cred)) eqn:Ta;
      [|apply after_ret; exact S1].
    assert (U : forall expiry w2 (pre : list Event),
              store w2 = store w ->
              after
                (mbind
                   (call (TokenUpdateCredentials (Token.id token)
                            (or_else (Credentials.access_token cred) "")
                            expiry
                            (if truthy (Credentials.refresh_token cred)
                             then Credentials.refresh_token cred
                             else None)))
                   (fun updatedToken =>
                      mbind
                        (log LLog
                           "Token refreshed successfully for user: ${userId}"
                           [LStr (or_else (Token.userId token) "unknown")])
                        (fun _ => ret updatedToken))) w2
                (fun b w3 t2 =>
                   match b with
                   | Ok row =>
                       exists cred0 old,
                         In (Ev (RefreshAccessToken
                                   (Token.refreshToken token)) (Ok cred0))
                           (Ev (LogOp LLog
                                  "Refreshing token for user: ${userId}"
                                  [LStr (or_else (Token.userId token)
                                           "unknown")]) tt
                            :: [Ev (RefreshAccessToken
                                      (Token.refreshToken token))
                                  (Ok cred)] ++ pre ++ t2) /\
                         token_row (Token.id token) (store w) = Some old /\
                         token_row (Token.id token) (store w3) = Some row /\
                         Token.accessToken row =
                           or_else (Credentials.access_token cred0) "" /\
                         Token.accessToken row <> "" /\
                         Token.refreshToken row =
                           or_else (Credentials.refresh_token cred0)
                             (Token.refreshToken old) /\
                         Token.id row = Token.id token /\
                         Token.userId row = Token.userId old /\
                         Token.historyId row = Token.historyId old
                   | Throw _ => store w3 = store w
                   end)).
    { intros expiry w2 pre S2. apply after_mbind. unfold call.
      apply after_vis. apply after_ret.
      pose proof (handle_update_credentials (Token.id token)
                    (or_else (Credentials.access_token cred) "") expiry
                    (if truthy (Credentials.refresh_token cred)
                     then Credentials.refresh_token cred else None) w2)
        as Hu.
      destruct (handle (TokenUpdateCredentials _ _ _ _) w2)
        as [[row|e] w3]; cbn [fst snd] in *; [|congruence].
      apply after_log. apply after_ret.
      destruct Hu as (old & F & -> & F').
      exists cred, old. rewrite <- S2.
      split; [right; now left|].
      repeat split; trivial.
      - simpl. unfold truthy in Ta.
        destruct (Credentials.access_token cred) as [a|]; [|discriminate].
        simpl. destruct (a =? "") eqn:E; [discriminate|].
        now apply String.eqb_neq.
      - simpl. destruct (Credentials.refresh_token cred) as [r|];
          simpl; [|reflexivity].
        now destruct (r =? "").
      - simpl. unfold token_row in F. apply find_some in F.
        destruct F as [_ F]. now apply String.eqb_eq. }
    destruct (Credentials.expiry_date cred) as [ex|].
    - destruct (ex =? 0)%Z.
      + apply after_perform.
        pose proof (handle_keeps_store DateNow w1 eq_refl) as S2.
        apply (U _ _ [Ev DateNow (fst (handle DateNow w1))]). congruence.
      + apply (U ex w1 []). exact S1.
    - apply after_perform.
      pose proof (handle_keeps_store DateNow w1 eq_refl) as S2.
      apply (U _ _ [Ev DateNow (fst (handle DateNow w1))]). congruence. }
  unfold after in *.
  destruct (run (refreshToken token) w) as [[r w'] tr].
  destruct Hgrow as (erows & arows & E1 & A1 & E2 & A2).
  unfold stored_emails in E2. unfold stored_attachments in A2.
  cbv beta in He, Ha. rewrite He in E2. rewrite Ha in A2.
  apply map_eq_nil in E2, A2. subst erows arows.
  rewrite app_nil_r in E1, A1.
  split; [exact E1|]. split; [exact A1|]. split; [|exact Main].
  intros id. rewrite Hcur, (cursor_writes_requested tr Hc). reflexivity.
Qed.

End RefreshEffect.

(** ** The refresh cycle *)

Lemma expired_among_app (tokens : list Token.t) (nows extra : list Z) :
  length nows = length tokens ->
  expired_among tokens (nows ++ extra) = expired_among tokens nows.
Proof.
  revert nows. induction tokens as [|t tokens IH]; intros [|n nows] H;
    simpl in *; try discriminate; try reflexivity.
  injection H as H. rewrite (IH nows H). reflexivity.
Qed.

Lemma token_listing_kind (e : Event) :
  kind (event_op e) <> KTokenFindMany -> token_listing e = [].
Proof. destruct e as [[] r]; simpl; congruence. Qed.

Lemma refresh_request_kind (e : Event) :
  kind (event_op e) <> KRefreshAccessToken -> refresh_request e = [].
Proof. destruct e as [[] r]; simpl; congruence. Qed.

Section RefreshCycle.

Context {platform : Platform}.

(** The filter reads the clock once for each token and asks nothing
    else. *)
Lemma expired_tokens_outcome (tokens : list Token.t) :
  allpaths (expired_tokens tokens)
    (fun tr r =>
       r = Ok (expired_among tokens (clock_answers tr)) /\
       length (clock_answers tr) = length tokens /\
       refresh_requests tr = [] /\ token_listings tr = []).
Proof.
  induction tokens as [|t tokens IH]; cbn [expired_tokens].
  - simpl. repeat split.
  - cbn [perform allpaths]. intros now. apply allpaths_mbind.
    eapply allpaths_weaken; [|exact IH].
    intros tr [expired|e] (H1 & H2 & H3 & H4); [|discriminate].
    injection H1 as ->. simpl. rewrite app_nil_r.
    repeat split; trivial. now rewrite H2.
Qed.

Lemma refresh_one_outcome (token : Token.t) :
  allpaths (refresh_one token)
    (fun tr r =>
       r = Ok tt /\ refresh_requests tr = [Token.refreshToken token] /\
       token_listings tr = []).
Proof.
  apply allpaths_conj; [|apply allpaths_conj].
  - unfold refresh_one. apply allpaths_try_catch. apply allpaths_mbind.
    eapply allpaths_weaken; [|apply allpaths_trivial].
    intros tr [row|e] _; simpl; [reflexivity|]. intros []. reflexivity.
  - unfold refresh_one. apply allpaths_try_catch. apply allpaths_mbind.
    eapply allpaths_weaken; [|apply refreshToken_outcome].
    intros tr [row|e] [H _]; simpl.
    + now rewrite app_nil_r.
    + intros []. rewrite refresh_requests_app, H. reflexivity.
  - apply (projection_absent token_listing KTokenFindMany
             [KLog; KDateNow; KRefreshAccessToken; KTokenUpdateCredentials]
             _ token_listing_kind eq_refl).
    unfold refresh_one, refreshToken. footprint.
Qed.

Lemma refresh_loop_outcome (tokens : list Token.t) :
  allpaths (forM tokens refresh_one)
    (fun tr r =>
       r = Ok tt /\ refresh_requests tr = map Token.refreshToken tokens /\
       token_listings tr = []).
Proof.
  unfold forM. induction tokens as [|t tokens IH]; cbn [foldM map].
  - simpl. repeat split.
  - apply allpaths_mbind.
    eapply allpaths_weaken; [|apply refresh_one_outcome].
    intros t1 r (-> & H1 & H2).
    eapply allpaths_weaken; [|exact IH].
    intros t2 r (-> & H3 & H4).
    unfold refresh_requests, token_listings in *.
    rewrite !flat_map_app, H1, H2, H3, H4. repeat split.
Qed.

(** X6.  The refresh cycle never throws.  It lists the tokens once;
    when the listing fails nothing is refreshed.  Otherwise it reads the
    clock once for each token listed, and asks for exactly one refresh
    for each token that was due at its reading, in the order of the
    listing, whether the refreshes before it succeeded or failed; the
    tokens not due are left alone.  The loop runs the refresh of every
    due token, each from the world the one before left.  The hourly job
    is this cycle after one log line. *)
Theorem refreshAllExpiredTokens_attempts_each_due_token
    {env : Environment} :
  allpaths refreshAllExpiredTokens
    (fun tr r =>
       r = Ok tt /\
       exists answer,
         token_listings tr = [answer] /\
         match answer with
         | Ok tokens =>
             refresh_requests tr =
             map Token.refreshToken
               (expired_among tokens (clock_answers tr))
         | Throw _ => refresh_requests tr = [] /\ clock_answers tr = []
         end) /\
  (forall due w,
     run (forM due refresh_one) w =
     (Ok tt, fst (run_each refresh_one due w),
      snd (run_each refresh_one due w))) /\
  (forall w,
     let '(r, w', tr) := run refreshAllExpiredTokens w in
     run scheduledTokenRefresh w =
     (r, w',
      Ev (LogOp LLog "Running scheduled token refresh check..." []) tt
      :: tr)).
Proof.
  split; [|split].
  - unfold refreshAllExpiredTokens. apply allpaths_try_catch.
    apply allpaths_mbind. cbn [call allpaths]. intros [tokens|e].
    + apply allpaths_mbind.
      eapply allpaths_weaken; [|apply expired_tokens_outcome].
      intros t1 [due|e] (H1 & H2 & H3 & H4); [|discriminate].
      injection H1 as ->.
      destruct (expired_among tokens (clock_answers t1)) as [|d due] eqn:Due.
      * simpl. intros []. split; [reflexivity|].
        exists (Ok tokens).
        unfold token_listings, refresh_requests, clock_answers in *.
        cbn [flat_map token_listing refresh_request clock_answer app].
        rewrite !flat_map_app, H3, H4. cbn [flat_map app].
        split; [reflexivity|].
        simpl. rewrite app_nil_r, Due. reflexivity.
      * apply allpaths_log. apply allpaths_mbind.
        eapply allpaths_weaken; [|apply (refresh_loop_outcome (d :: due))].
        intros t2 r (-> & H5 & H6). simpl. intros [].
        split; [reflexivity|]. exists (Ok tokens).
        unfold token_listings, refresh_requests, clock_answers in *.
        cbn [flat_map token_listing refresh_request clock_answer app].
        rewrite !flat_map_app, H3, H4. cbn [flat_map app].
        rewrite !flat_map_app, H5, H6. simpl.
        rewrite !app_nil_r. split; [reflexivity|].
        rewrite (expired_among_app tokens _ _ H2), Due. reflexivity.
    + simpl. intros []. split; [reflexivity|]. exists (Throw e).
      repeat split.
  - intros due w. apply run_forM_each. intros t.
    eapply allpaths_weaken; [|apply refresh_one_outcome].
    intros tr r H. apply H.
  - intros w. unfold scheduledTokenRefresh. rewrite run_mbind, run_log.
    destruct (run refreshAllExpiredTokens w) as [[r w'] tr].
    now destruct r.
Qed.

End RefreshCycle.

(** ** Routine rounds *)

Lemma plain_round (initial : bool) (op : Op) :
  plain_op op = true -> round_op initial op = true.
Proof.
  destruct op; simpl; try discriminate; trivial.
  destruct level; trivial. destruct args as [|[] [|]]; trivial.
  unfold listing_start. now destruct (template =? _).
Qed.

Create HintDb plain.

Ltac plain :=
  lazymatch goal with
  | |- only _ (mbind _ _) => apply only_mbind; [plain | intros; plain]
  | |- only _ (try_catch _ _) =>
      apply only_try_catch; [plain | intros; plain]
  | |- only _ (foldM _ _ _) => apply only_foldM; intros; plain
  | |- only _ (forM _ _) => apply only_foldM; intros; plain
  | |- only _ (log _ _ _) => apply only_log; reflexivity
  | |- only _ (call _) => apply only_call; reflexivity
  | |- only _ (perform _ _) => split; [reflexivity | intros; plain]
  | |- only _ (Vis _ _) => split; [reflexivity | intros; plain]
  | |- only _ (pbind _ _) => apply only_pbind; [plain | intros; plain]
  | |- only _ (ret _) => exact I
  | |- only _ (throw _) => exact I
  | |- only _ (lift _) => exact I
  | |- only _ (Ret _) => exact I
  | |- only _ (match ?x with _ => _ end) => destruct x; plain
  | |- only _ (let _ := _ in _) => cbv zeta; plain
  | |- only (round_op _) _ =>
      first [ solve [eauto with plain]
            | eapply only_weaken; [apply plain_round | solve [eauto with plain]] ]
  | |- only _ _ => solve [eauto with plain]
  end.

Section PlainOperations.

Context {platform : Platform}.

Lemma plain_getAuthenticatedClient (token : Token.t) :
  only plain_op (getAuthenticatedClient token).
Proof.
  unfold getAuthenticatedClient, getValidToken, refreshToken. plain.
Qed.

Lemma plain_uploadAttachments (auth : OAuth2Client)
    (atts : list AttachmentData.t) (subject : option string) :
  only plain_op (uploadAttachments auth atts subject).
Proof.
  unfold uploadAttachments, upload_batch, choose_target_folder, upload_one,
    getOrCreateAttachmentsFolder, createEmailFolder, uploadFile.
  plain.
Qed.

Lemma plain_extractAttachments (gmail : OAuth2Client) (message : Message.t) :
  only plain_op (extractAttachments gmail message).
Proof.
  unfold extractAttachments, extract_one, downloadAttachment. plain.
Qed.

#[local] Hint Resolve plain_getAuthenticatedClient plain_uploadAttachments
  plain_extractAttachments : plain.

Lemma plain_processAttachments (gmail : OAuth2Client) (message : Message.t)
    (messageId : string) (userId : option string) :
  only plain_op (processAttachments gmail message messageId userId).
Proof. unfold processAttachments, storeAttachmentMetadata. plain. Qed.

#[local] Hint Resolve plain_processAttachments : plain.

Lemma plain_processMessage (gmail : OAuth2Client) (id : string)
    (userId : option string) :
  only plain_op (processMessage gmail id userId).
Proof.
  unfold processMessage, process_message_try, process_message_catch,
    persist_message, body_step.
  plain.
Qed.

Lemma plain_expired_tokens (tokens : list Token.t) :
  only plain_op (expired_tokens tokens).
Proof.
  induction tokens as [|t tokens IH]; cbn [expired_tokens]; [exact I|].
  split; [reflexivity|]. intros now.
  apply only_mbind; [exact IH | intros; exact I].
Qed.

#[local] Hint Resolve plain_processMessage plain_expired_tokens : plain.

Lemma plain_refreshAllExpiredTokens : only plain_op refreshAllExpiredTokens.
Proof.
  unfold refreshAllExpiredTokens, refresh_one, refreshToken. plain.
Qed.

End PlainOperations.

Lemma round_trace_routine (tr : list Event) :
  Forall (fun e => round_op false (event_op e) = true) tr ->
  watch_answers tr = [] /\ Forall (fun cap => cap = 100%Z) (listing_caps tr).
Proof.
  induction 1 as [|[op r] tr He _ [IH1 IH2]]; simpl; [now split|].
  unfold watch_answers, listing_caps in *. cbn [flat_map].
  rewrite IH1. split.
  - destruct op; simpl in *; try reflexivity. discriminate.
  - apply Forall_app. split; [|exact IH2].
    destruct op; simpl in *; try constructor.
    destruct level; try constructor.
    destruct args as [|[] [|]]; try constructor.
    unfold listing_start in He.
    destruct (template =? _); repeat constructor.
    now apply Z.eqb_eq.
Qed.

Lemma round_trace_initial (tr : list Event) :
  Forall (fun e => round_op true (event_op e) = true) tr ->
  history_answers tr = [] /\
  Forall (fun cap => cap = 2000%Z) (listing_caps tr).
Proof.
  induction 1 as [|[op r] tr He _ [IH1 IH2]]; simpl; [now split|].
  unfold history_answers, listing_caps in *. cbn [flat_map].
  rewrite IH1. split.
  - destruct op; simpl in *; try reflexivity. discriminate.
  - apply Forall_app. split; [|exact IH2].
    destruct op; simpl in *; try constructor.
    destruct level; try constructor.
    destruct args as [|[] [|]]; try constructor.
    unfold listing_start in He.
    destruct (template =? _); repeat constructor.
    now apply Z.eqb_eq.
Qed.

Section RoundOperations.

Context {platform : Platform}.

Lemma plain_recent_pages (gmail : OAuth2Client) (maxMessages : Z)
    (fuel : nat) :
  forall allMessageIds nextPageToken totalFetched,
    only plain_op
      (recent_pages fuel gmail maxMessages allMessageIds nextPageToken
         totalFetched).
Proof.
  induction fuel as [|fuel IH]; intros all tok total; [exact I|].
  cbn [recent_pages]. split; [reflexivity|].
  intros [page|e]; [|exact I].
  split; [reflexivity|]. intros [].
  destruct (_ || _ || _); [exact I|].
  destruct (_ && _); [apply IH | exact I].
Qed.

Lemma round_getRecentMessages (initial : bool) (gmail : OAuth2Client) :
  only (round_op initial)
    (getRecentMessages gmail (if initial then 2000 else 100)%Z).
Proof.
  unfold getRecentMessages, getRecentMessages_fuel.
  apply only_pbind.
  - split; [unfold round_op, listing_start; simpl; apply Z.eqb_refl|].
    intros [].
    apply only_pbind.
    + eapply only_weaken; [apply plain_round | apply plain_recent_pages].
    + intros [[ids|e]|]; (split; [reflexivity | intros; exact I]) || exact I.
  - intros [r|]; exact I.
Qed.

Lemma round_discover (initial : bool) (gmail : OAuth2Client)
    (token : Token.t) :
  only (round_op initial) (discover gmail token initial).
Proof.
  pose proof (round_getRecentMessages initial gmail) as Hlist.
  unfold discover, history_round, backfill_round, setupGmailWatch,
    backfill_cap, fallback_cap.
  destruct initial; cbn [negb andb].
  - rewrite andb_false_r. plain; try exact Hlist.
  - rewrite andb_true_r.
    destruct (truthy (Token.historyId token)); plain; try exact Hlist.
Qed.

#[local] Hint Resolve plain_getAuthenticatedClient plain_processMessage
  round_discover : plain.

Lemma round_fetchEmails (initial : bool) (token : option Token.t) :
  only (round_op initial) (fetchEmails token initial).
Proof. unfold fetchEmails, process_all. plain. Qed.

End RoundOperations.

(** ** Scheduled and pushed rounds *)

Lemma without_logs_app (t1 t2 : list Event) :
  without_logs (t1 ++ t2) = without_logs t1 ++ without_logs t2.
Proof. apply filter_app. Qed.

Section Triggers.

Context {platform : Platform}.

Lemma refreshAllExpiredTokens_never_throws :
  allpaths refreshAllExpiredTokens (fun _ r => r = Ok tt).
Proof.
  unfold refreshAllExpiredTokens. apply allpaths_try_catch.
  apply allpaths_mbind. cbn [call allpaths]. intros [tokens|e].
  - apply allpaths_mbind.
    eapply allpaths_weaken; [|apply expired_tokens_outcome].
    intros t1 [due|e] (H1 & _); [|discriminate].
    destruct due as [|d due].
    + simpl. intros []. reflexivity.
    + apply allpaths_log. apply allpaths_mbind.
      eapply allpaths_weaken; [|apply (refresh_loop_outcome (d :: due))].
      intros t2 r (-> & _). simpl. intros []. reflexivity.
  - simpl. intros []. reflexivity.
Qed.

Lemma routine_round_never_throws (token : Token.t) :
  allpaths (routine_round token) (fun _ r => r = Ok tt).
Proof. unfold routine_round. apply fetchEmails_never_throws. Qed.

Lemma only_fetch_all (tokens : list Token.t) :
  only (round_op false) (fetch_all tokens).
Proof.
  unfold fetch_all. apply only_foldM. intros _ token.
  apply round_fetchEmails.
Qed.

Lemma run_fetch_all {env : Environment} (tokens : list Token.t)
    (w : World) :
  run (fetch_all tokens) w =
  (Ok tt, fst (run_each routine_round tokens w),
   snd (run_each routine_round tokens w)).
Proof.
  change (fetch_all tokens) with (forM tokens routine_round).
  apply run_forM_each. exact routine_round_never_throws.
Qed.

(** X7.  The scheduled job.  Every operation it performs is one of a
    routine round: it registers no watch, and every full listing it
    starts is capped at 100 messages.  After the refresh cycle it lists
    the tokens once; when that listing fails the job throws the error of
    the listing, and otherwise it runs a routine round for every token
    listed, each from the world the round before left, and returns
    normally whatever the rounds did. *)
Theorem handleCron_runs_routine_rounds {env : Environment} :
  allpaths handleCron
    (fun tr _ =>
       watch_answers tr = [] /\
       Forall (fun cap => cap = 100%Z) (listing_caps tr)) /\
  (forall w,
     let '(_, w1, t1) := run refreshAllExpiredTokens w in
     let start :=
       Ev (LogOp LLog "Running scheduled Gmail fetch for all users..." []) tt
     in
     let listing := Ev TokenFindMany (fst (handle TokenFindMany w1)) in
     let w2 := snd (handle TokenFindMany w1) in
     match fst (handle TokenFindMany w1) with
     | Ok tokens =>
         run handleCron w =
         (Ok tt, fst (run_each routine_round tokens w2),
          start :: t1 ++ listing :: snd (run_each routine_round tokens w2))
     | Throw e => run handleCron w = (Throw e, w2, start :: t1 ++ [listing])
     end).
Proof.
  split.
  - eapply allpaths_weaken;
      [intros tr r H; apply round_trace_routine; exact H|].
    apply only_trace. unfold handleCron.
    pose proof plain_refreshAllExpiredTokens.
    pose proof only_fetch_all.
    plain.
  - intros w. unfold handleCron.
    rewrite run_mbind, run_log, run_mbind.
    pose proof (allpaths_run refreshAllExpiredTokens _ w
                  refreshAllExpiredTokens_never_throws) as Hr.
    destruct (run refreshAllExpiredTokens w) as [[r w1] t1].
    simpl in Hr. subst r. rewrite run_mbind.
    change (run (call TokenFindMany) w1)
      with (let (r, w2) := handle TokenFindMany w1 in
            (r, w2, [Ev TokenFindMany r])).
    destruct (handle TokenFindMany w1) as [[tokens|e] w2]; cbn [fst snd].
    + rewrite run_fetch_all. reflexivity.
    + reflexivity.
Qed.

Context {json : Json}.

Lemma only_handlePushNotification (data : option string) :
  only (round_op false) (handlePushNotification data).
Proof.
  unfold handlePushNotification.
  pose proof only_fetch_all. plain.
Qed.

Lemma handlePushNotification_never_throws (data : option string) :
  allpaths (handlePushNotification data) (fun _ r => r = Ok tt).
Proof.
  unfold handlePushNotification. apply allpaths_try_catch.
  eapply allpaths_weaken with (Q := fun _ (r : result unit) =>
                                      match r with
                                      | Ok u => u = tt
                                      | Throw _ => True
                                      end).
  { intros tr [[]|e] _; [reflexivity|]. simpl. intros []. reflexivity. }
  eapply allpaths_weaken; [|apply allpaths_trivial].
  intros tr [[]|e] _; exact I || reflexivity.
Qed.

(** X8.  A push notification.  The handler never throws, and every
    operation it performs is one of a routine round: no watch is
    registered and every full listing is capped at 100 messages.  What
    the notification carries only shows in the log: whatever its data,
    the handler lists the tokens once and, when that succeeds, runs a
    routine round for every token listed, each from the world the round
    before left; the operations other than log lines and the world it
    leaves are those of the listing and of the rounds. *)
Theorem handlePushNotification_ignores_payload {env : Environment} :
  (forall data,
     allpaths (handlePushNotification data)
       (fun tr r =>
          r = Ok tt /\ watch_answers tr = [] /\
          Forall (fun cap => cap = 100%Z) (listing_caps tr))) /\
  (forall data w,
     let listing := handle TokenFindMany w in
     let '(r, w', tr) := run (handlePushNotification data) w in
     r = Ok tt /\
     match fst listing with
     | Ok tokens =>
         w' = fst (run_each routine_round tokens (snd listing)) /\
         without_logs tr =
         Ev TokenFindMany (fst listing)
         :: without_logs (snd (run_each routine_round tokens (snd listing)))
     | Throw _ =>
         w' = snd listing /\
         without_logs tr = [Ev TokenFindMany (fst listing)]
     end).
Proof.
  split.
  - intros data. apply allpaths_conj.
    + apply handlePushNotification_never_throws.
    + eapply allpaths_weaken;
        [intros tr r H; apply round_trace_routine; exact H|].
      apply only_trace. apply only_handlePushNotification.
  - intros data w. cbv zeta. unfold handlePushNotification.
    rewrite run_try_catch, run_mbind, run_log, run_mbind.
    cbv zeta.
    match goal with
    | |- context [run ?X w] =>
        lazymatch X with
        | (if truthy data then _ else _) => set (parse := X)
        end
    end.
    assert (P : exists parsed logs,
              run parse w = (Ok parsed, w, logs) /\ without_logs logs = []).
    { unfold parse. destruct (truthy data); [|now exists None, []].
      destruct (JSON_parse_error _); [|now eexists _, []].
      eexists None, _. split; reflexivity. }
    clearbody parse.
    destruct P as (parsed & logs & Hrun & Hlogs).
    rewrite Hrun.
    rewrite run_mbind, run_log, run_mbind, (run_call TokenFindMany).
    destruct (handle TokenFindMany w) as [[tokens|e] w2]; cbn [fst snd].
    + rewrite run_fetch_all. split; [reflexivity|]. split; [reflexivity|].
      rewrite !without_logs_app, Hlogs. simpl.
      now rewrite ?app_nil_r.
    + rewrite run_log. split; [reflexivity|]. split; [reflexivity|].
      rewrite !without_logs_app, Hlogs. reflexivity.
Qed.

(** X9.  The webhook.  A body without a message is answered 400 with
    "Invalid payload" after two log lines and nothing else; a body with a
    message is answered 200 with "OK" on every execution, whatever the
    notification carries and whatever the rounds it triggers do.  The
    handler never throws. *)
Theorem handleGmailNotification_answers (body : PubSubMessage.t) :
  allpaths (handleGmailNotification body)
    (fun tr r =>
       match PubSubMessage.message body with
       | None =>
           r = Ok (400%Z, "Invalid payload") /\
           tr = [Ev (LogOp LLog "Received Gmail webhook notification" []) tt;
                 Ev (LogOp LWarn "Invalid webhook payload: missing message" [])
                   tt]
       | Some message =>
           r = Ok (200%Z, "OK") /\
           possible (handlePushNotification (PubSubMessage.data message))
             (tl tr) (Ok tt)
       end).
Proof.
  unfold handleGmailNotification. apply allpaths_try_catch.
  apply allpaths_log.
  destruct (PubSubMessage.message body) as [message|].
  - apply allpaths_mbind.
    eapply allpaths_weaken;
      [|apply (allpaths_conj _ _ _
                 (handlePushNotification_never_throws
                    (PubSubMessage.data message))
                 (allpaths_possible _))].
    intros tr r [-> Hp]. simpl. rewrite app_nil_r. split; [reflexivity|].
    exact Hp.
  - simpl. intros []. split; reflexivity.
Qed.

End Triggers.

(** ** More on rounds *)

Section MoreRounds.

Context {platform : Platform}.

(** X10.  An initial sync does not look at the cursor of the token:
    whether the token has one or not, the round asks for no history,
    every full listing it starts is capped at 2000 messages, and once it
    has listed it registers exactly one watch and asks the store to keep
    the cursor the watch returned, if it returned one.  A round that
    never listed, its client having failed, registers no watch and asks
    for no cursor update. *)
Theorem initial_sync_ignores_cursor (token : Token.t) :
  allpaths (fetchEmails (Some token) true)
    (fun tr _ =>
       history_answers tr = [] /\
       Forall (fun cap => cap = 2000%Z) (listing_caps tr) /\
       ((watch_answers tr = [] /\ cursor_requests tr = []) \/
        (list_requests tr <> [] /\
         exists a, watch_answers tr = [a] /\
                   cursor_requests tr = cursor_request_for token a))).
Proof.
  apply allpaths_conj; [|apply allpaths_conj].
  - eapply allpaths_weaken;
      [|apply (fetchEmails_backfill_sync token true (andb_false_r _))].
    intros tr r [H _]. exact H.
  - eapply allpaths_weaken;
      [intros tr r H; apply (proj2 (round_trace_initial tr H))|].
    apply only_trace. apply round_fetchEmails.
  - eapply allpaths_weaken;
      [|apply (fetchEmails_backfill_sync token true (andb_false_r _))].
    intros tr r [_ H]. exact H.
Qed.


(** X12.  What a download gives.  [downloadAttachment] never throws and
    asks Gmail at most once, for the attachment id of the part.  When it
    returns an attachment, Gmail answered with non-empty data, and the
    attachment carries the filename of the part, its content type or
    [application/octet-stream] when the part has none, the decoded bytes
    of the answer, and for its size the number of those bytes, not the
    size the part declares.  When it returns nothing, either the part
    lacks the attachment id or the filename and nothing was asked, or
    Gmail failed or answered without data and one error line was
    logged. *)
Theorem downloadAttachment_content (gmail : OAuth2Client)
    (messageId : option string) (part : MessagePart) :
  allpaths (downloadAttachment gmail messageId part)
    (fun tr r =>
       let request :=
         AttachmentsGet gmail messageId (or_else (body_attachmentId part) "")
       in
       match r with
       | Throw _ => False
       | Ok (Some d) =>
           exists data,
             tr = [Ev request (Ok (Some data))] /\ data <> "" /\
             d = AttachmentData.mk
                   (or_else (filename part) "")
                   (or_else (mimeType part) "application/octet-stream")
                   (base64_decode data)
                   (Z.of_nat (length (base64_decode data)))
       | Ok None =>
           (carries_reference_and_filename part = false /\ tr = []) \/
           (carries_reference_and_filename part = true /\
            exists answer failure,
              tr = [Ev request answer;
                    Ev (LogOp LError
                          "Failed to download attachment ${part.filename}:"
                          [LOpt (filename part); LErr failure]) tt] /\
              match answer with
              | Ok data => truthy data = false
              | Throw e => failure = e
              end)
       end).
Proof.
  unfold downloadAttachment, carries_reference_and_filename.
  destruct (truthy (body_attachmentId part));
    destruct (truthy (filename part)); simpl;
    try (left; now split).
  intros [data|e]; simpl.
  - destruct (truthy data) eqn:Hd; simpl.
    + destruct data as [data|]; [|discriminate]. simpl in Hd |- *.
      destruct (data =? "") eqn:E; [discriminate|].
      exists data. repeat split. now apply String.eqb_neq.
    + intros []. right. split; [reflexivity|].
      exists (Ok data), (Error "No attachment data received").
      split; [reflexivity | exact Hd].
  - intros []. right. split; [reflexivity|].
    exists (Throw e), e. split; reflexivity.
Qed.

End MoreRounds.
